(** * tools/translate.py: placeholder-preserving translation of ARB files

    A shallow embedding of the translation orchestrator of
    [tools/translate.py] and the properties proved about it.

    - Python strings are sequences of code points: a [str] is a
      [list N].  The Unicode tables the run time consults ([\w], [\s],
      [\d], the case variants of a letter, [str.strip]) are the fields
      of the class [Unicode]; definitions and theorems are stated for
      arbitrary tables, and [ascii_tables] runs the examples.
    - The patterns of the program are values of [regex], matched by a
      backtracking matcher [exec] that follows [re]; [matches] says what
      a pattern can match, and [exec] is proved sound and complete for
      it.
    - [extract_placeholder_names], [has_icu_block] and
      [validate_preserved_tokens] are the token extractor and the
      validator; [find_missing_keys] is the diff engine.
    - [translate_one] runs in a monad of state and exceptions over the
      log of requests and sleeps of the job; the backend is an
      arbitrary function from the request and its number to a JSON value
      or an exception.  The backoff is a binary64 float, multiplied as
      the hardware multiplies it, and what [time.sleep] refuses is the
      field of the class [Clock]: theorems hold for every clock, and
      [cpython_clock] runs the examples.
    - [translate_locale] runs over a heap of dictionaries, in which
      [source_data], [target_data] and the output document are
      references; the file system is the list of the documents written
      in full and the list of the paths opened for writing.  Console
      output is not modelled. *)

From Stdlib Require Import QArith String Ascii SpecFloat.
From stdpp Require Import base list gmap sorting.

Open Scope N_scope.
Open Scope nat_scope.
Open Scope list_scope.

(** ** Strings *)

Definition str := list N.

(** Code points of a literal written in this file (UTF-8 bytes decoded
    back to code points, so that the tables of the source read as they do
    there). *)
Fixpoint utf8_cont (n : nat) (acc : N) (bs : list N) : N * list N :=
  match n with
  | O => (acc, bs)
  | S n' =>
      match bs with
      | [] => (acc, [])
      | b :: bs' => utf8_cont n' (acc * 64 + (b - 128))%N bs'
      end
  end.

Fixpoint utf8_decode (fuel : nat) (bs : list N) : str :=
  match fuel with
  | O => []
  | S fuel' =>
      match bs with
      | [] => []
      | b :: bs' =>
          let '(c, rest) :=
            if (b <? 128)%N then (b, bs')
            else if (b <? 224)%N then utf8_cont 1 (b - 192)%N bs'
            else if (b <? 240)%N then utf8_cont 2 (b - 224)%N bs'
            else utf8_cont 3 (b - 240)%N bs' in
          c :: utf8_decode fuel' rest
      end
  end.

Definition py (s : string) : str :=
  let bs := map N_of_ascii (list_ascii_of_string s) in
  utf8_decode (length bs) bs.

Definition chr (s : string) : N :=
  match py s with c :: _ => c | [] => 0%N end.

Definition NL : N := 10%N.

(** Python compares strings by code point, lexicographically; [sorted]
    on a list of [str] uses this order. *)
Fixpoint str_leb (a b : str) : bool :=
  match a, b with
  | [], _ => true
  | _ :: _, [] => false
  | x :: a', y :: b' =>
      if (x <? y)%N then true
      else if (y <? x)%N then false
      else str_leb a' b'
  end.

Definition str_le : relation str := λ a b, str_leb a b = true.

Definition str_lt : relation str := λ a b, str_le a b ∧ a ≠ b.

#[global] Instance str_le_dec a b : Decision (str_le a b).
Proof. unfold str_le. apply _. Defined.

(** ** The Unicode tables of the run time *)

Class Unicode := {
  (** [Py_UNICODE_ISSPACE]: the class [\s] of [re] and the characters
      [str.strip] removes. *)
  u_isspace : N → bool;
  (** [\w]: alphanumeric or underscore. *)
  u_isword : N → bool;
  (** [\d]: decimal digit. *)
  u_isdigit : N → bool;
  (** [u_caseless p c]: under [re.IGNORECASE], the pattern letter [p]
      matches the character [c]. *)
  u_caseless : N → N → bool;
}.

(** The tables for code points below 128 (larger code points are in no
    class and have no case variants). *)
Definition ascii_isspace (c : N) : bool :=
  ((9 <=? c) && (c <=? 13) || (28 <=? c) && (c <=? 32))%N.

Definition ascii_isdigit (c : N) : bool := ((48 <=? c) && (c <=? 57))%N.

Definition ascii_isupper (c : N) : bool := ((65 <=? c) && (c <=? 90))%N.

Definition ascii_islower (c : N) : bool := ((97 <=? c) && (c <=? 122))%N.

Definition ascii_isword (c : N) : bool :=
  ascii_isdigit c || ascii_isupper c || ascii_islower c || (c =? 95)%N.

Definition ascii_lower (c : N) : N :=
  if ascii_isupper c then (c + 32)%N else c.

Definition ascii_caseless (p c : N) : bool :=
  (ascii_lower p =? ascii_lower c)%N.

Definition ascii_tables : Unicode := {|
  u_isspace := ascii_isspace;
  u_isword := ascii_isword;
  u_isdigit := ascii_isdigit;
  u_caseless := ascii_caseless;
|}.

(** ** Regular expressions: the fragment of [re] the program uses *)

Inductive cclass := CWord | CSpace | CDigit.

Inductive regex :=
| Eps
| Lit (c : N)            (* a literal character *)
| LitI (c : N)           (* a literal letter under re.IGNORECASE *)
| Cls (k : cclass)       (* \w, \s, \d *)
| Seq (a b : regex)
| Alt (a b : regex)      (* a|b, a tried first *)
| Star (a : regex)       (* a*, greedy *)
| Group (a : regex)      (* capturing group 1 *)
| Eol.                   (* $ *)

Definition Plus (a : regex) : regex := Seq a (Star a).

Fixpoint seq (rs : list regex) : regex :=
  match rs with
  | [] => Eps
  | [r] => r
  | r :: rs' => Seq r (seq rs')
  end.

Fixpoint alt (rs : list regex) : regex :=
  match rs with
  | [] => Eps
  | [r] => r
  | r :: rs' => Alt r (alt rs')
  end.

(** A literal string, as a pattern: what [re.escape] of the string
    denotes once compiled (every character stands for itself). *)
Definition lits (w : str) : regex := seq (map Lit w).

Definition re_escape (w : str) : regex := lits w.

(** [re.IGNORECASE]: a cased pattern character matches its case
    variants; an uncased one (brace, comma, [=]) only itself.  The
    patterns of the program are ASCII. *)
Definition ascii_iscased (c : N) : bool := ascii_isupper c || ascii_islower c.

Fixpoint ignorecase (r : regex) : regex :=
  match r with
  | Lit c => if ascii_iscased c then LitI c else Lit c
  | Seq a b => Seq (ignorecase a) (ignorecase b)
  | Alt a b => Alt (ignorecase a) (ignorecase b)
  | Star a => Star (ignorecase a)
  | Group a => Group (ignorecase a)
  | Eps | LitI _ | Cls _ | Eol => r
  end.

(** The state of capturing group 1. *)
Definition caps := option str.

Section Matcher.
Context `{Unicode}.

Definition in_class (k : cclass) (c : N) : bool :=
  match k with
  | CWord => u_isword c
  | CSpace => u_isspace c
  | CDigit => u_isdigit c
  end.

Section Exec.
Context {R : Type}.

Definition cont := str → caps → option R.

(** The greedy loop of [a*]: one more iteration first, the rest of
    the pattern when that fails.  An iteration must consume input. *)
Fixpoint star_loop (step : str → caps → cont → option R)
    (n : nat) (s : str) (g : caps) (k : cont) : option R :=
  match n with
  | O => k s g
  | S n' =>
      match step s g (λ s' g',
              if bool_decide (length s' < length s)
              then star_loop step n' s' g' k else None) with
      | Some x => Some x
      | None => k s g
      end
  end.

(** The backtracking matcher of [re], in continuation-passing style:
    [exec r s g k] matches [r] at the head of [s] and hands the rest
    of the input to [k]; when [k] fails the next alternative of [r]
    is tried. *)
Fixpoint exec (r : regex) (s : str) (g : caps) (k : cont) : option R :=
  match r with
  | Eps => k s g
  | Lit c =>
      match s with
      | x :: s' => if (c =? x)%N then k s' g else None
      | [] => None
      end
  | LitI c =>
      match s with
      | x :: s' => if u_caseless c x then k s' g else None
      | [] => None
      end
  | Cls cl =>
      match s with
      | x :: s' => if in_class cl x then k s' g else None
      | [] => None
      end
  | Seq a b => exec a s g (λ s' g', exec b s' g' k)
  | Alt a b =>
      match exec a s g k with
      | Some x => Some x
      | None => exec b s g k
      end
  | Star a => star_loop (exec a) (length s) s g k
  | Group a =>
      exec a s g (λ s' _, k s' (Some (take (length s - length s') s)))
  | Eol =>
      (* the end of the string, or just before a final newline *)
      match s with
      | [] => k s g
      | [c] => if (c =? NL)%N then k s g else None
      | _ => None
      end
  end.
End Exec.

(** A match object: [m.start()], [m.end()], [m.group(1)]. *)
Record Match := { m_start : nat; m_end : nat; m_group1 : caps }.

(** [re.match(r, s)]: a match at the start of [s]; the result is the
    unmatched rest of [s] and group 1. *)
Definition re_match (r : regex) (s : str) : option (str * caps) :=
  exec r s None (λ s' g, Some (s', g)).

(** [re.search(r, s)]: the match at the leftmost position that has
    one. *)
Fixpoint search_from (r : regex) (pos : nat) (s : str) : option Match :=
  match re_match r s with
  | Some (rest, g) =>
      Some {| m_start := pos;
              m_end := pos + (length s - length rest);
              m_group1 := g |}
  | None =>
      match s with
      | [] => None
      | _ :: s' => search_from r (S pos) s'
      end
  end.

Definition re_search (r : regex) (s : str) : option Match :=
  search_from r 0 s.

(** [r.finditer(s)]: the matches from left to right, each search
    starting where the previous match ended ([skip] counts the
    characters of the previous match still to pass). *)
Fixpoint finditer_from (r : regex) (pos skip : nat) (s : str)
    : list Match :=
  match skip with
  | S skip' =>
      match s with
      | [] => []
      | _ :: s' => finditer_from r (S pos) skip' s'
      end
  | O =>
      match re_match r s with
      | Some (rest, g) =>
          let len := length s - length rest in
          {| m_start := pos; m_end := pos + len; m_group1 := g |} ::
          match s with
          | [] => []
          | _ :: s' => finditer_from r (S pos) (len - 1) s'
          end
      | None =>
          match s with
          | [] => []
          | _ :: s' => finditer_from r (S pos) 0 s'
          end
      end
  end.

Definition finditer (r : regex) (s : str) : list Match :=
  finditer_from r 0 0 s.
End Matcher.

(** ** Token extractor *)

Definition w_ : regex := Cls CWord.
Definition s_ : regex := Cls CSpace.
Definition d_ : regex := Cls CDigit.

(** [SIMPLE_PLACEHOLDER_RE = re.compile(r"\{(\w+)\}")] *)
Definition SIMPLE_PLACEHOLDER_RE : regex :=
  seq [Lit (chr "{"); Group (Plus w_); Lit (chr "}")].

Definition icu_keyword : regex :=
  alt [lits (py "plural"); lits (py "select"); lits (py "selectordinal")].

(** [ICU_VAR_RE = re.compile(
      r"\{(\w+)\s*,\s*(?:plural|select|selectordinal)\s*,", re.IGNORECASE)] *)
Definition ICU_VAR_RE : regex :=
  ignorecase (seq [Lit (chr "{"); Group (Plus w_); Star s_; Lit (chr ",");
                   Star s_; icu_keyword; Star s_; Lit (chr ",")]).

(** The pattern of the [re.match] in [extract_placeholder_names]:
    [r"\{\w+\s*,\s*(?:plural|select|selectordinal)"], [re.IGNORECASE]. *)
Definition ICU_HEAD_RE : regex :=
  ignorecase (seq [Lit (chr "{"); Plus w_; Star s_; Lit (chr ",");
                   Star s_; icu_keyword]).

(** The pattern of the [re.search] in [extract_placeholder_names]:
    [r"(?:=\d+|zero|one|two|few|many|other)\s*$"], [re.IGNORECASE]. *)
Definition CASE_LABEL_RE : regex :=
  ignorecase (seq [alt [Seq (Lit (chr "=")) (Plus d_); lits (py "zero");
                        lits (py "one"); lits (py "two"); lits (py "few");
                        lits (py "many"); lits (py "other")];
                   Star s_; Eol]).

(** [sorted(names)] for a set of strings. *)
Definition sorted (names : gset str) : list str :=
  merge_sort str_le (elements names).

Section Tokens.
Context `{Unicode}.

(** [names.add(m.group(1))]; group 1 takes part in every match of the
    two patterns that are iterated. *)
Definition names_add (g : caps) (names : gset str) : gset str :=
  match g with
  | Some name => {[name]} ∪ names
  | None => names
  end.

(** The body of the second loop of [extract_placeholder_names]. *)
Definition simple_step (s : str) (names : gset str) (m : Match)
    : gset str :=
  let pos := m_start m in
  let rest := drop pos s in
  if re_match ICU_HEAD_RE rest is Some _ then names
  else
    let before := take pos s in
    if re_search CASE_LABEL_RE before is Some _ then names
    else names_add (m_group1 m) names.

Definition extract_names_set (s : str) : gset str :=
  let names : gset str := ∅ in
  let names :=
    foldl (λ names m, names_add (m_group1 m) names)
          names (finditer ICU_VAR_RE s) in
  foldl (simple_step s) names (finditer SIMPLE_PLACEHOLDER_RE s).

Definition extract_placeholder_names (s : str) : list str :=
  sorted (extract_names_set s).

Definition has_icu_block (s : str) : bool :=
  bool_decide (is_Some (re_search ICU_VAR_RE s)).

(** ** Validator *)

(** [r"\{" + re.escape(name) + r"(?:\}|\s*,)"] *)
Definition token_pattern (name : str) : regex :=
  seq [Lit (chr "{"); re_escape name;
       Alt (Lit (chr "}")) (Seq (Star s_) (Lit (chr ",")))].

Definition missing_msg (name : str) : str :=
  py "Missing placeholder: {" ++ name ++ py "}".

(** The [for name in src_names] loop: the reason of the first name
    that has no match in [out]. *)
Fixpoint first_missing (names : list str) (out : str) : option str :=
  match names with
  | [] => None
  | name :: names' =>
      if re_search (token_pattern name) out is Some _
      then first_missing names' out
      else Some (missing_msg name)
  end.

Definition validate_preserved_tokens (src out : str) : bool * option str :=
  let src_names := extract_placeholder_names src in
  match first_missing src_names out with
  | Some why => (false, Some why)
  | None =>
      if has_icu_block src && negb (has_icu_block out)
      then (false, Some (py "ICU plural/select block missing"))
      else (true, None)
  end.
End Tokens.



(** ** What a pattern can match *)

Section Semantics.
Context `{Unicode}.

(** What [r] can match at the head of [s]: [matches r s g s' g'] when
    some way of matching [r] consumes [s] down to [s'] and turns the
    capture state [g] into [g'].  The matcher explores these in
    priority order. *)
Inductive matches : regex → str → caps → str → caps → Prop :=
| m_eps s g : matches Eps s g s g
| m_lit c s g : matches (Lit c) (c :: s) g s g
| m_liti c x s g : u_caseless c x = true → matches (LitI c) (x :: s) g s g
| m_cls k x s g : in_class k x = true → matches (Cls k) (x :: s) g s g
| m_seq a b s g s1 g1 s2 g2 :
    matches a s g s1 g1 → matches b s1 g1 s2 g2 →
    matches (Seq a b) s g s2 g2
| m_alt_l a b s g s' g' : matches a s g s' g' → matches (Alt a b) s g s' g'
| m_alt_r a b s g s' g' : matches b s g s' g' → matches (Alt a b) s g s' g'
| m_star_0 a s g : matches (Star a) s g s g
| m_star_S a s g s1 g1 s2 g2 :
    matches a s g s1 g1 → length s1 < length s →
    matches (Star a) s1 g1 s2 g2 →
    matches (Star a) s g s2 g2
| m_group a s g s' g' :
    matches a s g s' g' →
    matches (Group a) s g s' (Some (take (length s - length s') s))
| m_eol_end g : matches Eol [] g [] g
| m_eol_nl g : matches Eol [NL] g [NL] g.

(** [r] has a match in [s] that starts at position [i] and captures
    [g]. *)
Definition match_at (r : regex) (s : str) (i : nat) (g : caps) : Prop :=
  i ≤ length s ∧ ∃ rest, matches r (drop i s) None rest g.

(** All characters of [w] are white space. *)
Definition blank (w : str) : Prop := Forall (λ c, u_isspace c = true) w.

(** [name] occurs in [c] as a protected token: as [{name}], or as
    [{name], optional white space and a comma. *)
Definition token_occurs (name c : str) : Prop :=
  ∃ pre post,
    c = pre ++ [chr "{"] ++ name ++ [chr "}"] ++ post
    ∨ ∃ ws, blank ws ∧ c = pre ++ [chr "{"] ++ name ++ ws ++ [chr ","] ++ post.

(** [lab] is the word [kw] up to the case of its letters. *)
Definition caseless_word (kw lab : str) : Prop :=
  Forall2 (λ p c, u_caseless p c = true) kw lab.

(** An ICU case label: [=] and digits, or a plural category. *)
Definition case_label (lab : str) : Prop :=
  (∃ ds, ds ≠ [] ∧ Forall (λ c, u_isdigit c = true) ds
         ∧ lab = chr "=" :: ds)
  ∨ ∃ kw, kw ∈ [py "zero"; py "one"; py "two"; py "few"; py "many";
                py "other"]
          ∧ caseless_word kw lab.

(** [before] ends with a case label and optional white space (a final
    newline may follow, as [$] allows). *)
Definition ends_with_label (before : str) : Prop :=
  ∃ pre lab ws tail,
    before = pre ++ lab ++ ws ++ tail ∧ case_label lab ∧ blank ws
    ∧ (tail = [] ∨ tail = [NL]).
End Semantics.

(** The part of [ICU_VAR_RE] after the variable name and its comma. *)
Definition ICU_TAIL : regex :=
  ignorecase (seq [Star s_; icu_keyword; Star s_; Lit (chr ",")]).

(** The alternatives of [CASE_LABEL_RE]. *)
Definition CASE_LABELS : regex :=
  ignorecase (alt [Seq (Lit (chr "=")) (Plus d_); lits (py "zero");
                   lits (py "one"); lits (py "two"); lits (py "few");
                   lits (py "many"); lits (py "other")]).

(** [c.startswith(w)] and [w in c] *)
Fixpoint startswith (c w : str) : bool :=
  match w, c with
  | [], _ => true
  | x :: w', y :: c' => (x =? y)%N && startswith c' w'
  | _ :: _, [] => false
  end.

Fixpoint str_contains (c w : str) : bool :=
  startswith c w
  || match c with
     | [] => false
     | _ :: c' => str_contains c' w
     end.

(** Patterns without a capturing group, and patterns without [$]. *)
Fixpoint groupless (r : regex) : bool :=
  match r with
  | Group _ => false
  | Seq a b | Alt a b => groupless a && groupless b
  | Star a => groupless a
  | Eps | Lit _ | LitI _ | Cls _ | Eol => true
  end.

Fixpoint eol_free (r : regex) : bool :=
  match r with
  | Eol => false
  | Seq a b | Alt a b => eol_free a && eol_free b
  | Star a | Group a => eol_free a
  | Eps | Lit _ | LitI _ | Cls _ => true
  end.

(** ** Localization documents *)

(** A JSON value, as [json.load] returns it. *)
#[local] Unset Elimination Schemes.
Inductive json :=
| JNull
| JBool (b : bool)
| JInt (z : Z)
| JFloat (q : Q)
| JStr (s : str)
| JList (l : list json)
| JDict (d : list (str * json)).
#[local] Set Elimination Schemes.

(** A Python [dict] with string keys: the entries in insertion order,
    every key once. *)
Definition dict := list (str * json).

Definition str_eqb (a b : str) : bool := bool_decide (a = b).

(** The value stored under [k], if any. *)
Fixpoint dict_lookup (d : dict) (k : str) : option json :=
  match d with
  | [] => None
  | (k', v) :: d' => if str_eqb k' k then Some v else dict_lookup d' k
  end.

(** [k in d] *)
Definition dict_has (d : dict) (k : str) : bool :=
  bool_decide (is_Some (dict_lookup d k)).

(** [d.get(k)]: Python's [None] is JSON's [null]. *)
Definition dict_get (d : dict) (k : str) : json :=
  default JNull (dict_lookup d k).

(** [d[k] = v]: a present key keeps its place, a new one goes last. *)
Fixpoint dict_set (d : dict) (k : str) (v : json) : dict :=
  match d with
  | [] => [(k, v)]
  | (k', v') :: d' =>
      if str_eqb k' k then (k, v) :: d' else (k', v') :: dict_set d' k v
  end.

Definition dict_keys (d : dict) : list str := d.*1.

(** [key.startswith("@")] *)
Definition startswith_at (key : str) : bool :=
  match key with
  | c :: _ => (c =? chr "@")%N
  | [] => false
  end.

(** [SKIP_KEYS = {"appTitle"}] *)
Definition SKIP_KEYS : list str := [py "appTitle"].

(** [MANUAL_TRANSLATIONS] *)
Definition MANUAL_TRANSLATIONS : list (str * list (str * str)) :=
  [(py "repeater_daysHoursMinsSecs",
    [(py "es", py "{days} días {hours}h {minutes}m {seconds}s");
     (py "fr", py "{days} jours {hours}h {minutes}m {seconds}s");
     (py "de", py "{days} Tage {hours}h {minutes}m {seconds}s");
     (py "it", py "{days} giorni {hours}h {minutes}m {seconds}s");
     (py "pt", py "{days} dias {hours}h {minutes}m {seconds}s");
     (py "pl", py "{days} dni {hours}h {minutes}m {seconds}s");
     (py "sk", py "{days} dní {hours}h {minutes}m {seconds}s");
     (py "sl", py "{days} dni {hours}h {minutes}m {seconds}s");
     (py "cs", py "{days} dní {hours}h {minutes}m {seconds}s");
     (py "ja", py "{days}日 {hours}時間 {minutes}分 {seconds}秒");
     (py "ko", py "{days}일 {hours}시간 {minutes}분 {seconds}초");
     (py "zh", py "{days}天 {hours}小时 {minutes}分 {seconds}秒");
     (py "ru", py "{days} дней {hours}ч {minutes}м {seconds}с");
     (py "bg", py "{days} дни {hours}ч {minutes}м {seconds}с");
     (py "nl", py "{days} dagen {hours}u {minutes}m {seconds}s");
     (py "sv", py "{days} dagar {hours}t {minutes}m {seconds}s")])].

Fixpoint assoc {V} (l : list (str * V)) (k : str) : option V :=
  match l with
  | [] => None
  | (k', v) :: l' => if str_eqb k' k then Some v else assoc l' k
  end.

(** [MANUAL_TRANSLATIONS[k][target_locale]] when [k in MANUAL_TRANSLATIONS
    and target_locale in MANUAL_TRANSLATIONS[k]]. *)
Definition manual_translation (k target_locale : str) : option str :=
  match assoc MANUAL_TRANSLATIONS k with
  | Some by_locale => assoc by_locale target_locale
  | None => None
  end.

Section Documents.
Context `{Unicode}.

(** [s.strip()] *)
Fixpoint lstrip (s : str) : str :=
  match s with
  | c :: s' => if u_isspace c then lstrip s' else s
  | [] => []
  end.

Definition rstrip (s : str) : str := reverse (lstrip (reverse s)).

Definition strip (s : str) : str := rstrip (lstrip s).

(** [isinstance(v, str) and v.strip() == ""] *)
Definition is_blank_str (v : json) : bool :=
  match v with
  | JStr t => str_eqb (strip t) []
  | _ => false
  end.

Definition is_translatable_entry (key : str) (value : json) : bool :=
  if str_eqb key (py "@@locale") || startswith_at key
     || bool_decide (key ∈ SKIP_KEYS)
  then false
  else
    match value with
    | JStr t => negb (str_eqb (strip t) [])
    | _ => false
    end.

(** What the loop of [find_missing_keys] tests for one key. *)
Definition is_missing (target_data : dict) (key : str) : bool :=
  negb (str_eqb key (py "@@locale") || startswith_at key)
  && (negb (dict_has target_data key)
      || is_blank_str (dict_get target_data key)).

(** ** Diff engine *)

Definition find_missing_keys (source_data target_data : dict) : list str :=
  foldl (λ missing key,
           if str_eqb key (py "@@locale") || startswith_at key
           then missing
           else if negb (dict_has target_data key)
                   || is_blank_str (dict_get target_data key)
           then missing ++ [key]
           else missing)
        [] (dict_keys source_data).
End Documents.

(** ** Effects: state and exceptions *)

(** A raised exception (every one raised here is an [Exception]):
    its class and [str(e)]. *)
Record exn := Raise { exn_class : str; exn_str : str }.

(** A computation over a state [S] that returns or raises; the state
    survives a raise, as it does in Python. *)
Definition M (S A : Type) : Type := S → (exn + A) * S.

#[global] Instance M_ret {S} : MRet (M S) := λ A a w, (inr a, w).

#[global] Instance M_bind {S} : MBind (M S) := λ A B f m w,
  match m w with
  | (inr a, w') => f a w'
  | (inl e, w') => (inl e, w')
  end.

Definition raise {S A} (e : exn) : M S A := λ w, (inl e, w).

(** A value, or the exception its evaluation raises. *)
Definition of_result {S A} (r : exn + A) : M S A := λ w, (r, w).

(** [try: body  except Exception as e: handler(e)] *)
Definition try_except {S A} (body : M S A) (handler : exn → M S A) : M S A :=
  λ w,
    match body w with
    | (inr a, w') => (inr a, w')
    | (inl e, w') => handler e w'
    end.

(** ** Floats and the clock *)

(** A Python [float] is an IEEE 754 binary64 number. *)
Definition float := spec_float.

(** [x * y] on floats: the exact product rounded to the nearest float,
    ties to even. *)
Definition float_mul : float → float → float := SFmul 53 1024.

(** The [int] operand of a float operation, converted: the nearest
    float, or [OverflowError] when the integer is beyond the largest
    one. *)
Definition float_of_int (n : Z) : exn + float :=
  match binary_normalize 53 1024 n 0 false with
  | S754_infinity _ =>
      inl (Raise (py "OverflowError") (py "int too large to convert to float"))
  | x => inr x
  end.

(** The float a decimal numeral denotes, on the command line or as a
    default: the one nearest to the rational, ties to even.  (The
    quotient is computed to 56 bits or more, with the position of the
    rest against one half of the last place.) *)
Definition float_of_Q (q : Q) : float :=
  match Qnum q with
  | Z0 => S754_zero false
  | Zpos n | Zneg n =>
      let sx := if Qnum q is Zneg _ then true else false in
      let d := Qden q in
      let k :=
        Z.max 1 (Z.pos (digits2_pos d) + 56 - Z.pos (digits2_pos n)) in
      let '(m, r) := Z.div_eucl (Z.shiftl (Z.pos n) k) (Z.pos d) in
      let lx := match r with
                | Z0 => loc_Exact
                | _ => loc_Inexact (Z.compare (2 * r) (Z.pos d))
                end in
      binary_round_aux 53 1024 sx m (- k) lx
  end.

Coercion float_of_Q : Q >-> float.

(** [backoff_s * (attempt + 1)] *)
Definition sleep_length (backoff_s : float) (attempt : Z) : exn + float :=
  match float_of_int (attempt + 1) with
  | inl e => inl e
  | inr n => inr (float_mul backoff_s n)
  end.

(** The clock of the run time: the exception with which [time.sleep]
    refuses a length, if it does.  CPython refuses a NaN, a length that
    does not fit its count of nanoseconds and a negative length before
    it sleeps; the operating system can refuse more.  The answer is
    taken to depend on the length alone: a length refused once is
    refused again. *)
Class Clock := { sleep_error : float → option exn }.

(** A clock that makes the checks CPython makes before it sleeps, in
    their order and with their exceptions: it refuses a NaN, then a
    length whose count of nanoseconds, the float product [secs * 1e9],
    is below [-2^63] or not below [2^63], then a negative length.  It
    accepts every other length. *)
Definition cpython_sleep_error (secs : float) : option exn :=
  let two63 : float := S754_finite false (2 ^ 52) 11 in
  let nanoseconds := float_mul secs (float_of_Q 1000000000) in
  match secs with
  | S754_nan =>
      Some (Raise (py "ValueError") (py "Invalid value NaN (not a number)"))
  | _ =>
      if SFleb (SFopp two63) nanoseconds && SFltb nanoseconds two63
      then
        if SFltb secs (S754_zero false)
        then Some (Raise (py "ValueError")
                         (py "sleep length must be non-negative"))
        else None
      else Some (Raise (py "OverflowError")
                       (py "timestamp too large to convert to C _PyTime_t"))
  end.

Definition cpython_clock : Clock := {| sleep_error := cpython_sleep_error |}.

(** What [time.sleep(backoff_s * (attempt + 1))] does: it sleeps for the
    length it returns here, or the product or the clock raises. *)
Definition sleep_outcome `{Clock} (backoff_s : float) (attempt : Z)
    : exn + float :=
  match sleep_length backoff_s attempt with
  | inl e => inl e
  | inr secs =>
      match sleep_error secs with
      | Some e => inl e
      | None => inr secs
      end
  end.

(** Every sleep the job can make is one the clock accepts: the sleeps
    after the attempts [0] to [retries - 1]. *)
Definition valid_backoff `{Clock} (backoff_s : float) (retries : Z) : Prop :=
  ∀ attempt, (0 ≤ attempt < retries)%Z →
             ∃ secs, sleep_outcome backoff_s attempt = inr secs.

(** The same, computed. *)
Definition valid_backoff_b `{Clock} (backoff_s : float) (retries : Z) : bool :=
  forallb (λ attempt, if sleep_outcome backoff_s attempt is inr _
                      then true else false)
          (seqZ 0 retries).

(** ** Backend client *)

Record OllamaConfig := {
  host : str;
  model : str;
  timeout_s : Q;
  temperature : Q;
}.

(** One request of [http_post_json]: the URL, the payload
    ([stream] is always [False]) and the timeout. *)
Record request := {
  rq_url : str;
  rq_model : str;
  rq_prompt : str;
  rq_temperature : Q;
  rq_timeout : Q;
}.

Inductive event :=
| EPost (rq : request)        (* a request sent by http_post_json *)
| ESleep (secs : float).      (* a completed time.sleep(secs) *)

(** What one job sees of the world: the requests and sleeps so far. *)
Definition World := list event.

(** The number of requests sent so far. *)
Fixpoint posts (w : World) : nat :=
  match w with
  | [] => 0
  | EPost _ :: w' => S (posts w')
  | ESleep _ :: w' => posts w'
  end.

(** The class name of a JSON value, as an [AttributeError] spells it. *)
Definition type_name (v : json) : str :=
  match v with
  | JNull => py "NoneType"
  | JBool _ => py "bool"
  | JInt _ => py "int"
  | JFloat _ => py "float"
  | JStr _ => py "str"
  | JList _ => py "list"
  | JDict _ => py "dict"
  end.

Definition AttributeError (v : json) (attr : str) : exn :=
  Raise (py "AttributeError")
        (py "'" ++ type_name v ++ py "' object has no attribute '"
            ++ attr ++ py "'").

(** [s.rstrip("/")] *)
Fixpoint lstrip_char (c : N) (s : str) : str :=
  match s with
  | x :: s' => if (x =? c)%N then lstrip_char c s' else s
  | [] => []
  end.

Definition rstrip_char (c : N) (s : str) : str :=
  reverse (lstrip_char c (reverse s)).

(** [", ".join(l)] *)
Fixpoint join (sep : str) (l : list str) : str :=
  match l with
  | [] => []
  | [x] => x
  | x :: l' => x ++ sep ++ join sep l'
  end.

Section JobRunner.
Context `{Unicode} `{Clock}.

(** The backend, as the job meets it: the reply to the [n]-th request
    (counted from 0) is anything [json.loads] can return, or an
    exception ([URLError], a timeout, a [JSONDecodeError], ...). *)
Variable backend : nat → request → exn + json.

Definition http_post_json (rq : request) : M World json :=
  λ w, (backend (posts w) rq, w ++ [EPost rq]).

(** The request [ollama_generate] sends. *)
Definition request_of (cfg : OllamaConfig) (prompt : str) : request :=
  let url := rstrip_char (chr "/") (host cfg) ++ py "/api/generate" in
  {| rq_url := url; rq_model := model cfg; rq_prompt := prompt;
     rq_temperature := temperature cfg; rq_timeout := timeout_s cfg |}.

(** [resp.get("response", "").strip()] *)
Definition response_text (resp : json) : exn + str :=
  match resp with
  | JDict d =>
      match dict_lookup d (py "response") with
      | None => inr (strip [])
      | Some (JStr t) => inr (strip t)
      | Some v => inl (AttributeError v (py "strip"))
      end
  | v => inl (AttributeError v (py "get"))
  end.

Definition ollama_generate (cfg : OllamaConfig) (prompt : str)
    : M World str :=
  resp ← http_post_json (request_of cfg prompt);
  of_result (response_text resp).

(** [time.sleep(secs)]: the sleep is logged when the clock accepts the
    length. *)
Definition time_sleep (secs : float) : M World unit :=
  λ w,
    match sleep_error secs with
    | Some e => (inl e, w)
    | None => (inr (), w ++ [ESleep secs])
    end.

(** ** Prompt builder *)

Definition build_prompt (text target_lang target_code : str)
    (placeholder_names : list str) (has_icu : bool) : str :=
  let instructions : list str := [] in
  let instructions :=
    if placeholder_names is _ :: _ then
      let placeholders :=
        join (py ", ")
             (map (λ t, py "{" ++ t ++ py "}") placeholder_names) in
      instructions ++
        [py "CRITICAL: Keep these placeholders EXACTLY as they appear: "
            ++ placeholders]
    else instructions in
  let instructions :=
    if has_icu then
      instructions ++
        [py "CRITICAL: Preserve ICU message format structure (plural, select, =0, =1, other, etc.). Only translate the text inside the forms."]
    else instructions in
  let instruction_text :=
    if instructions is _ :: _ then join [NL] instructions else [] in
  let separator := if instruction_text is _ :: _ then [NL] else [] in
  py "You are a professional English (en) to " ++ target_lang ++ py " ("
    ++ target_code
    ++ py ") translator. Your goal is to accurately convey the meaning and nuances of the original English text while adhering to "
    ++ target_lang
    ++ py " grammar, vocabulary, and cultural sensitivities." ++ [NL]
    ++ py "Produce only the " ++ target_lang
    ++ py " translation, without any additional explanations or commentary."
    ++ separator ++ instruction_text ++ [NL]
    ++ py "Please translate the following English text into "
    ++ target_lang ++ py ":" ++ [NL; NL; NL]
    ++ text.

(** ** Job runner *)

(** [(key, translated_text, error_or_none, used_fallback)] *)
Definition outcome : Type := str * str * option str * bool.

(** How one pass through the body of the [for attempt] loop ends:
    [return ...], or on to the next attempt with the new [last_err]. *)
Inductive loop_exit :=
| Return (o : outcome)
| Next (last_err : option str).

(** [f"{why}"] for an optional string. *)
Definition fmt_opt (why : option str) : str := default (py "None") why.

Section TranslateOne.
Variables (key text target_lang target_code : str).
Variables (cfg : OllamaConfig) (retries : Z) (backoff_s : float).
Variable fallback_cfg : option OllamaConfig.

(** [time.sleep(backoff_s * (attempt + 1))] *)
Definition backoff (attempt : Z) : M World unit :=
  secs ← of_result (sleep_length backoff_s attempt);
  time_sleep secs.

(** The body of the [for attempt in range(retries + 1)] loop. *)
Definition attempt_body (prompt : str) (attempt : Z) : M World loop_exit :=
  try_except
    (out ← ollama_generate cfg prompt;
     let '(ok, why) := validate_preserved_tokens text out in
     if negb ok then
       let last_err := py "Validation failed: " ++ fmt_opt why in
       if (attempt <? retries)%Z then
         backoff attempt;; mret (Next (Some last_err))
       else raise (Raise (py "ValueError") last_err)
     else mret (Return (key, out, None, false)))
    (λ e,
       let last_err := exn_str e in
       if (attempt <? retries)%Z then
         backoff attempt;; mret (Next (Some last_err))
       else mret (Next (Some last_err))).

(** The loop, [n] attempts from number [attempt] on: the outcome it
    returns, or [last_err] when it runs out. *)
Fixpoint attempts (prompt : str) (n : nat) (attempt : Z)
    (last_err : option str) : M World (outcome + option str) :=
  match n with
  | O => mret (inr last_err)
  | S n' =>
      r ← attempt_body prompt attempt;
      match r with
      | Return o => mret (inl o)
      | Next last_err' => attempts prompt n' (attempt + 1)%Z last_err'
      end
  end.

(** The fallback attempt: [Some] outcome when it is accepted. *)
Definition try_fallback (placeholder_names : list str)
    (text_has_icu : bool) : M World (option outcome) :=
  match fallback_cfg with
  | Some fcfg =>
      try_except
        (let fallback_prompt :=
           build_prompt text target_lang target_code
                        placeholder_names text_has_icu in
         fallback_out ← ollama_generate fcfg fallback_prompt;
         let '(fallback_ok, _) :=
           validate_preserved_tokens text fallback_out in
         if fallback_ok then mret (Some (key, fallback_out, None, true))
         else mret None)
        (λ _, mret None)
  | None => mret None
  end.

Definition translate_one : M World outcome :=
  let placeholder_names := extract_placeholder_names text in
  let text_has_icu := has_icu_block text in
  let prompt :=
    build_prompt text target_lang target_code
                 placeholder_names text_has_icu in
  r ← attempts prompt (Z.to_nat (retries + 1)) 0%Z None;
  match r with
  | inl o => mret o
  | inr last_err =>
      fb ← try_fallback placeholder_names text_has_icu;
      match fb with
      | Some o => mret o
      | None => mret (key, text, last_err, false)
      end
  end.

(** The log of a failed attempt: the request, and the sleep when
    another attempt follows. *)
Definition failed_attempt_log (prompt : str) (attempt : Z) : World :=
  EPost (request_of cfg prompt)
    :: (if (attempt <? retries)%Z
        then if sleep_outcome backoff_s attempt is inr secs
             then [ESleep secs] else []
        else []).

(** An outcome that is a candidate that passed validation. *)
Definition accepted (used_fallback : bool) (o : outcome) : Prop :=
  ∃ out, o = (key, out, None, used_fallback)
         ∧ validate_preserved_tokens text out = (true, None).
End TranslateOne.

(** What the [n]-th call of [ollama_generate] yields. *)
Definition generated (cfg : OllamaConfig) (prompt : str) (n : nat)
    : exn + str :=
  match backend n (request_of cfg prompt) with
  | inl e => inl e
  | inr resp => response_text resp
  end.

(** Why an attempt fails, when it does: the message of the exception
    raised, or the validation failure of the text generated. *)
Definition attempt_error (text : str) (r : exn + str) : option str :=
  match r with
  | inl e => Some (exn_str e)
  | inr out =>
      match validate_preserved_tokens text out with
      | (true, _) => None
      | (false, why) => Some (py "Validation failed: " ++ fmt_opt why)
      end
  end.
End JobRunner.

(** ** Merge engine *)

(** The command-line arguments [translate_locale] reads. *)
Record Args := {
  args_host : str;
  args_model : str;
  args_fallback_model : option str;
  args_timeout : Q;
  args_temperature : Q;
  args_concurrency : Z;
  args_retries : Z;
  args_backoff : float;
  args_dry_run : bool;
  args_progress_every : Z;
}.

(** Dictionaries are objects: [source_data], [target_data] and
    [out_data] are references into the heap, and two of them may be the
    same object.  (The nested metadata objects are never written and are
    kept as values.) *)
Definition ref := nat.

(** The file system, as far as the program changes it: the documents
    written in full, and the paths given to [open(path, "w")].  Opening a
    file for writing empties it: a path that was opened and whose
    document was not written names a file left empty or holding a part
    of the text (or untouched, when [open] itself failed). *)
Record Env := {
  heap : list dict;
  files : list (str * dict);      (* the documents written, oldest first *)
  opened : list str;              (* the paths opened for writing *)
}.

Definition load (r : ref) : M Env dict :=
  λ e, (inr (default [] (heap e !! r)), e).

(** [dict(d)]: a new object. *)
Definition new_dict (d : dict) : M Env ref :=
  λ e, (inr (length (heap e)),
        {| heap := heap e ++ [d]; files := files e; opened := opened e |}).

(** [r[k] = v] *)
Definition setitem (r : ref) (k : str) (v : json) : M Env unit :=
  λ e, (inr (),
        {| heap := alter (λ d, dict_set d k v) r (heap e);
           files := files e; opened := opened e |}).

(** [for x in l: body(x)] *)
Fixpoint for_each {S A} (l : list A) (body : A → M S unit) : M S unit :=
  match l with
  | [] => mret ()
  | x :: l' => body x;; for_each l' body
  end.

(** A loop that carries local variables [acc]. *)
Fixpoint for_fold {S A B} (l : list A) (acc : B) (body : B → A → M S B)
    : M S B :=
  match l with
  | [] => mret acc
  | x :: l' => acc' ← body acc x; for_fold l' acc' body
  end.

(** The counters of the completion loop. *)
Record counters := {
  translated_ok : Z;
  fallback_used : Z;
  completed : Z;
  failures : list (str * str);
}.

(** [if err:] for an optional string. *)
Definition truthy (err : option str) : bool :=
  match err with
  | Some (_ :: _) => true
  | _ => false
  end.

Section MergeEngine.
Context `{Unicode} `{Clock}.

(** The backend as the job of each key meets it, the order in which
    the executor completes the submitted jobs, and whether the block
    that writes the output file runs to its end. *)
Variable backend : str → nat → request → exn + json.
Variable as_completed : list (str * str) → list (str * str).
Variable writable : str → bool.

(** [with open(path, "w") as f: json.dump(d, f, ...); f.write("\n")]:
    the path is opened for writing; the document is written when the
    block runs to its end, and otherwise an exception is raised with
    the file as it then is. *)
Definition write_json (path : str) (d : dict) : M Env unit :=
  λ e,
    if writable path
    then (inr (), {| heap := heap e; files := files e ++ [(path, d)];
                     opened := opened e ++ [path] |})
    else (inl (Raise (py "OSError") path),
          {| heap := heap e; files := files e;
             opened := opened e ++ [path] |}).

(** [fut.result()]: what the job returned, or the exception it raised. *)
Definition fut_result (cfg : OllamaConfig) (fallback_cfg : option OllamaConfig)
    (target_lang target_code : str) (args : Args) (job : str * str)
    : M Env outcome :=
  λ e,
    (fst (translate_one (backend job.1) job.1 job.2 target_lang target_code
                        cfg (args_retries args) (args_backoff args)
                        fallback_cfg []),
     e).

Definition translate_locale (source_data target_data : ref)
    (target_locale target_lang target_code out_path : str)
    (args : Args) (missing_keys : option (list str)) : M Env Z :=
  let cfg := {| host := args_host args; model := args_model args;
                timeout_s := args_timeout args;
                temperature := args_temperature args |} in
  let fallback_cfg :=
    match args_fallback_model args with
    | Some (c :: m) =>
        Some {| host := args_host args; model := c :: m;
                timeout_s := args_timeout args;
                temperature := args_temperature args |}
    | _ => None
    end in
  (* Start with target data or source data *)
  tgt ← load target_data;
  out_data ← (if tgt is _ :: _ then new_dict tgt
              else src ← load source_data; new_dict src);
  setitem out_data (py "@@locale") (JStr target_locale);;
  (* Build list of items to translate *)
  items ← match missing_keys with
          | Some missing_keys =>
              src ← load source_data;
              let items :=
                omap (λ k,
                        if is_translatable_entry k (dict_get src k)
                        then if dict_get src k is JStr v
                             then Some (k, v) else None
                        else None)
                     missing_keys in
              (* Copy metadata for missing items *)
              for_each missing_keys (λ key,
                let meta_key := py "@" ++ key in
                src ← load source_data;
                if dict_has src meta_key
                then setitem out_data meta_key (dict_get src meta_key)
                else mret ());;
              mret items
          | None =>
              src ← load source_data;
              mret (omap (λ kv,
                            if is_translatable_entry kv.1 kv.2
                            then if kv.2 is JStr v
                                 then Some (kv.1, v) else None
                            else None)
                         src)
          end;
  (* Apply manual translations *)
  split ←
    for_fold items (0%Z, []) (λ acc kv,
      let '(manual_count, items_to_translate) := acc in
      match manual_translation kv.1 target_locale with
      | Some t =>
          setitem out_data kv.1 (JStr t);;
          mret ((manual_count + 1)%Z, items_to_translate)
      | None => mret (manual_count, items_to_translate ++ [kv])
      end);
  let '(manual_count, items_to_translate) :=
    (split : Z * list (str * str)) in
  let total := Z.of_nat (length items_to_translate) in
  if (total =? 0)%Z then mret manual_count
  else
    c ← for_fold (as_completed items_to_translate)
          {| translated_ok := manual_count; fallback_used := 0;
             completed := 0; failures := [] |}
          (λ c job,
             o ← fut_result cfg fallback_cfg target_lang target_code args job;
             let '(k, translated, err, used_fallback) := (o : outcome) in
             setitem out_data k (JStr translated);;
             let completed := (completed c + 1)%Z in
             let c :=
               if truthy err
               then {| translated_ok := translated_ok c;
                       fallback_used := fallback_used c;
                       completed := completed;
                       failures := failures c ++ [(k, fmt_opt err)] |}
               else {| translated_ok := (translated_ok c + 1)%Z;
                       fallback_used :=
                         if used_fallback then (fallback_used c + 1)%Z
                         else fallback_used c;
                       completed := completed;
                       failures := failures c |} in
             (* completed % args.progress_every *)
             if (args_progress_every args =? 0)%Z
             then raise (Raise (py "ZeroDivisionError")
                               (py "integer modulo by zero"))
             else mret c);
    if args_dry_run args then mret (translated_ok c)
    else
      try_except
        (out ← load out_data;
         write_json out_path out;;
         mret (translated_ok c))
        (λ _, mret (-1)%Z).
End MergeEngine.

(** The heap is the initial heap [h0] and one new object, the output
    document. *)
Definition extended (h0 : list dict) (e : Env) : Prop :=
  ∃ out, heap e = h0 ++ [out].

(** [m] keeps the heap in this shape, whether it returns or raises. *)
Definition framed {A} (h0 : list dict) (m : M Env A) : Prop :=
  ∀ e, extended h0 e → extended h0 (m e).2.

(** ** Concrete inputs *)

(** The probe string of the token extractor. *)
Definition probe : str :=
  py "{count, plural, =1{one file} other{{count} files}}".

(** An ICU select message. *)
Definition select_message : str :=
  py "{gender, select, male{he} female{she} other{they}}".

Definition example_cfg : OllamaConfig :=
  {| host := py "http://localhost:11434";
     model := py "translategemma:latest";
     timeout_s := 120; temperature := 0 |}.

Definition example_fallback_cfg : OllamaConfig :=
  {| host := py "http://localhost:11434";
     model := py "translategemma:27b";
     timeout_s := 120; temperature := 0 |}.

(** A reply of the backend with the text [t], and a transport error. *)
Definition reply (t : str) : exn + json :=
  inr (JDict [(py "response", JStr t)]).

Definition timed_out : exn + json :=
  inl (Raise (py "URLError") (py "<urlopen error timed out>")).

(** A backend that answers every request with an empty text. *)
Definition empty_backend : nat → request → exn + json :=
  λ _ _, reply [].

(** A backend whose primary model drops the placeholder and whose
    fallback model times out. *)
Definition dropping_backend : nat → request → exn + json :=
  λ _ rq,
    if str_eqb (rq_model rq) (model example_cfg)
    then reply (py "Bonjour !") else timed_out.

(** A backend whose primary model drops the placeholder and whose
    fallback model keeps it. *)
Definition rescued_backend : nat → request → exn + json :=
  λ _ rq,
    if str_eqb (rq_model rq) (model example_cfg)
    then reply (py "Bonjour !") else reply (py "Bonjour {name} !").

(** A source document with an empty text, and one without. *)
Definition doc_with_blank : dict :=
  [(py "@@locale", JStr (py "en"));
   (py "title", JStr (py "Hello"));
   (py "note", JStr [])].

Definition doc_plain : dict :=
  [(py "@@locale", JStr (py "en"));
   (py "greeting", JStr (py "Hello {name}!"));
   (py "@greeting", JDict [(py "description", JStr (py "Greets the user"))])].

Definition example_args : Args :=
  {| args_host := py "http://localhost:11434";
     args_model := py "translategemma:latest";
     args_fallback_model := None;
     args_timeout := 120; args_temperature := 0;
     args_concurrency := 4; args_retries := 2; args_backoff := 6 # 10;
     args_dry_run := false; args_progress_every := 1 |}.

(** ** The log of a job *)

(** The log of [k] failed attempts, each followed by its sleep, from
    attempt number [a] on. *)
Fixpoint retry_log `{Clock} (cfg : OllamaConfig) (backoff_s : float)
    (prompt : str) (k : nat) (a : Z) : World :=
  match k with
  | O => []
  | S k' =>
      EPost (request_of cfg prompt)
        :: (if sleep_outcome backoff_s a is inr secs then [ESleep secs]
            else [])
        ++ retry_log cfg backoff_s prompt k' (a + 1)
  end.

(** What follows the failed attempts in the log of a job: nothing, the
    request of one more primary attempt, the request of the fallback
    attempt, or both. *)
Definition log_end (cfg : OllamaConfig) (fallback_cfg : option OllamaConfig)
    (prompt : str) (l : World) : Prop :=
  l = []
  ∨ l = [EPost (request_of cfg prompt)]
  ∨ ∃ fcfg, fallback_cfg = Some fcfg
            ∧ (l = [EPost (request_of fcfg prompt)]
               ∨ l = [EPost (request_of cfg prompt);
                      EPost (request_of fcfg prompt)]).

(** A backend that times out on the first request and then keeps the
    placeholder. *)
Definition flaky_backend : nat → request → exn + json :=
  λ n _, if n is O then timed_out else reply (py "Bonjour {name} !").

(** ** What the patterns of the extractor match *)

Section Shapes.
Context `{Unicode}.

(** One or more word characters: what [\w+] matches. *)
Definition word (w : str) : Prop :=
  w ≠ [] ∧ Forall (λ c, u_isword c = true) w.

(** [t] starts with the head of an ICU block with the variable [n]:
    [{n], a comma, one of the keywords [plural], [select],
    [selectordinal] in any case, and a comma, with optional white space
    before and after the first comma and before the second. *)
Definition icu_head (n t : str) : Prop :=
  ∃ ws1 ws2 kw lab ws3 rest,
    word n ∧ blank ws1 ∧ blank ws2 ∧ blank ws3
    ∧ kw ∈ [py "plural"; py "select"; py "selectordinal"]
    ∧ caseless_word kw lab
    ∧ t = [chr "{"] ++ n ++ ws1 ++ [chr ","] ++ ws2 ++ lab ++ ws3
            ++ [chr ","] ++ rest.

(** What the tables of a run time have in common, as far as the
    extractor needs it: the braces and the comma are neither word
    characters nor white space, no word character is white space, and
    no letter matches an opening brace under [re.IGNORECASE]. *)
Record sane_tables : Prop := {
  brace_not_word : u_isword (chr "{") = false;
  close_not_word : u_isword (chr "}") = false;
  comma_not_word : u_isword (chr ",") = false;
  brace_not_space : u_isspace (chr "{") = false;
  close_not_space : u_isspace (chr "}") = false;
  word_not_space : ∀ c, u_isword c = true → u_isspace c = false;
  brace_not_letter :
    ∀ p, ascii_iscased p = true → u_caseless p (chr "{") = false;
}.

(** [n] is a name the source [s] asks to protect: the variable of an
    ICU block of [s], or a bare placeholder [{n}] of [s] that does not
    follow a case label. *)
Definition protected (n s : str) : Prop :=
  (∃ pre t, s = pre ++ t ∧ icu_head n t)
  ∨ (∃ pre post,
       s = pre ++ [chr "{"] ++ n ++ [chr "}"] ++ post
       ∧ word n ∧ ¬ ends_with_label pre).

(** Every match of [r] starts with the only opening brace it holds;
    two matches of such a pattern do not overlap. *)
Definition brace_led (r : regex) : Prop :=
  ∀ t rest g, matches r t None rest g →
              ∃ u, t = chr "{" :: u ++ rest ∧ chr "{" ∉ u.
End Shapes.

(** A backend that pads its text with white space. *)
Definition padded_backend : nat → request → exn + json :=
  λ _ _, reply (py "  Bonjour {name} !  ").

(** ** Locale files *)

(** [s.endswith(w)] *)
Definition endswith (s w : str) : bool := startswith (reverse s) (reverse w).

(** [os.path.basename(p)]: what follows the last slash of [p]. *)
Fixpoint basename_from (acc p : str) : str :=
  match p with
  | [] => acc
  | c :: p' =>
      if (c =? chr "/")%N then basename_from [] p'
      else basename_from (acc ++ [c]) p'
  end.

Definition basename (p : str) : str := basename_from [] p.

(** [os.path.join(a, b)] *)
Definition path_join (a b : str) : str :=
  if startswith b (py "/") then b
  else if str_eqb a [] || endswith a (py "/") then a ++ b
  else a ++ py "/" ++ b.

(** [filename[4:-4]] *)
Definition slice_4_4 (filename : str) : str :=
  take (length filename - 4 - 4) (drop 4 filename).

(** Python compares tuples lexicographically; [sorted] on a list of
    pairs of strings uses this order. *)
Definition pair_le : relation (str * str) :=
  λ x y, str_lt x.1 y.1 ∨ (x.1 = y.1 ∧ str_le x.2 y.2).

#[global] Instance pair_le_dec x y : Decision (pair_le x y).
Proof. unfold pair_le, str_lt. apply _. Defined.

(** What the loop of [get_all_locale_files] appends for one file
    name. *)
Definition locale_entry (l10n_dir template_basename filename : str)
    : option (str * str) :=
  if endswith filename (py ".arb")
     && negb (str_eqb filename template_basename)
  then
    if startswith filename (py "app_")
    then Some (slice_4_4 filename, path_join l10n_dir filename)
    else None
  else None.

(** [listdir] is [os.listdir]: the names in a directory, in the order
    the file system gives them, or the exception raised. *)
Definition get_all_locale_files (listdir : str → exn + list str)
    (l10n_dir template_file : str) : exn + list (str * str) :=
  let template_basename := basename template_file in
  match listdir l10n_dir with
  | inl e => inl e
  | inr filenames =>
      let locales :=
        foldl (λ locales filename,
                 if endswith filename (py ".arb")
                    && negb (str_eqb filename template_basename)
                 then
                   if startswith filename (py "app_")
                   then locales ++ [(slice_4_4 filename,
                                     path_join l10n_dir filename)]
                   else locales
                 else locales)
              [] filenames in
      inr (merge_sort pair_le locales)
  end.

(** A directory of locale files. *)
Definition example_listing : str → exn + list str :=
  λ _, inr [py "app_fr.arb"; py "app_en.arb"; py "intl_de.arb";
            py "app_de.arb"; py "app_es.json"].

(** ** The output document, phase by phase

    The document [translate_locale] builds is one object of the heap,
    changed in place by four loops.  The definitions below give the
    document after each of them as a function of the document before;
    the merge engine is proved to compute them. *)

Definition cfg_of (args : Args) : OllamaConfig :=
  {| host := args_host args; model := args_model args;
     timeout_s := args_timeout args; temperature := args_temperature args |}.

Definition fallback_cfg_of (args : Args) : option OllamaConfig :=
  match args_fallback_model args with
  | Some (c :: m) =>
      Some {| host := args_host args; model := c :: m;
              timeout_s := args_timeout args;
              temperature := args_temperature args |}
  | _ => None
  end.

Section Phases.
Context `{Unicode} `{Clock}.
Variable backend : str → nat → request → exn + json.

(** The items to translate before the manual translations are taken
    out. *)
Definition items_of (src : dict) (missing_keys : option (list str))
    : list (str * str) :=
  match missing_keys with
  | Some missing_keys =>
      omap (λ k,
              if is_translatable_entry k (dict_get src k)
              then if dict_get src k is JStr v then Some (k, v) else None
              else None)
           missing_keys
  | None =>
      omap (λ kv : str * json,
              if is_translatable_entry kv.1 kv.2
              then if kv.2 is JStr v then Some (kv.1, v) else None
              else None)
           src
  end.

(** The metadata of the missing keys, copied from the source. *)
Definition copy_metadata (src : dict) (missing_keys : list str) (d : dict)
    : dict :=
  foldl (λ d key,
           let meta_key := py "@" ++ key in
           if dict_has src meta_key
           then dict_set d meta_key (dict_get src meta_key)
           else d)
        d missing_keys.

(** The manual translations, stored. *)
Definition apply_manual (target_locale : str) (items : list (str * str))
    (d : dict) : dict :=
  foldl (λ d (kv : str * str),
           match manual_translation kv.1 target_locale with
           | Some t => dict_set d kv.1 (JStr t)
           | None => d
           end)
        d items.

Definition has_manual (target_locale : str) (kv : str * str) : bool :=
  bool_decide (is_Some (manual_translation kv.1 target_locale)).

(** What a job returns, or the exception it raises. *)
Definition job_result (target_lang target_code : str) (args : Args)
    (job : str * str) : exn + outcome :=
  (translate_one (backend job.1) job.1 job.2 target_lang target_code
                 (cfg_of args) (args_retries args) (args_backoff args)
                 (fallback_cfg_of args) []).1.

(** The counters after one more job. *)
Definition count_job (c : counters) (k : str) (err : option str)
    (used_fallback : bool) : counters :=
  if truthy err
  then {| translated_ok := translated_ok c;
          fallback_used := fallback_used c;
          completed := (completed c + 1)%Z;
          failures := failures c ++ [(k, fmt_opt err)] |}
  else {| translated_ok := (translated_ok c + 1)%Z;
          fallback_used :=
            if used_fallback then (fallback_used c + 1)%Z
            else fallback_used c;
          completed := (completed c + 1)%Z;
          failures := failures c |}.

(** The completion loop over the jobs in the order they complete: the
    counters at its end or the exception that ends it, and the
    document then. *)
Fixpoint run_jobs (target_lang target_code : str) (args : Args)
    (jobs : list (str * str)) (c : counters) (d : dict)
    : (exn + counters) * dict :=
  match jobs with
  | [] => (inr c, d)
  | job :: jobs' =>
      match job_result target_lang target_code args job with
      | inl e => (inl e, d)
      | inr (k, translated, err, used_fallback) =>
          let d := dict_set d k (JStr translated) in
          if (args_progress_every args =? 0)%Z
          then (inl (Raise (py "ZeroDivisionError")
                           (py "integer modulo by zero")), d)
          else run_jobs target_lang target_code args jobs'
                        (count_job c k err used_fallback) d
      end
  end.

(** The document before the completion loop. *)
Definition prepared (src tgt : dict) (target_locale : str)
    (missing_keys : option (list str)) : dict :=
  let base := if tgt is _ :: _ then tgt else src in
  let d := dict_set base (py "@@locale") (JStr target_locale) in
  let d := if missing_keys is Some ks then copy_metadata src ks d else d in
  apply_manual target_locale (items_of src missing_keys) d.

(** The jobs submitted to the executor. *)
Definition submitted (src : dict) (target_locale : str)
    (missing_keys : option (list str)) : list (str * str) :=
  filter (λ kv, has_manual target_locale kv = false)
         (items_of src missing_keys).

(** The number of manual translations applied. *)
Definition manual_count_of (src : dict) (target_locale : str)
    (missing_keys : option (list str)) : Z :=
  Z.of_nat (length (filter (λ kv, has_manual target_locale kv = true)
                           (items_of src missing_keys))).



(** The keys [translate_locale] reads the items from. *)
Definition item_keys (src : dict) (missing_keys : option (list str))
    : list str :=
  match missing_keys with
  | Some missing_keys => missing_keys
  | None => dict_keys src
  end.
End Phases.

(** A source with two texts, and a French target that has one of them. *)
Definition doc_two : dict :=
  [(py "@@locale", JStr (py "en"));
   (py "greeting", JStr (py "Hello {name}!"));
   (py "@greeting", JDict [(py "description", JStr (py "Greets the user"))]);
   (py "farewell", JStr (py "Goodbye {name}"))].

Definition doc_fr_partial : dict :=
  [(py "@@locale", JStr (py "fr"));
   (py "greeting", JStr (py "Salut {name} !"))].

(** A source whose only text has a manual translation. *)
Definition doc_manual : dict :=
  [(py "@@locale", JStr (py "en"));
   (py "repeater_daysHoursMinsSecs",
    JStr (py "{days} days {hours}h {minutes}m {seconds}s"))].

(** A backend that keeps the placeholder, whatever the model. *)
Definition faithful_backend : nat → request → exn + json :=
  λ _ _, reply (py "Au revoir {name}").

(** A source with the application title, which is never translated. *)
Definition doc_titled : dict :=
  [(py "@@locale", JStr (py "en"));
   (py "appTitle", JStr (py "MeshCore"));
   (py "greeting", JStr (py "Hello {name}!"))].

Definition env_titled : Env :=
  {| heap := [doc_titled; doc_fr_partial]; files := []; opened := [] |}.

(** A heap with the source [doc_two] and the target [doc_fr_partial],
    and one with the source [doc_manual] and an empty target. *)
Definition env_two : Env :=
  {| heap := [doc_two; doc_fr_partial]; files := []; opened := [] |}.

Definition env_manual : Env :=
  {| heap := [doc_manual; []]; files := []; opened := [] |}.
(** * Properties of the matcher *)

Section MatcherFacts.
Context `{Unicode}.

Lemma matches_suffix r s g s' g' :
  matches r s g s' g' → ∃ w, s = w ++ s'.
Proof.
  induction 1; try (by exists []); try (by eexists [_]); auto.
  - destruct IHmatches1 as [w1 ->], IHmatches2 as [w2 ->].
    exists (w1 ++ w2). by rewrite app_assoc.
  - destruct IHmatches1 as [w1 ->], IHmatches2 as [w2 ->].
    exists (w1 ++ w2). by rewrite app_assoc.
Qed.

Lemma take_consumed (w s' : str) :
  take (length (w ++ s') - length s') (w ++ s') = w.
Proof.
  rewrite length_app.
  replace (length w + length s' - length s') with (length w) by lia.
  by rewrite take_app_length.
Qed.

Lemma exec_sound {R} r :
  ∀ s g (k : cont) (x : R),
    exec r s g k = Some x →
    ∃ s' g', matches r s g s' g' ∧ k s' g' = Some x.
Proof.
  induction r as [|c|c|cl|a IHa b IHb|a IHa b IHb|a IHa|a IHa|];
    intros s g k x Hx; simpl in Hx.
  - eauto using matches.
  - destruct s as [|y s]; [done|].
    destruct (N.eqb_spec c y) as [->|]; [|done]. eauto using matches.
  - destruct s as [|y s]; [done|].
    destruct (u_caseless c y) eqn:E; [|done]. eauto using matches.
  - destruct s as [|y s]; [done|].
    destruct (in_class cl y) eqn:E; [|done]. eauto using matches.
  - apply IHa in Hx as (s1 & g1 & H1 & Hx).
    apply IHb in Hx as (s2 & g2 & H2 & Hx). eauto using matches.
  - destruct (exec a s g k) eqn:E.
    + simplify_eq. apply IHa in E as (s1 & g1 & H1 & Hx).
      eauto using matches.
    + apply IHb in Hx as (s1 & g1 & H1 & Hx). eauto using matches.
  - revert Hx. generalize (length s) at 1. intros n. revert s g.
    induction n as [|n IHn]; intros s g Hx; simpl in Hx.
    + eauto using matches.
    + match type of Hx with
      | match ?e with _ => _ end = _ => destruct e eqn:E
      end.
      * simplify_eq. apply IHa in E as (s1 & g1 & H1 & Hx).
        case_bool_decide; [|done].
        apply IHn in Hx as (s2 & g2 & H2 & Hx). eauto using matches.
      * eauto using matches.
  - apply IHa in Hx as (s1 & g1 & H1 & Hx). eauto using matches.
  - destruct s as [|c [|? ?]]; [eauto using matches| |done].
    destruct (N.eqb_spec c NL) as [->|]; [|done]. eauto using matches.
Qed.

Lemma exec_complete {R} r :
  ∀ s g s' g' (k : @cont R),
    matches r s g s' g' → is_Some (k s' g') → is_Some (exec r s g k).
Proof.
  induction r as [|c|c|cl|a IHa b IHb|a IHa b IHb|a IHa|a IHa|];
    intros s g s' g' k Hm Hk.
  - inversion Hm; by subst.
  - inversion Hm; subst; cbn [exec]. by rewrite N.eqb_refl.
  - inversion Hm as [| |? ? ? ? E| | | | | | | | |]; subst; simpl.
    by rewrite E.
  - inversion Hm as [| | |? ? ? ? E| | | | | | | |]; subst; simpl.
    by rewrite E.
  - inversion Hm; subst; simpl. eauto.
  - simpl. destruct (exec a s g k) eqn:E; [done|].
    inversion Hm as [| | | | |? ? ? ? ? ? Ha|? ? ? ? ? ? Hb| | | | |]; subst.
    + apply (IHa _ _ _ _ k) in Ha; [|done]. rewrite E in Ha.
      by destruct Ha.
    + eauto.
  - simpl. assert (Hn : length s ≤ length s) by lia.
    revert Hn. generalize (length s) at 2 3. intros n. revert s g Hm.
    induction n as [|n IHn]; intros s g Hm Hn.
    + inversion Hm; subst; [done|]. lia.
    + simpl.
      match goal with
      | |- is_Some (match ?e with _ => _ end) => destruct e eqn:E
      end; [done|].
      inversion Hm as [| | | | | | |? ? ?|? ? ? s1 g1 ? ? Ha Hlt Hs| | |];
        subst; [done|].
      eapply IHa in Ha.
      * rewrite E in Ha. by destruct Ha.
      * simpl. rewrite bool_decide_eq_true_2 by done.
        apply IHn; [done|lia].
  - inversion Hm; subst; simpl. eapply IHa; eauto.
  - inversion Hm; subst; cbn [exec]; [done|by rewrite N.eqb_refl].
Qed.

(** *** Inversion of [matches], constructor by constructor *)

Lemma matches_Lit c s g s' g' :
  matches (Lit c) s g s' g' ↔ s = c :: s' ∧ g' = g.
Proof.
  split; [inversion 1; by subst|intros [-> ->]; constructor].
Qed.

Lemma matches_Cls k s g s' g' :
  matches (Cls k) s g s' g' ↔
  ∃ x, in_class k x = true ∧ s = x :: s' ∧ g' = g.
Proof.
  split; [inversion 1; subst; eauto|].
  intros (x & ? & -> & ->). by constructor.
Qed.

Lemma matches_Seq a b s g s' g' :
  matches (Seq a b) s g s' g' ↔
  ∃ s1 g1, matches a s g s1 g1 ∧ matches b s1 g1 s' g'.
Proof.
  split; [inversion 1; subst; eauto|].
  intros (s1 & g1 & ? & ?). by econstructor.
Qed.

Lemma matches_Alt a b s g s' g' :
  matches (Alt a b) s g s' g' ↔
  matches a s g s' g' ∨ matches b s g s' g'.
Proof.
  split; [inversion 1; subst; eauto|].
  intros [?|?]; [by apply m_alt_l|by apply m_alt_r].
Qed.

Lemma matches_Group a s g s' g' :
  matches (Group a) s g s' g' ↔
  ∃ w g0, matches a s g s' g0 ∧ s = w ++ s' ∧ g' = Some w.
Proof.
  split.
  - inversion 1 as [| | | | | | | | |? ? ? ? g0 Ha| |]; subst.
    destruct (matches_suffix _ _ _ _ _ Ha) as [w ->].
    exists w, g0. by rewrite take_consumed.
  - intros (w & g0 & Ha & -> & ->).
    pose proof (m_group _ _ _ _ _ Ha) as Hg.
    by rewrite take_consumed in Hg.
Qed.

Lemma matches_Star_Cls k s g s' g' :
  matches (Star (Cls k)) s g s' g' ↔
  ∃ w, Forall (λ c, in_class k c = true) w ∧ s = w ++ s' ∧ g' = g.
Proof.
  split.
  - remember (Star (Cls k)) as r eqn:Hr. intros Hm.
    induction Hm as [| | | | | | |a s g
                     |a s g s1 g1 s2 g2 Ha IHa Hlt Hs IHs| | |]; try done.
    + by exists [].
    + simplify_eq. apply matches_Cls in Ha as (x & ? & -> & ->).
      destruct IHs as (w & ? & -> & ->); [done|].
      exists (x :: w). auto.
  - intros (w & Hw & -> & ->). induction Hw as [|x w ? ? IH]; simpl.
    + constructor.
    + eapply m_star_S; [by constructor| |done]. simpl. lia.
Qed.

Lemma matches_Plus_Cls k s g s' g' :
  matches (Plus (Cls k)) s g s' g' ↔
  ∃ w, w ≠ [] ∧ Forall (λ c, in_class k c = true) w ∧ s = w ++ s' ∧ g' = g.
Proof.
  unfold Plus. rewrite matches_Seq. split.
  - intros (s1 & g1 & (x & ? & -> & ->)%matches_Cls
                   & (w & ? & -> & ->)%matches_Star_Cls).
    exists (x :: w). auto.
  - intros (w & Hne & Hw & -> & ->). destruct Hw as [|x w ? ?]; [done|].
    exists (w ++ s'), g. split; [by constructor|].
    apply matches_Star_Cls. eauto.
Qed.

Lemma lits_cons c w : w ≠ [] → lits (c :: w) = Seq (Lit c) (lits w).
Proof. by destruct w. Qed.

Lemma matches_lits w s g s' g' :
  matches (lits w) s g s' g' ↔ s = w ++ s' ∧ g' = g.
Proof.
  revert s. induction w as [|c w IH]; intros s.
  - split; [inversion 1; by subst|intros [-> ->]; constructor].
  - destruct w as [|c' w].
    + apply matches_Lit.
    + rewrite lits_cons by done. rewrite matches_Seq. split.
      * intros (s1 & g1 & [-> ->]%matches_Lit & [-> ->]%IH). done.
      * intros [-> ->]. exists ((c' :: w) ++ s'), g.
        split; [constructor|by apply IH].
Qed.

Lemma matches_groupless r s g s' g' :
  groupless r = true → matches r s g s' g' → g' = g.
Proof.
  intros Hr Hm. induction Hm; simpl in Hr; try done;
    repeat match goal with
           | H : _ && _ = true |- _ => apply andb_true_iff in H as [? ?]
           end; try (by auto).
  - rewrite IHHm2, IHHm1; auto.
  - rewrite IHHm2, IHHm1; auto.
Qed.

(** A pattern without [$] does not look at what follows its match. *)
Lemma matches_app r s g s' g' t :
  eol_free r = true → matches r s g s' g' →
  matches r (s ++ t) g (s' ++ t) g'.
Proof.
  intros Hr Hm. induction Hm; simpl in Hr; try done;
    repeat match goal with
           | H : _ && _ = true |- _ => apply andb_true_iff in H as [? ?]
           end; try (by constructor; auto).
  - econstructor; eauto.
  - eapply m_star_S; eauto. rewrite !length_app. lia.
  - destruct (matches_suffix _ _ _ _ _ Hm) as [w ->].
    rewrite take_consumed. apply matches_Group.
    exists w, g'. rewrite <-app_assoc. split_and!; [|done..].
    rewrite app_assoc. auto.
Qed.

(** *** [re.match], [re.search] and [finditer] *)

Lemma re_match_sound r s rest g :
  re_match r s = Some (rest, g) → matches r s None rest g.
Proof.
  intros (s' & g' & Hm & ?)%exec_sound. by simplify_eq.
Qed.

Lemma re_match_complete r s rest g :
  matches r s None rest g → is_Some (re_match r s).
Proof. intros Hm. eapply exec_complete; eauto. Qed.

Lemma search_from_sound r pos s m :
  search_from r pos s = Some m →
  ∃ i, m_start m = pos + i ∧ match_at r s i (m_group1 m).
Proof.
  revert pos. induction s as [|c s IH]; intros pos; simpl.
  - destruct (re_match r []) as [[rest g]|] eqn:E; [|done].
    intros; simplify_eq. exists 0; simpl. split; [lia|].
    split; [done|]. eauto using re_match_sound.
  - destruct (re_match r (c :: s)) as [[rest g]|] eqn:E.
    + intros; simplify_eq. exists 0; simpl. split; [lia|].
      split; [lia|]. eauto using re_match_sound.
    + intros (i & -> & Hi & rest & Hm)%IH.
      exists (S i). split; [lia|]. split; [simpl; lia|]. eauto.
Qed.

Lemma search_from_complete r pos s i g :
  match_at r s i g → is_Some (search_from r pos s).
Proof.
  revert pos i. induction s as [|c s IH]; intros pos i [Hi [rest Hm]].
  - simpl in *. rewrite drop_nil in Hm.
    apply re_match_complete in Hm as [[??] ->]. done.
  - simpl. destruct (re_match r (c :: s)) as [[??]|] eqn:E; [done|].
    destruct i as [|i].
    + simpl in Hm. apply re_match_complete in Hm. rewrite E in Hm.
      by destruct Hm.
    + apply (IH _ i). split; [simpl in Hi; lia|]. eauto.
Qed.

Lemma re_search_is_Some r s :
  is_Some (re_search r s) ↔ ∃ i g, match_at r s i g.
Proof.
  split.
  - intros [m (i & _ & ?)%search_from_sound]. eauto.
  - intros (i & g & ?). by eapply search_from_complete.
Qed.

Lemma finditer_from_sound r pos skip s m :
  m ∈ finditer_from r pos skip s →
  ∃ i, m_start m = pos + i ∧ match_at r s i (m_group1 m).
Proof.
  revert pos skip. induction s as [|c s IH]; intros pos skip; simpl.
  - destruct skip; [|by intros ?%elem_of_nil].
    destruct (re_match r []) as [[rest g]|] eqn:E;
      [|by intros ?%elem_of_nil].
    intros ->%list_elem_of_singleton. exists 0; simpl.
    split; [lia|]. split; [done|]. eauto using re_match_sound.
  - assert (Htail : ∀ k, m ∈ finditer_from r (S pos) k s →
              ∃ i, m_start m = pos + i ∧ match_at r (c :: s) i (m_group1 m)).
    { intros k (i & -> & Hi & rest & Hm)%IH. exists (S i).
      split; [lia|]. split; [simpl; lia|]. eauto. }
    destruct skip; [|by apply Htail].
    destruct (re_match r (c :: s)) as [[rest g]|] eqn:E; [|by apply Htail].
    intros [->|?]%elem_of_cons; [|by eapply Htail].
    exists 0; simpl. split; [lia|]. split; [lia|].
    eauto using re_match_sound.
Qed.

Lemma finditer_sound r s m :
  m ∈ finditer r s →
  match_at r s (m_start m) (m_group1 m).
Proof. by intros (i & -> & ?)%finditer_from_sound. Qed.

Lemma match_at_app r s t i g :
  eol_free r = true → match_at r s i g → match_at r (s ++ t) i g.
Proof.
  intros Hr [Hi [rest Hm]]. split; [rewrite length_app; lia|].
  exists (rest ++ t). rewrite drop_app_le by done. by apply matches_app.
Qed.

Lemma re_search_app r s t :
  eol_free r = true →
  is_Some (re_search r s) → is_Some (re_search r (s ++ t)).
Proof.
  rewrite !re_search_is_Some. intros ? (i & g & ?).
  eauto using match_at_app.
Qed.
End MatcherFacts.

(** * Properties of the string order *)

#[global] Instance str_le_total : Total str_le.
Proof.
  intros a. unfold str_le.
  induction a as [|x a IH]; intros [|y b]; simpl; auto.
  destruct (N.ltb_spec x y), (N.ltb_spec y x); auto; lia.
Qed.

#[global] Instance str_le_trans : Transitive str_le.
Proof.
  intros a. unfold str_le.
  induction a as [|x a IH]; intros [|y b] [|z c]; simpl; auto; try done.
  destruct (N.ltb_spec x y), (N.ltb_spec y x), (N.ltb_spec y z),
    (N.ltb_spec z y), (N.ltb_spec x z), (N.ltb_spec z x);
    try done; try lia; eauto.
Qed.

Lemma str_le_refl a : str_le a a.
Proof. destruct (total str_le a a); done. Qed.

Lemma StronglySorted_strict {A} (R : relation A) (l : list A) :
  StronglySorted R l → NoDup l →
  StronglySorted (λ a b, R a b ∧ a ≠ b) l.
Proof.
  induction 1 as [|x l Hl IH Hx]; intros Hnd; [constructor|].
  apply NoDup_cons in Hnd as [Hin Hnd]. constructor; [auto|].
  apply Forall_forall. intros y Hy. split.
  - by eapply Forall_forall in Hx.
  - intros ->. done.
Qed.

Lemma sorted_elem (names : gset str) n : n ∈ sorted names ↔ n ∈ names.
Proof.
  unfold sorted. rewrite (merge_sort_Permutation str_le).
  apply elem_of_elements.
Qed.

Lemma sorted_strict (names : gset str) : StronglySorted str_lt (sorted names).
Proof.
  apply StronglySorted_strict.
  - apply (StronglySorted_merge_sort str_le).
  - unfold sorted. rewrite (merge_sort_Permutation str_le).
    apply NoDup_elements.
Qed.

(** * Properties of the token extractor and the validator *)

Section TokenFacts.
Context `{Unicode}.

Lemma matches_SIMPLE t t' g :
  matches SIMPLE_PLACEHOLDER_RE t None t' g →
  ∃ n, t = [chr "{"] ++ n ++ [chr "}"] ++ t' ∧ g = Some n.
Proof.
  change SIMPLE_PLACEHOLDER_RE
    with (Seq (Lit (chr "{")) (Seq (Group (Plus w_)) (Lit (chr "}")))).
  intros (s1 & g1 & [-> ->]%matches_Lit
             & (s2 & g2 & (n & g0 & _ & -> & ->)%matches_Group
                        & [-> ->]%matches_Lit)%matches_Seq)%matches_Seq.
  by exists n.
Qed.

Lemma ICU_VAR_RE_shape :
  ICU_VAR_RE =
  Seq (Lit (chr "{"))
      (Seq (Group (Plus w_))
           (Seq (Star s_) (Seq (Lit (chr ",")) ICU_TAIL))).
Proof. reflexivity. Qed.

Lemma matches_ICU_VAR t t' g :
  matches ICU_VAR_RE t None t' g →
  ∃ n ws rest,
    blank ws ∧ t = [chr "{"] ++ n ++ ws ++ [chr ","] ++ rest ∧ g = Some n.
Proof.
  rewrite ICU_VAR_RE_shape.
  intros (s1 & g1 & [-> ->]%matches_Lit
             & (s2 & g2 & (n & g0 & _ & -> & ->)%matches_Group
                & (s3 & g3 & (ws & Hws & -> & ->)%matches_Star_Cls
                   & (s4 & g4 & [-> ->]%matches_Lit & Htail)%matches_Seq
                  )%matches_Seq)%matches_Seq)%matches_Seq.
  apply matches_groupless in Htail as ->; [|done].
  by exists n, ws, s4.
Qed.

Lemma matches_token_pattern n t g t' g' :
  matches (token_pattern n) t g t' g' ↔
  (t = [chr "{"] ++ n ++ [chr "}"] ++ t'
   ∨ ∃ ws, blank ws ∧ t = [chr "{"] ++ n ++ ws ++ [chr ","] ++ t')
  ∧ g' = g.
Proof.
  change (token_pattern n)
    with (Seq (Lit (chr "{"))
              (Seq (lits n)
                   (Alt (Lit (chr "}")) (Seq (Star s_) (Lit (chr ",")))))).
  split.
  - intros (s1 & g1 & [-> ->]%matches_Lit
               & (s2 & g2 & [-> ->]%matches_lits & Halt)%matches_Seq
           )%matches_Seq.
    apply matches_Alt in Halt as
      [[-> ->]%matches_Lit
      |(s3 & g3 & (ws & Hws & -> & ->)%matches_Star_Cls
                & [-> ->]%matches_Lit)%matches_Seq].
    + auto.
    + split; [|done]. right. by exists ws.
  - intros [[->|(ws & Hws & ->)] ->].
    + apply matches_Seq. eexists _, _. split; [by apply matches_Lit|].
      apply matches_Seq. eexists _, _. split; [by apply matches_lits|].
      apply m_alt_l. by apply matches_Lit.
    + apply matches_Seq. eexists _, _. split; [by apply matches_Lit|].
      apply matches_Seq. eexists _, _. split; [by apply matches_lits|].
      apply m_alt_r. apply matches_Seq. eexists _, _.
      split; [apply matches_Star_Cls; eauto|by apply matches_Lit].
Qed.

(** The search of the validator finds exactly the occurrences of the
    token. *)
Lemma token_search_iff n c :
  is_Some (re_search (token_pattern n) c) ↔ token_occurs n c.
Proof.
  rewrite re_search_is_Some. split.
  - intros (i & g & Hi & rest & [Hm _]%matches_token_pattern).
    exists (take i c), rest.
    destruct Hm as [Hd|(ws & ? & Hd)];
      [left|right; exists ws; split; [done|]];
      rewrite <-Hd; by rewrite take_drop.
  - intros (pre & post & Hc). exists (length pre), None.
    split; [destruct Hc as [->|(? & ? & ->)]; rewrite length_app; lia|].
    exists post. apply matches_token_pattern. split; [|done].
    destruct Hc as [->|(ws & ? & ->)]; rewrite drop_app_length; eauto.
Qed.

Lemma token_search_None n c :
  re_search (token_pattern n) c = None ↔ ¬ token_occurs n c.
Proof.
  rewrite <-token_search_iff, eq_None_not_Some. done.
Qed.

(** The two literal forms [{name}] and [{name,] are occurrences of the
    token. *)
Lemma startswith_iff (c w : str) :
  startswith c w = true ↔ ∃ post, c = w ++ post.
Proof.
  revert c. induction w as [|x w IH]; intros [|y c]; simpl.
  - split; [by exists []|done].
  - split; [by eexists|done].
  - split; [done|by intros [? ?]].
  - rewrite andb_true_iff, N.eqb_eq, IH. split.
    + intros [-> [post ->]]. by exists post.
    + intros [post [= -> ->]]. eauto.
Qed.

Lemma str_contains_iff (c w : str) :
  str_contains c w = true ↔ ∃ pre post, c = pre ++ w ++ post.
Proof.
  induction c as [|y c IH].
  - change (str_contains [] w) with (startswith [] w || false).
    rewrite orb_false_r, startswith_iff. split.
    + intros [post ->]. by exists [], post.
    + intros ([|??] & post & E); [by exists post|done].
  - change (str_contains (y :: c) w)
      with (startswith (y :: c) w || str_contains c w).
    rewrite orb_true_iff, startswith_iff, IH. split.
    + intros [[post ->]|(pre & post & ->)]; [by exists [], post|].
      by exists (y :: pre), post.
    + intros ([|x pre] & post & E); simplify_eq/=; eauto.
Qed.

Lemma token_occurs_literal n c :
  str_contains c ([chr "{"] ++ n ++ [chr "}"]) = true
  ∨ str_contains c ([chr "{"] ++ n ++ [chr ","]) = true →
  token_occurs n c.
Proof.
  intros [(pre & post & ->)%str_contains_iff
         |(pre & post & ->)%str_contains_iff]; exists pre, post.
  - left. by rewrite <-!app_assoc.
  - right. exists []. split; [constructor|]. by rewrite <-!app_assoc.
Qed.

(** *** The names the extractor collects *)

Lemma names_add_elem (g : caps) (names : gset str) (n : str) :
  n ∈ names_add g names ↔ g = Some n ∨ n ∈ names.
Proof.
  destruct g as [m|]; simpl.
  - rewrite elem_of_union, elem_of_singleton. split.
    + intros [->|?]; auto.
    + intros [[= ->]|?]; auto.
  - split; [auto|]. by intros [?|?].
Qed.

Lemma icu_loop_elem (ms : list Match) (init : gset str) (n : str) :
  n ∈ foldl (λ names m, names_add (m_group1 m) names) init ms →
  n ∈ init ∨ ∃ m, m ∈ ms ∧ m_group1 m = Some n.
Proof.
  revert init. induction ms as [|m ms IH]; intros init; simpl; [auto|].
  intros [[?|?]%names_add_elem|(m' & ? & ?)]%IH; auto.
  - right. exists m. split; [left|done].
  - right. exists m'. split; [by right|done].
Qed.

Lemma simple_loop_elem (s : str) (ms : list Match) (init : gset str)
    (n : str) :
  n ∈ foldl (simple_step s) init ms →
  n ∈ init
  ∨ ∃ m, m ∈ ms ∧ m_group1 m = Some n
         ∧ re_search CASE_LABEL_RE (take (m_start m) s) = None.
Proof.
  revert init. induction ms as [|m ms IH]; intros init; simpl; [auto|].
  intros [Hn|(m' & ? & ?)]%IH.
  - unfold simple_step in Hn.
    destruct (re_match ICU_HEAD_RE _); [auto|].
    destruct (re_search CASE_LABEL_RE _) eqn:E; [auto|].
    apply names_add_elem in Hn as [?|?]; [|auto].
    right. exists m. split; [left|done].
  - right. exists m'. split; [by right|done].
Qed.

(** Group 1 takes part in every match the extractor iterates over. *)
Lemma finditer_group1 s m :
  m ∈ finditer ICU_VAR_RE s ∨ m ∈ finditer SIMPLE_PLACEHOLDER_RE s →
  is_Some (m_group1 m).
Proof.
  intros [[_ (rest & Hm)]%finditer_sound|[_ (rest & Hm)]%finditer_sound].
  - apply matches_ICU_VAR in Hm as (n & ? & ? & _ & _ & ->). eauto.
  - apply matches_SIMPLE in Hm as (n & _ & ->). eauto.
Qed.

(** Where a collected name comes from: a match of [ICU_VAR_RE], or a
    match of [SIMPLE_PLACEHOLDER_RE] whose left context does not end
    with a case label. *)
Lemma extract_elem s n :
  n ∈ extract_placeholder_names s →
  ∃ i, match_at ICU_VAR_RE s i (Some n)
       ∨ (match_at SIMPLE_PLACEHOLDER_RE s i (Some n)
          ∧ re_search CASE_LABEL_RE (take i s) = None).
Proof.
  unfold extract_placeholder_names. rewrite sorted_elem.
  unfold extract_names_set.
  intros [[?%not_elem_of_empty|(m & Hm & Hg)]%icu_loop_elem
         |(m & Hm & Hg & Hlab)]%simple_loop_elem; [done|..].
  - apply finditer_sound in Hm. rewrite Hg in Hm. eauto.
  - apply finditer_sound in Hm. rewrite Hg in Hm. eauto.
Qed.

Lemma extract_token_occurs s n :
  n ∈ extract_placeholder_names s → token_occurs n s.
Proof.
  intros (i & [[Hi (rest & Hm)]|[[Hi (rest & Hm)] _]])%extract_elem.
  - apply matches_ICU_VAR in Hm as (n' & ws & post & Hws & Hs & ?).
    simplify_eq. exists (take i s), post. right. exists ws.
    split; [done|]. rewrite <-Hs. by rewrite take_drop.
  - apply matches_SIMPLE in Hm as (n' & Hs & ?). simplify_eq.
    exists (take i s), rest. left. rewrite <-Hs. by rewrite take_drop.
Qed.

(** *** The loop of the validator *)

Lemma first_missing_None names out :
  first_missing names out = None ↔
  ∀ n, n ∈ names → token_occurs n out.
Proof.
  induction names as [|m names IH]; simpl.
  - split; [by intros _ n ?%elem_of_nil|done].
  - destruct (re_search (token_pattern m) out) eqn:E.
    + rewrite IH. split.
      * intros Hall n [->|?]%elem_of_cons; [|auto].
        apply token_search_iff. by rewrite E.
      * intros Hall n ?. apply Hall. by right.
    + split; [done|]. intros Hall.
      apply token_search_None in E. destruct E. apply Hall. by left.
Qed.

Lemma first_missing_Some names out why :
  first_missing names out = Some why ↔
  ∃ l1 m l2, names = l1 ++ m :: l2
             ∧ (∀ n, n ∈ l1 → token_occurs n out)
             ∧ ¬ token_occurs m out
             ∧ why = missing_msg m.
Proof.
  induction names as [|m names IH]; simpl.
  - split; [done|]. by intros ([|??] & ? & ? & ? & _).
  - destruct (re_search (token_pattern m) out) eqn:E.
    + assert (Hm : token_occurs m out).
      { apply token_search_iff. by rewrite E. }
      rewrite IH. split.
      * intros (l1 & m' & l2 & -> & Hl1 & Hm' & ->).
        exists (m :: l1), m', l2. split_and!; try done.
        by intros n [->|?]%elem_of_cons; auto.
      * intros ([|x0 l1] & m' & l2 & Heq & Hl1 & Hm' & ->);
          simplify_eq/=; [done|].
        exists l1, m', l2. split_and!; try done.
        intros n ?. apply Hl1. by right.
    + apply token_search_None in E. split.
      * intros ?; simplify_eq. exists [], m, names.
        split_and!; try done. by intros n ?%elem_of_nil.
      * intros ([|x0 l1] & m' & l2 & Heq & Hl1 & Hm' & ->);
          simplify_eq/=; [done|].
        destruct E. apply Hl1. by left.
Qed.

(** *** Case labels *)

Lemma matches_ilits kw lab rest g :
  caseless_word kw lab →
  matches (seq (map LitI kw)) (lab ++ rest) g rest g.
Proof.
  induction 1 as [|p c kw lab Hpc Hrest IH]; simpl; [constructor|].
  destruct Hrest as [|p' c' kw lab ? ?].
  - by constructor.
  - econstructor; [by constructor|done].
Qed.

Lemma CASE_LABEL_RE_shape :
  CASE_LABEL_RE = Seq CASE_LABELS (Seq (Star s_) Eol).
Proof. reflexivity. Qed.

Lemma CASE_LABELS_shape :
  CASE_LABELS =
  Alt (Seq (Lit (chr "=")) (Plus d_))
    (Alt (seq (map LitI (py "zero")))
      (Alt (seq (map LitI (py "one")))
        (Alt (seq (map LitI (py "two")))
          (Alt (seq (map LitI (py "few")))
            (Alt (seq (map LitI (py "many")))
                 (seq (map LitI (py "other")))))))).
Proof. reflexivity. Qed.

Lemma matches_CASE_LABELS lab rest g :
  case_label lab → matches CASE_LABELS (lab ++ rest) g rest g.
Proof.
  rewrite CASE_LABELS_shape.
  intros [(ds & Hne & Hds & ->)|(kw & Hkw & Hlab)].
  - apply m_alt_l. econstructor; [by constructor|].
    apply matches_Plus_Cls. by exists ds.
  - apply (matches_ilits _ _ rest g) in Hlab.
    repeat (apply elem_of_cons in Hkw as [->|Hkw];
            [by repeat (first [exact Hlab|apply m_alt_l; exact Hlab
                              |apply m_alt_r])|]).
    by apply elem_of_nil in Hkw.
Qed.

Lemma case_label_search before :
  ends_with_label before → is_Some (re_search CASE_LABEL_RE before).
Proof.
  intros (pre & lab & ws & tail & -> & Hlab & Hws & Htail).
  apply re_search_is_Some. exists (length pre), None.
  split; [rewrite length_app; lia|]. exists tail.
  rewrite drop_app_length, CASE_LABEL_RE_shape.
  econstructor; [by apply matches_CASE_LABELS|].
  econstructor; [apply matches_Star_Cls; eauto|].
  destruct Htail as [->| ->]; constructor.
Qed.

(** A reported name has an occurrence that is the variable of an ICU
    block, or a bare placeholder that does not follow a case label. *)
Lemma extract_not_label s n :
  n ∈ extract_placeholder_names s →
  ∃ i, match_at ICU_VAR_RE s i (Some n)
       ∨ (i ≤ length s
          ∧ (∃ rest, drop i s = [chr "{"] ++ n ++ [chr "}"] ++ rest)
          ∧ ¬ ends_with_label (take i s)).
Proof.
  intros (i & [?|[[Hi (rest & Hm)] Hlab]])%extract_elem; [by eauto|].
  exists i. right. split; [done|]. split.
  - apply matches_SIMPLE in Hm as (n' & -> & ?). simplify_eq. eauto.
  - intros [? E]%case_label_search. by rewrite Hlab in E.
Qed.

Lemma token_occurs_app n c t : token_occurs n c → token_occurs n (c ++ t).
Proof.
  intros (pre & post & [->|(ws & ? & ->)]); exists pre, (post ++ t).
  - left. by rewrite <-!app_assoc.
  - right. exists ws. by rewrite <-!app_assoc.
Qed.

Lemma has_icu_block_app c t :
  has_icu_block c = true → has_icu_block (c ++ t) = true.
Proof.
  unfold has_icu_block. rewrite !bool_decide_eq_true.
  by apply re_search_app.
Qed.
End TokenFacts.

Lemma sorted_NoDup (names : gset str) : NoDup (sorted names).
Proof.
  unfold sorted. rewrite (merge_sort_Permutation str_le).
  apply NoDup_elements.
Qed.

Lemma filter_nil_elem {A} (P : A → Prop) `{!∀ x, Decision (P x)}
    (l : list A) :
  (∀ x, x ∈ l → ¬ P x) → filter P l = [].
Proof.
  intros Hl. destruct (filter P l) as [|x l'] eqn:E; [done|].
  assert (Hx : x ∈ filter P l) by (rewrite E; left).
  apply list_elem_of_filter in Hx as [? ?]. by destruct (Hl x).
Qed.

(** * Properties of the job runner *)

Lemma posts_app (w1 w2 : World) : posts (w1 ++ w2) = posts w1 + posts w2.
Proof.
  induction w1 as [|[rq|q] w1 IH]; simpl; auto.
Qed.

Lemma valid_backoff_check `{Clock} (backoff_s : float) (retries : Z) :
  valid_backoff_b backoff_s retries = true → valid_backoff backoff_s retries.
Proof.
  unfold valid_backoff_b, valid_backoff. intros Hall a Ha.
  rewrite forallb_forall in Hall. specialize (Hall a).
  destruct (sleep_outcome backoff_s a) as [e|secs]; [|eauto].
  discriminate Hall. apply list_elem_of_In, elem_of_seqZ. lia.
Qed.

Section ValidatorShape.
Context `{Unicode}.

(** The two shapes of the validator's result. *)
Lemma validate_cases src out :
  validate_preserved_tokens src out = (true, None)
  ∨ ∃ why, validate_preserved_tokens src out = (false, Some why).
Proof.
  unfold validate_preserved_tokens.
  destruct (first_missing _ out); [eauto|].
  destruct (_ && _); eauto.
Qed.
End ValidatorShape.

Section JobSteps.
Context `{Unicode} `{Clock}.
Variable backend : nat → request → exn + json.
Variables (key text target_lang target_code : str).
Variables (cfg : OllamaConfig) (retries : Z) (backoff_s : float).
Variable fallback_cfg : option OllamaConfig.

Abbreviation run_attempt :=
  (attempt_body backend key text cfg retries backoff_s).
Abbreviation run_attempts := (attempts backend key text cfg retries backoff_s).
Abbreviation run_fallback :=
  (try_fallback backend key text target_lang target_code fallback_cfg).
Abbreviation run_job :=
  (translate_one backend key text target_lang target_code cfg retries
                 backoff_s fallback_cfg).
Abbreviation generated_by := (generated backend).

Lemma ollama_generate_run c prompt w :
  ollama_generate backend c prompt w
  = (generated_by c prompt (posts w), w ++ [EPost (request_of c prompt)]).
Proof.
  unfold ollama_generate, generated, http_post_json, mbind, M_bind,
    of_result.
  by destruct (backend (posts w) (request_of c prompt)).
Qed.

(** The sleep between two attempts. *)
Lemma backoff_run a w :
  backoff backoff_s a w
  = match sleep_outcome backoff_s a with
    | inr secs => (inr (), w ++ [ESleep secs])
    | inl e => (inl e, w)
    end.
Proof.
  unfold backoff, sleep_outcome, time_sleep, mbind, M_bind, of_result.
  destruct (sleep_length backoff_s a) as [e|secs]; [done|].
  by destruct (sleep_error secs).
Qed.

(** One pass through the loop body: what it yields and what it logs,
    by the reply to its request and by whether the sleep is accepted.
    A sleep refused inside the [try] is refused again in the handler. *)
Lemma attempt_body_run prompt a w :
  run_attempt prompt a w
  = match attempt_error text (generated_by cfg prompt (posts w)) with
    | None =>
        (inr (Return (key,
                      match generated_by cfg prompt (posts w) with
                      | inr out => out
                      | inl _ => []
                      end, None, false)),
         w ++ [EPost (request_of cfg prompt)])
    | Some err =>
        if (a <? retries)%Z
        then match sleep_outcome backoff_s a with
             | inr secs =>
                 (inr (Next (Some err)),
                  w ++ [EPost (request_of cfg prompt); ESleep secs])
             | inl e => (inl e, w ++ [EPost (request_of cfg prompt)])
             end
        else (inr (Next (Some err)), w ++ [EPost (request_of cfg prompt)])
    end.
Proof.
  unfold attempt_body, try_except, mbind, M_bind, mret, M_ret.
  rewrite ollama_generate_run.
  destruct (generated_by cfg prompt (posts w)) as [e|out]; simpl.
  - destruct (a <? retries)%Z; [|done]. rewrite backoff_run.
    destruct (sleep_outcome backoff_s a); [done|]. by rewrite <-app_assoc.
  - destruct (validate_preserved_tokens text out) as [[] why]; [done|].
    cbn [negb]. unfold raise. destruct (a <? retries)%Z; [|done].
    rewrite !backoff_run.
    destruct (sleep_outcome backoff_s a) eqn:E; [|by rewrite <-app_assoc].
    by rewrite backoff_run, E.
Qed.

Lemma attempt_body_fail prompt a w err :
  ((a < retries)%Z → ∃ secs, sleep_outcome backoff_s a = inr secs) →
  attempt_error text (generated_by cfg prompt (posts w)) = Some err →
  run_attempt prompt a w
  = (inr (Next (Some err)),
     w ++ failed_attempt_log cfg retries backoff_s prompt a).
Proof.
  intros Hsleep Herr. rewrite attempt_body_run, Herr.
  unfold failed_attempt_log.
  destruct (Z.ltb_spec a retries); [|done].
  destruct Hsleep as [secs ->]; done.
Qed.

Lemma attempt_error_cases r :
  (∃ err, attempt_error text r = Some err)
  ∨ (∃ out, r = inr out
            ∧ validate_preserved_tokens text out = (true, None)).
Proof.
  destruct r as [e|out]; simpl; [eauto|].
  destruct (validate_cases text out) as [E|[why E]]; rewrite E; eauto.
Qed.

Lemma attempt_error_None r :
  attempt_error text r = None ↔
  ∃ out, r = inr out ∧ validate_preserved_tokens text out = (true, None).
Proof.
  destruct r as [e|out]; cbn [attempt_error].
  - split; [done|]. by intros (? & ? & _).
  - destruct (validate_cases text out) as [E|[why E]]; rewrite E.
    + split; [eauto|done].
    + split; [done|]. intros (? & [= <-] & E'). by rewrite E in E'.
Qed.

Lemma attempt_body_ok prompt a w out :
  generated_by cfg prompt (posts w) = inr out →
  validate_preserved_tokens text out = (true, None) →
  run_attempt prompt a w
  = (inr (Return (key, out, None, false)),
     w ++ [EPost (request_of cfg prompt)]).
Proof.
  intros Hgen Hok. rewrite attempt_body_run.
  assert (attempt_error text (generated_by cfg prompt (posts w)) = None)
    as -> by (apply attempt_error_None; eauto).
  by rewrite Hgen.
Qed.

Lemma failed_attempt_posts prompt a :
  posts (failed_attempt_log cfg retries backoff_s prompt a) = 1.
Proof.
  unfold failed_attempt_log.
  destruct (a <? retries)%Z; [|done].
  by destruct (sleep_outcome backoff_s a).
Qed.

(** What it takes for an attempt to pass on to the next one. *)
Lemma attempt_body_next_inv prompt a w last_err w' :
  run_attempt prompt a w = (inr (Next last_err), w') →
  is_Some (attempt_error text (generated_by cfg prompt (posts w)))
  ∧ ((a < retries)%Z → ∃ secs, sleep_outcome backoff_s a = inr secs)
  ∧ posts w' = S (posts w).
Proof.
  rewrite attempt_body_run.
  destruct (attempt_error _ _) as [err|]; [|done].
  destruct (Z.ltb_spec a retries).
  - destruct (sleep_outcome backoff_s a) as [e|secs]; [done|].
    intros [= <- <-]. split_and!; [eauto|eauto|].
    rewrite posts_app. simpl. lia.
  - intros [= <- <-]. split_and!; [eauto|lia|].
    rewrite posts_app. simpl. lia.
Qed.

(** The loop runs out only when every attempt fails and every sleep
    between two attempts is accepted. *)
Lemma attempts_exhausted_inv prompt n a last_err w last_err' w' :
  run_attempts prompt n a last_err w = (inr (inr last_err'), w') →
  (∀ i, i < n →
        is_Some (attempt_error text (generated_by cfg prompt (posts w + i))))
  ∧ (∀ i, i < n → (a + Z.of_nat i < retries)%Z →
          ∃ secs, sleep_outcome backoff_s (a + Z.of_nat i) = inr secs).
Proof.
  revert a last_err w. induction n as [|n IH]; intros a last_err w.
  - intros _. split; intros; lia.
  - simpl. unfold mbind, M_bind.
    destruct (run_attempt prompt a w) as [[e|[o|le]] w1] eqn:E; [done..|].
    apply attempt_body_next_inv in E as (Hfail & Hsleep & Hposts).
    intros [Hall Hsleeps]%IH. split.
    + intros [|i] Hi.
      * by rewrite Nat.add_0_r.
      * replace (posts w + S i) with (posts w1 + i) by lia. apply Hall. lia.
    + intros [|i] Hi Hlt.
      * rewrite Z.add_0_r in *. auto.
      * replace (a + Z.of_nat (S i))%Z with (a + 1 + Z.of_nat i)%Z in * by lia.
        apply Hsleeps; [lia|done].
Qed.

(** The fallback attempt. *)
Lemma try_fallback_run names icu w :
  run_fallback names icu w
  = match fallback_cfg with
    | Some fcfg =>
        let prompt := build_prompt text target_lang target_code names icu in
        (inr (match generated_by fcfg prompt (posts w) with
              | inr out =>
                  if (validate_preserved_tokens text out).1
                  then Some (key, out, None, true) else None
              | inl _ => None
              end),
         w ++ [EPost (request_of fcfg prompt)])
    | None => (inr None, w)
    end.
Proof.
  unfold try_fallback. destruct fallback_cfg as [fcfg|]; [|done].
  unfold try_except, mbind, M_bind. rewrite ollama_generate_run.
  destruct (generated_by fcfg _ (posts w)) as [e|out]; [done|].
  by destruct (validate_preserved_tokens text out) as [[] ?].
Qed.

Lemma try_fallback_total names icu w :
  ∃ r w', run_fallback names icu w = (inr r, w')
          ∧ ∀ o, r = Some o → accepted key text true o.
Proof.
  rewrite try_fallback_run. destruct fallback_cfg as [fcfg|].
  - eexists _, _. split; [done|]. intros o Ho.
    destruct (generated_by fcfg _ (posts w)) as [e|out]; [done|].
    destruct (validate_cases text out) as [E|[why E]];
      rewrite E in Ho; simplify_eq/=.
    by exists out.
  - eexists _, _. split; [done|]. intros o ?. done.
Qed.
End JobSteps.

Section JobFacts.
Context `{Unicode} `{Clock}.
Variable backend : nat → request → exn + json.
Variables (key text target_lang target_code : str).
Variables (cfg : OllamaConfig) (retries : Z) (backoff_s : float).
Variable fallback_cfg : option OllamaConfig.
Hypothesis backoff_ok : valid_backoff backoff_s retries.

Abbreviation attempt_of :=
  (attempt_body backend key text cfg retries backoff_s).
Abbreviation attempts_of := (attempts backend key text cfg retries backoff_s).
Abbreviation job_of :=
  (translate_one backend key text target_lang target_code cfg retries
                 backoff_s fallback_cfg).

Lemma attempt_body_total prompt a w :
  (0 ≤ a)%Z →
  ∃ r w', attempt_of prompt a w = (inr r, w')
          ∧ ∀ o, r = Return o → accepted key text false o.
Proof.
  intros Ha.
  destruct (attempt_error_cases text (generated backend cfg prompt (posts w)))
    as [[err Herr]|(out & Hgen & Hok)].
  - erewrite attempt_body_fail; [|intros; apply backoff_ok; lia|done].
    eexists _, _. split; [done|]. intros o ?. done.
  - erewrite attempt_body_ok by done. eexists _, _. split; [done|].
    intros o ?; simplify_eq. by exists out.
Qed.

Lemma attempts_total prompt n a last_err w :
  (0 ≤ a)%Z →
  ∃ r w', attempts_of prompt n a last_err w = (inr r, w')
          ∧ ∀ o, r = inl o → accepted key text false o.
Proof.
  revert a last_err w. induction n as [|n IH]; intros a last_err w Ha.
  - eexists _, _. split; [done|]. intros o ?. done.
  - simpl. unfold mbind, M_bind.
    destruct (attempt_body_total prompt a w Ha) as (r & w' & -> & Hr).
    destruct r as [o|last_err'].
    + eexists _, _. split; [done|]. intros ? ?; simplify_eq. auto.
    + apply IH. lia.
Qed.

(** The loop when every attempt fails: it runs out, after [n]
    requests to the primary backend, with the reason of the last
    attempt. *)
Lemma attempts_all_fail prompt n a last_err w :
  (0 ≤ a)%Z →
  (∀ i, i < n →
        is_Some (attempt_error text (generated backend cfg prompt (posts w + i)))) →
  ∃ l, attempts_of prompt n a last_err w
       = (inr (inr (match n with
                    | O => last_err
                    | S m => attempt_error text
                               (generated backend cfg prompt (posts w + m))
                    end)),
          w ++ l)
       ∧ posts l = n
       ∧ Forall (λ e, ∀ rq, e = EPost rq → rq = request_of cfg prompt) l.
Proof.
  revert a last_err w. induction n as [|n IH]; intros a last_err w Ha Hall.
  - exists []. by rewrite app_nil_r.
  - simpl. unfold mbind, M_bind.
    destruct (Hall 0) as [err Herr]; [lia|].
    rewrite Nat.add_0_r in Herr.
    rewrite (attempt_body_fail _ _ _ _ _ _ _ _ _ err);
      [|intros; apply backoff_ok; lia|done].
    assert (Hposts : posts (w ++ failed_attempt_log cfg retries backoff_s prompt a)
                     = S (posts w)).
    { rewrite posts_app, failed_attempt_posts. lia. }
    destruct (IH (a + 1)%Z (Some err) (w ++ failed_attempt_log cfg retries backoff_s prompt a))
      as (l & -> & Hl & Hrq); [lia| |].
    { intros i Hi. rewrite Hposts.
      replace (S (posts w) + i) with (posts w + S i) by lia.
      apply Hall. lia. }
    exists (failed_attempt_log cfg retries backoff_s prompt a ++ l). split_and!.
    + rewrite Hposts, app_assoc. f_equal. f_equal. f_equal.
      destruct n as [|m].
      * by rewrite Nat.add_0_r.
      * f_equal. f_equal. lia.
    + rewrite posts_app, Hl, failed_attempt_posts. lia.
    + apply Forall_app. split; [|done]. unfold failed_attempt_log.
      apply Forall_cons_2; [by intros; simplify_eq|].
      destruct (a <? retries)%Z; [|done].
      destruct (sleep_outcome backoff_s a); [done|].
      by apply Forall_singleton.
Qed.

(** The job runner returns, and what it returns is a candidate that
    passed validation or the source text. *)
Lemma translate_one_total w :
  ∃ out err fb w',
    job_of w = (inr (key, out, err, fb), w')
    ∧ (validate_preserved_tokens text out = (true, None) ∨ out = text).
Proof.
  unfold translate_one, mbind, M_bind.
  match goal with
  | |- context [attempts_of ?p ?n ?a ?e w] =>
      destruct (attempts_total p n a e w) as (r & w1 & -> & Hr); [done|]
  end.
  destruct r as [o|last_err].
  - destruct (Hr o) as (out & -> & Hok); [done|].
    eexists _, _, _, _. split; [done|]. auto.
  - match goal with
    | |- context [try_fallback _ _ _ _ _ _ ?ns ?icu w1] =>
        destruct (try_fallback_total backend key text target_lang
                    target_code fallback_cfg ns icu w1)
          as (fb & w2 & -> & Hfb)
    end.
    destruct fb as [o|].
    + destruct (Hfb o) as (out & -> & Hok); [done|].
      eexists _, _, _, _. split; [done|]. auto.
    + eexists _, _, _, _. split; [done|]. auto.
Qed.
End JobFacts.

(** * Properties of the diff engine *)

Lemma str_eqb_eq (a b : str) : str_eqb a b = true ↔ a = b.
Proof. apply bool_decide_eq_true. Qed.

Lemma dict_lookup_elem (d : dict) (k : str) (v : json) :
  dict_lookup d k = Some v → (k, v) ∈ d.
Proof.
  induction d as [|[k' v'] d IH]; simpl; [done|].
  destruct (str_eqb k' k) eqn:E.
  - apply str_eqb_eq in E as ->. intros; simplify_eq. by left.
  - intros ?. right. auto.
Qed.

Lemma dict_lookup_key (d : dict) (k : str) :
  k ∈ dict_keys d → is_Some (dict_lookup d k).
Proof.
  unfold dict_keys. induction d as [|[k' v'] d IH]; simpl.
  - by intros ?%elem_of_nil.
  - destruct (str_eqb k' k) eqn:E; [done|].
    intros [->|?]%elem_of_cons; [|auto].
    apply bool_decide_eq_false in E. done.
Qed.

Section DiffFacts.
Context `{Unicode}.

Lemma lstrip_blank t : blank t → lstrip t = [].
Proof.
  induction 1 as [|c t Hc _ IH]; simpl; [done|]. by rewrite Hc.
Qed.

Lemma lstrip_split t : ∃ ws, blank ws ∧ t = ws ++ lstrip t.
Proof.
  induction t as [|c t (ws & Hws & IH)]; simpl.
  - exists []. split; [constructor|done].
  - destruct (u_isspace c) eqn:Hc.
    + exists (c :: ws). split; [by constructor|]. simpl. by rewrite <-IH.
    + exists []. split; [constructor|done].
Qed.

Lemma strip_nil_iff t : strip t = [] ↔ blank t.
Proof.
  unfold strip, rstrip. split.
  - intros E. apply (f_equal reverse) in E.
    rewrite reverse_involutive, reverse_nil in E.
    destruct (lstrip_split (reverse (lstrip t))) as (ws & Hws & E').
    rewrite E, app_nil_r in E'. rewrite <-E' in Hws.
    unfold blank in Hws. rewrite Forall_reverse in Hws.
    destruct (lstrip_split t) as (ws' & Hws' & Et).
    rewrite Et. by apply Forall_app.
  - intros Ht. by rewrite (lstrip_blank t).
Qed.

Lemma is_blank_str_iff v :
  is_blank_str v = true ↔ ∃ t, v = JStr t ∧ blank t.
Proof.
  destruct v as [| | | |t| |]; simpl; try (split; [done|by intros (? & ? & _)]).
  rewrite str_eqb_eq, strip_nil_iff. split; [eauto|].
  by intros (? & [= <-] & ?).
Qed.

Lemma is_missing_iff target k :
  is_missing target k = true ↔
  k ≠ py "@@locale" ∧ startswith_at k = false
  ∧ (dict_lookup target k = None
     ∨ ∃ t, dict_lookup target k = Some (JStr t) ∧ blank t).
Proof.
  unfold is_missing, dict_has, dict_get.
  rewrite andb_true_iff, negb_true_iff, orb_false_iff, orb_true_iff,
    negb_true_iff, bool_decide_eq_false, is_blank_str_iff.
  unfold str_eqb. rewrite bool_decide_eq_false.
  rewrite <-eq_None_not_Some. split.
  - intros [[? ?] [?|(t & Ht & ?)]]; split_and!; auto.
    right. exists t. split; [|done].
    destruct (dict_lookup target k); by simplify_eq/=.
  - intros (? & ? & [?|(t & Ht & ?)]); split_and!; auto.
    right. exists t. by rewrite Ht.
Qed.

(** The loop appends, in order, the keys that pass the test. *)
Lemma find_missing_loop target (ks acc : list str) :
  foldl (λ missing key,
           if str_eqb key (py "@@locale") || startswith_at key
           then missing
           else if negb (dict_has target key)
                   || is_blank_str (dict_get target key)
           then missing ++ [key]
           else missing)
        acc ks
  = acc ++ filter (λ k, is_missing target k = true) ks.
Proof.
  revert acc. induction ks as [|k ks IH]; intros acc; simpl.
  - by rewrite app_nil_r.
  - rewrite IH, filter_cons.
    destruct (decide (is_missing target k = true)) as [E|E];
      unfold is_missing in E;
      destruct (str_eqb k (py "@@locale") || startswith_at k);
      destruct (negb (dict_has target k) || is_blank_str (dict_get target k));
      simpl in E; try done.
    by rewrite <-app_assoc.
Qed.

Lemma find_missing_keys_filter source target :
  find_missing_keys source target
  = filter (λ k, is_missing target k = true) (dict_keys source).
Proof. apply find_missing_loop. Qed.
End DiffFacts.

(** * Properties of the merge engine *)

Section FrameFacts.
Variable h0 : list dict.

Lemma framed_ret {A} (a : A) : framed h0 (mret a).
Proof. by intros e He. Qed.

Lemma framed_raise {A} (x : exn) : framed h0 (@raise Env A x).
Proof. by intros e He. Qed.

Lemma framed_bind {A B} (m : M Env A) (f : A → M Env B) :
  framed h0 m → (∀ a, framed h0 (f a)) → framed h0 (m ≫= f).
Proof.
  intros Hm Hf e He. unfold mbind, M_bind. specialize (Hm e He).
  destruct (m e) as [[x|a] e']; [done|]. by apply Hf.
Qed.

Lemma framed_try {A} (m : M Env A) (handler : exn → M Env A) :
  framed h0 m → (∀ x, framed h0 (handler x)) → framed h0 (try_except m handler).
Proof.
  intros Hm Hh e He. unfold try_except. specialize (Hm e He).
  destruct (m e) as [[x|a] e']; [|done]. by apply Hh.
Qed.

Lemma framed_load r : framed h0 (load r).
Proof. by intros e He. Qed.

Lemma framed_setitem k v : framed h0 (setitem (length h0) k v).
Proof.
  intros e [out He]. exists (dict_set out k v). simpl.
  rewrite He, alter_app_r_alt by done. by rewrite Nat.sub_diag.
Qed.

Lemma framed_for_each {A} (l : list A) (body : A → M Env unit) :
  (∀ x, framed h0 (body x)) → framed h0 (for_each l body).
Proof.
  intros Hbody. induction l as [|x l IH]; simpl.
  - apply framed_ret.
  - apply framed_bind; auto.
Qed.

Lemma framed_for_fold {A B} (l : list A) (acc : B) (body : B → A → M Env B) :
  (∀ acc x, framed h0 (body acc x)) → framed h0 (for_fold l acc body).
Proof.
  intros Hbody. revert acc. induction l as [|x l IH]; intros acc; simpl.
  - apply framed_ret.
  - apply framed_bind; auto.
Qed.

End FrameFacts.

Lemma load_bind {A} (r : ref) (f : dict → M Env A) (e : Env) :
  (load r ≫= f) e = f (default [] (heap e !! r)) e.
Proof. done. Qed.

(** A computation that first allocates the output document. *)
Lemma extended_after_alloc {A} (alloc : M Env ref) (f : ref → M Env A)
    (e : Env) :
  (∃ d, alloc e = (inr (length (heap e)),
                   {| heap := heap e ++ [d]; files := files e;
                      opened := opened e |})) →
  framed (heap e) (f (length (heap e))) →
  extended (heap e) ((alloc ≫= f) e).2.
Proof.
  intros [d Hd] Hf. unfold mbind, M_bind. rewrite Hd.
  apply Hf. by exists d.
Qed.

Ltac framed_auto :=
  repeat first
    [ apply framed_ret
    | apply framed_raise
    | apply framed_load
    | apply framed_setitem
    | apply framed_bind; [|intros ?]
    | apply framed_try; [|intros ?]
    | apply framed_for_each; intros ?
    | apply framed_for_fold; intros ? ?
    | match goal with
      | |- framed _ (match ?x with _ => _ end) => destruct x
      end ].

(** * The validator and the token extractor: the claims *)

(** C5: validating a candidate equal to the source text verbatim always
    passes: for every source string [s],
    [validate_preserved_tokens s s] is [(True, None)]. *)
Theorem validate_identity `{Unicode} (s : str) :
  validate_preserved_tokens s s = (true, None).
Proof.
  unfold validate_preserved_tokens.
  assert (first_missing (extract_placeholder_names s) s = None) as ->.
  { apply first_missing_None. apply extract_token_occurs. }
  by rewrite andb_negb_r.
Qed.

(** C9: when the source has no protected name and no ICU block, the
    validator accepts every candidate whatsoever, the empty string
    included. *)
Theorem validate_no_tokens `{Unicode} (s c : str) :
  extract_placeholder_names s = [] →
  has_icu_block s = false →
  validate_preserved_tokens s c = (true, None).
Proof.
  intros Hnames Hicu. unfold validate_preserved_tokens.
  by rewrite Hnames, Hicu.
Qed.

(** C10: validation is monotone under extension of the candidate: when
    [c] passes against [s], so does [c ++ t], whatever [t] adds (extra
    placeholder names included). *)
Theorem validate_app `{Unicode} (s c t : str) :
  validate_preserved_tokens s c = (true, None) →
  validate_preserved_tokens s (c ++ t) = (true, None).
Proof.
  unfold validate_preserved_tokens.
  destruct (first_missing _ c) eqn:Hc; [done|].
  assert (first_missing (extract_placeholder_names s) (c ++ t) = None) as ->.
  { apply first_missing_None. intros n Hn. apply token_occurs_app.
    by eapply first_missing_None in Hc. }
  destruct (has_icu_block s); [|done]. simpl.
  destruct (has_icu_block c) eqn:Hicu; [|done].
  by rewrite has_icu_block_app.
Qed.

(** C6 (amended): when a protected name [n] of the source occurs in the
    candidate neither as [{n}] nor as [{n], optional white space and a
    comma, validation fails, and the reason names the first name of the
    sorted list that is missing in this sense: a name [m] not after [n],
    and [n] itself when no earlier name is missing. *)
Theorem validate_missing_token `{Unicode} (s c n : str) :
  n ∈ extract_placeholder_names s →
  ¬ token_occurs n c →
  ∃ m, m ∈ extract_placeholder_names s
       ∧ ¬ token_occurs m c
       ∧ str_le m n
       ∧ (∀ m', m' ∈ extract_placeholder_names s →
                ¬ token_occurs m' c → str_le m m')
       ∧ ((∀ m', m' ∈ extract_placeholder_names s → str_lt m' n →
                 token_occurs m' c) → m = n)
       ∧ validate_preserved_tokens s c = (false, Some (missing_msg m)).
Proof.
  intros Hn Hmiss. unfold validate_preserved_tokens.
  destruct (first_missing _ c) as [why|] eqn:Hc.
  - apply first_missing_Some in Hc as (l1 & m & l2 & Hnames & Hl1 & Hm & ->).
    pose proof (sorted_strict (extract_names_set s)) as Hsorted.
    fold (extract_placeholder_names s) in Hsorted. rewrite Hnames in *.
    assert (Hleast : ∀ m', m' ∈ l1 ++ m :: l2 → ¬ token_occurs m' c →
                           str_le m m').
    { intros m' [?|[->|?]%elem_of_cons]%elem_of_app Hm'.
      - destruct Hm'. auto.
      - apply str_le_refl.
      - apply StronglySorted_app_1_r, StronglySorted_cons in Hsorted
          as [Hall _].
        by eapply Forall_forall in Hall as [? _]. }
    assert (Hin : m ∈ l1 ++ m :: l2).
    { apply elem_of_app. right. by left. }
    exists m. split_and!; auto.
    intros Hbefore. destruct (decide (m = n)) as [|Hne]; [done|].
    destruct Hm. apply Hbefore; [done|]. split; auto.
  - destruct Hmiss. by eapply first_missing_None in Hc.
Qed.

(** * The job runner: the claims *)

(** X1: the job runner returns for every backend and every job, provided
    the backoff is valid, that is [time.sleep] accepts the sleep after
    each of the attempts [0] to [retries - 1]: no exception escapes, and
    the outcome text is a candidate that passed validation or the source
    text. *)
Theorem translate_one_returns `{Unicode} `{Clock}
    (backend : nat → request → exn + json)
    (key text target_lang target_code : str) (cfg : OllamaConfig)
    (retries : Z) (backoff_s : float) (fallback_cfg : option OllamaConfig) :
  valid_backoff backoff_s retries →
  ∃ out err fb w',
    translate_one backend key text target_lang target_code cfg retries
                  backoff_s fallback_cfg []
    = (inr (key, out, err, fb), w')
    ∧ (validate_preserved_tokens text out = (true, None) ∨ out = text).
Proof. intros Hb. by apply translate_one_total. Qed.

(** X3: the retry budget is exhausted, that is the [for] loop of
    [translate_one] runs out, exactly when every primary attempt fails
    and the backoff is valid: [time.sleep] accepts the sleep after each
    of the attempts [0] to [retries - 1]. *)
Lemma primary_exhausted_iff `{Unicode} `{Clock}
    (backend : nat → request → exn + json)
    (key text : str) (cfg : OllamaConfig) (retries : Z) (backoff_s : float)
    (prompt : str) :
  let n := Z.to_nat (retries + 1) in
  (∃ last_err w,
     attempts backend key text cfg retries backoff_s prompt n 0 None []
     = (inr (inr last_err), w))
  ↔ valid_backoff backoff_s retries
    ∧ ∀ i, i < n →
           is_Some (attempt_error text (generated backend cfg prompt i)).
Proof.
  intros n. split.
  - intros (last_err & w & [Hall Hsleep]%attempts_exhausted_inv).
    split; [|done]. intros a Ha.
    specialize (Hsleep (Z.to_nat a)). rewrite Z.add_0_l, Z2Nat.id in Hsleep.
    + apply Hsleep; lia.
    + lia.
  - intros [Hb Hall].
    destruct (attempts_all_fail backend key text cfg retries backoff_s Hb
                prompt n 0 None []) as (l & -> & _); [done|done|]. eauto.
Qed.

(** C2 (amended): when every primary attempt fails, [time.sleep] accepts
    the sleep after each of the attempts [0] to [retries - 1], and the
    fallback attempt (if a fallback is configured) fails too, the job
    returns the source text with [used_fallback = False], and the error
    recorded is the reason of the last failing primary attempt ([None]
    when the budget allows no primary attempt).  The reason of the
    fallback attempt is not recorded. *)
Theorem translate_one_all_fail `{Unicode} `{Clock}
    (backend : nat → request → exn + json)
    (key text target_lang target_code : str) (cfg : OllamaConfig)
    (retries : Z) (backoff_s : float) (fallback_cfg : option OllamaConfig) :
  let prompt :=
    build_prompt text target_lang target_code
                 (extract_placeholder_names text) (has_icu_block text) in
  let n := Z.to_nat (retries + 1) in
  valid_backoff backoff_s retries →
  (∀ i, i < n →
        is_Some (attempt_error text (generated backend cfg prompt i))) →
  (∀ fcfg, fallback_cfg = Some fcfg →
           is_Some (attempt_error text (generated backend fcfg prompt n))) →
  (translate_one backend key text target_lang target_code cfg retries
                 backoff_s fallback_cfg []).1
  = inr (key, text,
         match n with
         | O => None
         | S m => attempt_error text (generated backend cfg prompt m)
         end,
         false).
Proof.
  intros prompt n Hb Hprimary Hfallback.
  unfold translate_one, mbind, M_bind. fold prompt. fold n.
  destruct (attempts_all_fail backend key text cfg retries backoff_s Hb
              prompt n 0 None []) as (l & -> & Hl & _); [done|done|].
  rewrite try_fallback_run. simpl.
  destruct fallback_cfg as [fcfg|]; [|done]. simpl. fold prompt.
  rewrite Hl. destruct (Hfallback fcfg eq_refl) as [err Herr].
  destruct (generated backend fcfg prompt n) as [e|out]; [done|].
  simpl in Herr.
  by destruct (validate_preserved_tokens text out) as [[] ?].
Qed.

(** C4: when the primary retry budget is exhausted, that is the [for]
    loop of [translate_one] runs out, and a fallback backend is
    configured, the job sends exactly one request to the fallback
    backend, after the [retries + 1] requests to the primary one; the
    text it generates is the outcome, with [used_fallback = True] and no
    error, if and only if it passes [validate_preserved_tokens] against
    the source text; otherwise the outcome is the source text. *)
Theorem translate_one_fallback `{Unicode} `{Clock}
    (backend : nat → request → exn + json)
    (key text target_lang target_code : str) (cfg : OllamaConfig)
    (retries : Z) (backoff_s : float) (fcfg : OllamaConfig) :
  let prompt :=
    build_prompt text target_lang target_code
                 (extract_placeholder_names text) (has_icu_block text) in
  let n := Z.to_nat (retries + 1) in
  let run :=
    translate_one backend key text target_lang target_code cfg retries
                  backoff_s (Some fcfg) [] in
  (∃ last_err w,
     attempts backend key text cfg retries backoff_s prompt n 0 None []
     = (inr (inr last_err), w)) →
  (∃ l, run.2 = l ++ [EPost (request_of fcfg prompt)]
        ∧ posts l = n
        ∧ Forall (λ e, ∀ rq, e = EPost rq → rq = request_of cfg prompt) l)
  ∧ (∀ out, run.1 = inr (key, out, None, true)
            ↔ generated backend fcfg prompt n = inr out
              ∧ validate_preserved_tokens text out = (true, None))
  ∧ ((∀ out, generated backend fcfg prompt n = inr out →
             validate_preserved_tokens text out ≠ (true, None)) →
     ∃ err, run.1 = inr (key, text, err, false)).
Proof.
  intros prompt n run (last_err & w & Hout). subst run.
  assert (Hb : valid_backoff backoff_s retries).
  { apply attempts_exhausted_inv in Hout as [_ Hsleep]. intros a Ha.
    specialize (Hsleep (Z.to_nat a)). rewrite Z.add_0_l, Z2Nat.id in Hsleep.
    - apply Hsleep; lia.
    - lia. }
  assert (Hprimary : ∀ i, i < n →
            is_Some (attempt_error text (generated backend cfg prompt i))).
  { by apply attempts_exhausted_inv in Hout as [Hall _]. }
  clear Hout.
  unfold translate_one, mbind, M_bind. fold prompt. fold n.
  destruct (attempts_all_fail backend key text cfg retries backoff_s Hb
              prompt n 0 None []) as (l & -> & Hl & Hrq); [done|done|].
  rewrite try_fallback_run. simpl. fold prompt. rewrite Hl.
  split.
  { exists l. split_and!; try done.
    destruct (generated backend fcfg prompt n) as [e|out]; [done|].
    by destruct (validate_preserved_tokens text out).1. }
  destruct (generated backend fcfg prompt n) as [e|out]; simpl.
  - split; [|eauto]. intros out. split; [done|]. by intros [? _].
  - destruct (validate_cases text out) as [E|[why E]]; rewrite E; simpl.
    + split.
      * intros out'. split; [intros; by simplify_eq|].
        intros [? _]. by simplify_eq.
      * intros Hno. by destruct (Hno out).
    + split; [|eauto]. intros out'. split; [done|].
      intros [? E']. simplify_eq. by rewrite E in E'.
Qed.

(** * The diff engine and the merge engine: the claims *)

(** C8: [translate_locale] never mutates the source document: whatever
    the target data, the missing keys, the backend, the completion order
    and the arguments, and whether it returns or raises, every object
    that was in the heap before the call ([source_data] and
    [target_data] among them) is the same after it; the only change to
    the heap is one new object, the output document. *)
Theorem translate_locale_frame `{Unicode} `{Clock}
    (backend : str → nat → request → exn + json)
    (as_completed : list (str * str) → list (str * str))
    (writable : str → bool)
    (source_data target_data : ref)
    (target_locale target_lang target_code out_path : str)
    (args : Args) (missing_keys : option (list str)) (env : Env) :
  let env' :=
    (translate_locale backend as_completed writable source_data target_data
       target_locale target_lang target_code out_path args missing_keys
       env).2 in
  (∃ out_data, heap env' = heap env ++ [out_data])
  ∧ ∀ r, r < length (heap env) → heap env' !! r = heap env !! r.
Proof.
  intros env'.
  assert (Hext : extended (heap env) env').
  { subst env'. unfold translate_locale. cbv zeta.
    rewrite load_bind. apply extended_after_alloc.
    { destruct (default [] (heap env !! target_data)); by eexists. }
    framed_auto.
    - by intros e He.
    - intros e He. unfold write_json. by destruct (writable out_path). }
  split; [done|]. intros r Hr. destruct Hext as [out ->].
  by rewrite lookup_app_l.
Qed.

(** C7 (amended): [find_missing_keys source target] returns, in the
    order of the source, exactly the keys of [source] that are neither
    [@@locale] nor [@]-prefixed and that are absent from [target] or
    mapped in [target] to an empty or whitespace-only string.  For the
    target [{}] it returns every key of [source] that is not
    [@]-prefixed, hence every translatable key.  For a target identical
    to the source it returns the keys whose text is empty or
    whitespace-only, and so the empty list when the source has no such
    text. *)
Theorem find_missing_keys_spec `{Unicode} :
  (∀ source target k,
     k ∈ find_missing_keys source target ↔
     k ∈ dict_keys source ∧ k ≠ py "@@locale" ∧ startswith_at k = false
     ∧ (dict_lookup target k = None
        ∨ ∃ t, dict_lookup target k = Some (JStr t) ∧ blank t))
  ∧ (∀ source target,
       find_missing_keys source target `sublist_of` dict_keys source)
  ∧ (∀ source,
       find_missing_keys source []
       = filter (λ k, startswith_at k = false) (dict_keys source))
  ∧ (∀ source k v,
       (k, v) ∈ source → is_translatable_entry k v = true →
       k ∈ find_missing_keys source [])
  ∧ (∀ source k,
       k ∈ find_missing_keys source source ↔
       k ∈ dict_keys source ∧ startswith_at k = false
       ∧ ∃ t, dict_lookup source k = Some (JStr t) ∧ blank t)
  ∧ (∀ source,
       (∀ k t, (k, JStr t) ∈ source → ¬ blank t) →
       find_missing_keys source source = []).
Proof.
  assert (Hmem : ∀ source target k,
     k ∈ find_missing_keys source target ↔
     k ∈ dict_keys source ∧ k ≠ py "@@locale" ∧ startswith_at k = false
     ∧ (dict_lookup target k = None
        ∨ ∃ t, dict_lookup target k = Some (JStr t) ∧ blank t)).
  { intros source target k.
    rewrite find_missing_keys_filter, list_elem_of_filter, is_missing_iff.
    tauto. }
  assert (Hempty : ∀ source,
       find_missing_keys source []
       = filter (λ k, startswith_at k = false) (dict_keys source)).
  { intros source. rewrite find_missing_keys_filter.
    apply list_filter_iff. intros k. rewrite is_missing_iff. simpl.
    split; [tauto|]. intros Hk. split_and!; auto.
    intros ->. done. }
  split_and!; try done.
  - intros source target. rewrite find_missing_keys_filter.
    apply sublist_filter.
  - intros source k v Hkv Htr. rewrite Hempty.
    apply list_elem_of_filter. split.
    + unfold is_translatable_entry in Htr.
      destruct (startswith_at k); [|done].
      by rewrite orb_true_r in Htr.
    + unfold dict_keys. by apply (list_elem_of_fmap_2 fst) in Hkv.
  - intros source k. rewrite Hmem. split.
    + intros (Hk & _ & ? & [E|?]); [|done].
      apply dict_lookup_key in Hk. rewrite E in Hk. by destruct Hk.
    + intros (? & Hat & ?). split_and!; auto. intros ->. done.
  - intros source Hsrc. rewrite find_missing_keys_filter.
    apply filter_nil_elem. intros k Hk.
    rewrite is_missing_iff. intros (_ & _ & [E|(t & Ht & Hblank)]).
    + apply dict_lookup_key in Hk. rewrite E in Hk. by destruct Hk.
    + apply dict_lookup_elem in Ht. by destruct (Hsrc k t).
Qed.

(** * Concrete runs *)

Section Examples.
#[local] Existing Instance ascii_tables.
#[local] Existing Instance cpython_clock.

Ltac compute_elem :=
  match goal with
  | |- ?P => apply (bool_decide_unpack P); vm_compute; exact I
  end.

(** X2: on the probe string the extractor returns exactly [count] and
    finds an ICU block; for every string the list it returns is sorted
    and duplicate-free, and every name in it has an occurrence that is
    the variable of an ICU block or a bare placeholder whose brace does
    not follow [=N] or a plural category ([zero], [one], [two], [few],
    [many], [other]): the brace of such a case label is never what
    reports a name. *)
Theorem extract_placeholder_names_icu :
  (extract_placeholder_names probe = [py "count"]
   ∧ has_icu_block probe = true)
  ∧ ∀ (U : Unicode) (s : str),
      StronglySorted str_lt (@extract_placeholder_names U s)
      ∧ NoDup (@extract_placeholder_names U s)
      ∧ ∀ n, n ∈ @extract_placeholder_names U s →
             ∃ i, @match_at U ICU_VAR_RE s i (Some n)
                  ∨ (i ≤ length s
                     ∧ (∃ rest, drop i s
                                = [chr "{"] ++ n ++ [chr "}"] ++ rest)
                     ∧ ¬ @ends_with_label U (take i s)).
Proof.
  split; [by vm_compute|]. intros U s. split_and!.
  - apply sorted_strict.
  - apply sorted_NoDup.
  - apply extract_not_label.
Qed.

(** In [other{files} {count}] the name [count] is reported by the bare
    placeholder at the end; [files] follows a case label. *)
Lemma extract_placeholder_names_icu_witness :
  ∃ i, match_at ICU_VAR_RE (py "other{files} {count}") i (Some (py "count"))
       ∨ (i ≤ length (py "other{files} {count}")
          ∧ (∃ rest, drop i (py "other{files} {count}")
                     = [chr "{"] ++ py "count" ++ [chr "}"] ++ rest)
          ∧ ¬ ends_with_label (take i (py "other{files} {count}"))).
Proof.
  apply (proj2 extract_placeholder_names_icu ascii_tables
               (py "other{files} {count}")).
  compute_elem.
Defined.

(** The brace after [=0] and after [other] reports nothing. *)
Example extract_skips_plural_labels :
  extract_placeholder_names
    (py "{n, plural, =0{none} one{{n} file} other {files}}")
  = [py "n"].
Proof. by vm_compute. Qed.

(** C3 (code bug): the case labels of an ICU [select] block are
    keywords of the message's own ([male], [female]); the extractor only
    knows [=N] and the plural categories, so the braces that follow the
    other labels are reported as placeholder names: here [he] and [she],
    beside the variable [gender]. *)
Theorem extract_reports_select_labels :
  extract_placeholder_names select_message
  = [py "gender"; py "he"; py "she"].
Proof. by vm_compute. Qed.

(** A translation of the same message that keeps the ICU structure is
    then rejected. *)
Example validate_rejects_translated_select :
  validate_preserved_tokens select_message
    (py "{gender, select, male{il} female{elle} other{ils}}")
  = (false, Some (py "Missing placeholder: {he}")).
Proof. by vm_compute. Qed.

(** The empty candidate passes against a text without tokens. *)
Lemma validate_no_tokens_witness :
  validate_preserved_tokens (py "Hello") [] = (true, None).
Proof.
  apply (validate_no_tokens (py "Hello") []); by vm_compute.
Defined.

(** A candidate extended with a placeholder the source does not have. *)
Lemma validate_app_witness :
  validate_preserved_tokens (py "Hello {name}!")
    (py "Bonjour {name} !" ++ py " {extra}")
  = (true, None).
Proof.
  apply (validate_app (py "Hello {name}!")). by vm_compute.
Defined.

(** Against [{a} {b}] the candidate [x] lacks both names; the reason
    names the first. *)
Lemma validate_missing_token_witness :
  ∃ m, m ∈ extract_placeholder_names (py "{a} {b}")
       ∧ ¬ token_occurs m (py "x")
       ∧ str_le m (py "b")
       ∧ (∀ m', m' ∈ extract_placeholder_names (py "{a} {b}") →
                ¬ token_occurs m' (py "x") → str_le m m')
       ∧ ((∀ m', m' ∈ extract_placeholder_names (py "{a} {b}") →
                 str_lt m' (py "b") → token_occurs m' (py "x")) →
          m = py "b")
       ∧ validate_preserved_tokens (py "{a} {b}") (py "x")
         = (false, Some (missing_msg m)).
Proof.
  apply (validate_missing_token (py "{a} {b}") (py "x") (py "b")).
  - compute_elem.
  - apply token_search_None. by vm_compute.
Defined.

(** C6 as stated fails twice.  The candidate [{a ,] contains neither
    [{a}] nor [{a,], and passes; and against the source [{a} {b}] the
    empty candidate lacks [b], but the reason names [a]. *)
Lemma validate_missing_token_counterexample :
  (py "a" ∈ extract_placeholder_names (py "{a}")
   ∧ str_contains (py "{a ,") (py "{a}") = false
   ∧ str_contains (py "{a ,") (py "{a,") = false
   ∧ validate_preserved_tokens (py "{a}") (py "{a ,") = (true, None))
  ∧ (py "b" ∈ extract_placeholder_names (py "{a} {b}")
     ∧ str_contains [] (py "{b}") = false
     ∧ str_contains [] (py "{b,") = false
     ∧ validate_preserved_tokens (py "{a} {b}") []
       = (false, Some (missing_msg (py "a")))
     ∧ missing_msg (py "a") ≠ missing_msg (py "b")).
Proof.
  split_and!; try (by vm_compute); compute_elem.
Qed.

(** C1 (code bug): the job for the text [Hello], against a backend that
    answers with an empty text, returns the empty string as the outcome
    text, with no error: an empty candidate passes the validator when
    the source has no protected token, and [translate_one] has no other
    check. *)
Theorem translate_one_empty_outcome :
  (translate_one empty_backend (py "greeting") (py "Hello")
                 (py "French") (py "fr") example_cfg 2 (6 # 10) None []).1
  = inr (py "greeting", [], None, false).
Proof. by vm_compute. Qed.

(** A job whose every attempt fails returns all the same. *)
Lemma translate_one_returns_witness :
  ∃ out err fb w',
    translate_one dropping_backend (py "greeting") (py "Hello {name}!")
                  (py "French") (py "fr") example_cfg 2 (6 # 10)
                  (Some example_fallback_cfg) []
    = (inr (py "greeting", out, err, fb), w')
    ∧ (validate_preserved_tokens (py "Hello {name}!") out = (true, None)
       ∨ out = py "Hello {name}!").
Proof.
  apply (translate_one_returns dropping_backend).
  apply valid_backoff_check. vm_compute. reflexivity.
Defined.

(** X4: a negative backoff is outside these guarantees: [time.sleep] raises
    in the handler of the first failed attempt, and the exception leaves
    [translate_one]. *)
Example translate_one_negative_backoff :
  (translate_one dropping_backend (py "greeting") (py "Hello {name}!")
                 (py "French") (py "fr") example_cfg 2 (-6 # 10) None []).1
  = inl (Raise (py "ValueError") (py "sleep length must be non-negative")).
Proof. by vm_compute. Qed.

(** Three failing primary attempts and a fallback that times out. *)
Lemma translate_one_all_fail_witness :
  (translate_one dropping_backend (py "greeting") (py "Hello {name}!")
                 (py "French") (py "fr") example_cfg 2 (6 # 10)
                 (Some example_fallback_cfg) []).1
  = inr (py "greeting", py "Hello {name}!",
         Some (py "Validation failed: Missing placeholder: {name}"), false).
Proof.
  pose proof (translate_one_all_fail dropping_backend (py "greeting")
                (py "Hello {name}!") (py "French") (py "fr") example_cfg 2
                (6 # 10) (Some example_fallback_cfg)) as Hthm.
  cbv zeta in Hthm. rewrite Hthm; clear Hthm.
  - vm_compute. reflexivity.
  - apply valid_backoff_check. vm_compute. reflexivity.
  - intros i _. vm_compute. eauto.
  - intros fcfg [= <-]. vm_compute. eauto.
Defined.

(** C2 as stated fails: the fallback attempt is the last failing
    attempt, its reason is the transport error, and the error recorded
    is the validation failure of the last primary attempt. *)
Lemma translate_one_all_fail_counterexample :
  attempt_error (py "Hello {name}!")
    (generated dropping_backend example_cfg
       (build_prompt (py "Hello {name}!") (py "French") (py "fr")
                     [py "name"] false) 0)
  = Some (py "Validation failed: Missing placeholder: {name}")
  ∧ attempt_error (py "Hello {name}!")
    (generated dropping_backend example_fallback_cfg
       (build_prompt (py "Hello {name}!") (py "French") (py "fr")
                     [py "name"] false) 1)
  = Some (py "<urlopen error timed out>")
  ∧ (translate_one dropping_backend (py "greeting") (py "Hello {name}!")
                   (py "French") (py "fr") example_cfg 0 (6 # 10)
                   (Some example_fallback_cfg) []).1
    = inr (py "greeting", py "Hello {name}!",
           Some (py "Validation failed: Missing placeholder: {name}"),
           false)
  ∧ Some (py "Validation failed: Missing placeholder: {name}")
    ≠ Some (py "<urlopen error timed out>").
Proof. split_and!; by vm_compute. Qed.

(** The fallback keeps the placeholder and its text is accepted. *)
Lemma translate_one_fallback_witness :
  (translate_one rescued_backend (py "greeting") (py "Hello {name}!")
                 (py "French") (py "fr") example_cfg 2 (6 # 10)
                 (Some example_fallback_cfg) []).1
  = inr (py "greeting", py "Bonjour {name} !", None, true).
Proof.
  pose proof (translate_one_fallback rescued_backend (py "greeting")
                (py "Hello {name}!") (py "French") (py "fr") example_cfg 2
                (6 # 10) example_fallback_cfg) as Hthm.
  cbv zeta in Hthm. destruct Hthm as (_ & Hiff & _).
  - eexists _, _. vm_compute. reflexivity.
  - apply Hiff. vm_compute. auto.
Defined.

(** A document without empty texts, compared with itself. *)
Lemma find_missing_keys_spec_witness :
  find_missing_keys doc_plain doc_plain = [].
Proof.
  apply (proj2 (proj2 (proj2 (proj2 (proj2 find_missing_keys_spec))))).
  intros k t Hin Hblank. apply strip_nil_iff in Hblank.
  repeat (apply elem_of_cons in Hin as [[= -> ->]|Hin]);
    try (by vm_compute in Hblank).
  by apply elem_of_nil in Hin.
Defined.

(** C7 as stated fails: a target identical to a source that holds an
    empty text is not complete. *)
Lemma find_missing_keys_spec_counterexample :
  find_missing_keys doc_with_blank doc_with_blank = [py "note"]
  ∧ [py "note"] ≠ @nil str.
Proof. split; by vm_compute. Qed.

(** The diff engine on an empty target: every key that is not
    [@]-prefixed. *)
Example find_missing_keys_empty_target :
  find_missing_keys doc_plain [] = [py "greeting"].
Proof. by vm_compute. Qed.

(** A full run over [doc_plain] as source and an empty target: the
    source object is what it was. *)
Lemma translate_locale_frame_witness :
  let env := {| heap := [doc_plain; []]; files := []; opened := [] |} in
  heap (translate_locale (λ _, rescued_backend) id (λ _, true) 0 1
          (py "fr") (py "French") (py "fr") (py "lib/l10n/app_fr.arb")
          example_args None env).2 !! 0
  = Some doc_plain.
Proof.
  intros env.
  rewrite (proj2 (translate_locale_frame (λ _, rescued_backend) id
                    (λ _, true) 0 1 (py "fr") (py "French") (py "fr")
                    (py "lib/l10n/app_fr.arb") example_args None env) 0).
  - done.
  - simpl. lia.
Defined.
End Examples.

(** * The job runner: requests, sleeps and outcomes *)

Section JobLog.
Context `{Unicode} `{Clock}.
Variable backend : nat → request → exn + json.
Variables (key text target_lang target_code : str).
Variables (cfg : OllamaConfig) (retries : Z) (backoff_s : float).
Variable fallback_cfg : option OllamaConfig.

Abbreviation body_of := (attempt_body backend key text cfg retries backoff_s).
Abbreviation loop_of := (attempts backend key text cfg retries backoff_s).
Abbreviation job_of :=
  (translate_one backend key text target_lang target_code cfg retries
                 backoff_s fallback_cfg).
Abbreviation failed_at prompt i :=
  (is_Some (attempt_error text (generated backend cfg prompt i))).
Abbreviation slept_after a :=
  (∃ secs, sleep_outcome backoff_s a = inr secs).

Lemma posts_retry_log prompt k a :
  posts (retry_log cfg backoff_s prompt k a) = k.
Proof.
  revert a. induction k as [|k IH]; intros a; simpl; [done|].
  rewrite posts_app, IH. by destruct (sleep_outcome backoff_s a).
Qed.

Lemma retry_log_S prompt k a secs :
  sleep_outcome backoff_s a = inr secs →
  retry_log cfg backoff_s prompt (S k) a
  = [EPost (request_of cfg prompt); ESleep secs]
      ++ retry_log cfg backoff_s prompt k (a + 1).
Proof. intros E. simpl. by rewrite E. Qed.

(** How the loop ends, and what it has logged then: [k] failed attempts
    with their sleeps, and the request of the attempt that ended it. *)
Lemma attempts_shape prompt n :
  ∀ a last_err w r w',
    n = 0 ∨ (a + Z.of_nat n ≤ retries + 1)%Z →
    loop_of prompt n a last_err w = (r, w') →
    ∃ k tail,
      w' = w ++ retry_log cfg backoff_s prompt k a ++ tail
      ∧ (∀ i, i < k →
              failed_at prompt (posts w + i)
              ∧ (a + Z.of_nat i < retries)%Z
              ∧ slept_after (a + Z.of_nat i)%Z)
      ∧ match r with
        | inl e =>
            k < n ∧ tail = [EPost (request_of cfg prompt)]
            ∧ failed_at prompt (posts w + k)
            ∧ (a + Z.of_nat k < retries)%Z
            ∧ sleep_outcome backoff_s (a + Z.of_nat k) = inl e
        | inr (inl o) =>
            k < n ∧ tail = [EPost (request_of cfg prompt)]
            ∧ ∃ out, o = (key, out, None, false)
                     ∧ generated backend cfg prompt (posts w + k) = inr out
                     ∧ validate_preserved_tokens text out = (true, None)
        | inr (inr _) =>
            (k = n ∧ tail = [])
            ∨ (n = S k ∧ tail = [EPost (request_of cfg prompt)]
               ∧ failed_at prompt (posts w + k))
        end.
Proof.
  induction n as [|n IH]; intros a last_err w r w' Hn.
  - simpl. intros [= <- <-]. exists 0, []. simpl.
    rewrite app_nil_r. split_and!; [done|intros; lia|by left].
  - destruct Hn as [|Hn]; [done|].
    simpl. unfold mbind, M_bind. rewrite attempt_body_run.
    destruct (attempt_error _ _) as [err|] eqn:Herr.
    + destruct (Z.ltb_spec a retries).
      * destruct (sleep_outcome backoff_s a) as [e|secs] eqn:Hsleep.
        { intros [= <- <-]. exists 0, [EPost (request_of cfg prompt)].
          rewrite Nat.add_0_r, Z.add_0_r. simpl.
          split_and!; [done|intros; lia|lia|done|eauto|done|done]. }
        intros Hloop. apply IH in Hloop as (k & tail & -> & Hk & Hr);
          [|right; lia].
        rewrite posts_app in Hk, Hr. simpl in Hk, Hr.
        exists (S k), tail. split_and!.
        { rewrite (retry_log_S _ _ _ secs) by done.
          by rewrite <-!app_assoc. }
        { intros [|i] Hi.
          - rewrite Nat.add_0_r, Z.add_0_r. split_and!; eauto.
          - destruct (Hk i) as (Hf & Hlt & Hs); [lia|].
            replace (posts w + S i) with (posts w + 1 + i) by lia.
            replace (a + Z.of_nat (S i))%Z with (a + 1 + Z.of_nat i)%Z by lia.
            done. }
        replace (posts w + S k) with (posts w + 1 + k) by lia.
        replace (a + Z.of_nat (S k))%Z with (a + 1 + Z.of_nat k)%Z by lia.
        destruct r as [e|[o|le]].
        { destruct Hr as (? & ? & ? & ? & ?). split_and!; [lia|done..]. }
        { destruct Hr as (? & ? & ?). split_and!; [lia|done..]. }
        { destruct Hr as [[-> ->]|(-> & -> & ?)]; [by left|by right]. }
      * assert (n = 0) as -> by lia. simpl. intros [= <- <-].
        exists 0, [EPost (request_of cfg prompt)].
        rewrite Nat.add_0_r. simpl.
        split_and!; [done|intros; lia|]. right. eauto.
    + apply attempt_error_None in Herr as (out & Hgen & Hok).
      rewrite Hgen. intros [= <- <-].
      exists 0, [EPost (request_of cfg prompt)].
      rewrite Nat.add_0_r. simpl.
      split_and!; [done|intros; lia|lia|done|eauto].
Qed.

(** The log of a job: the failed attempts with their sleeps, and what
    follows them. *)
Lemma translate_one_log w :
  let prompt :=
    build_prompt text target_lang target_code
                 (extract_placeholder_names text) (has_icu_block text) in
  ∃ k tail,
    (job_of w).2 = w ++ retry_log cfg backoff_s prompt k 0 ++ tail
    ∧ k ≤ Z.to_nat retries
    ∧ (∀ i, i < k → failed_at prompt (posts w + i)
                    ∧ slept_after (Z.of_nat i))
    ∧ log_end cfg fallback_cfg prompt tail
    ∧ posts (retry_log cfg backoff_s prompt k 0 ++ tail)
      ≤ Z.to_nat (retries + 1) + (if fallback_cfg is Some _ then 1 else 0).
Proof.
  intros prompt. unfold translate_one, mbind, M_bind. fold prompt.
  destruct (loop_of prompt _ 0%Z None w) as [r w1] eqn:Hloop.
  apply attempts_shape in Hloop as (k & tail & -> & Hk & Hr); [|lia].
  assert (Hbound : k ≤ Z.to_nat retries).
  { destruct k as [|k]; [lia|]. destruct (Hk k) as (_ & ? & _); lia. }
  assert (Hfailed : ∀ i, i < k → failed_at prompt (posts w + i)
                                 ∧ slept_after (Z.of_nat i)).
  { intros i Hi. destruct (Hk i) as (? & _ & ?); done. }
  destruct r as [e|[o|last_err]].
  - destruct Hr as (? & -> & _). exists k, [EPost (request_of cfg prompt)].
    split_and!; [done|done|done|right; by left|].
    rewrite posts_app, posts_retry_log. simpl. lia.
  - destruct Hr as (? & -> & _). exists k, [EPost (request_of cfg prompt)].
    split_and!; [done|done|done|right; by left|].
    rewrite posts_app, posts_retry_log. simpl. lia.
  - rewrite try_fallback_run. fold prompt.
    destruct fallback_cfg as [fcfg|]; cbv zeta.
    + destruct (generated backend fcfg prompt _) as [e|out'];
        [|destruct (validate_preserved_tokens text out').1];
        cbn [snd mret M_ret];
      (destruct Hr as [[-> ->]|(Hn & -> & _)];
       [exists (Z.to_nat (retries + 1)), [EPost (request_of fcfg prompt)];
        rewrite app_nil_r
       |exists k, [EPost (request_of cfg prompt);
                   EPost (request_of fcfg prompt)]];
       rewrite <-!app_assoc;
       (split_and!; [done|done|done|right; right; eauto|]);
       rewrite posts_app, posts_retry_log; simpl; lia).
    + cbn [snd mret M_ret].
      destruct Hr as [[-> ->]|(Hn & -> & _)].
      * exists (Z.to_nat (retries + 1)), [].
        split_and!; [done|done|done|by left|].
        rewrite posts_app, posts_retry_log. simpl. lia.
      * exists k, [EPost (request_of cfg prompt)].
        split_and!; [done|done|done|right; by left|].
        rewrite posts_app, posts_retry_log. simpl. lia.
Qed.

(** The loop returns the text of the first attempt that is accepted,
    after the failed attempts and their sleeps. *)
Lemma attempts_first_success prompt k :
  ∀ n a last_err w out,
    k < n → (a + Z.of_nat k ≤ retries)%Z →
    (∀ i, i < k → failed_at prompt (posts w + i)
                  ∧ slept_after (a + Z.of_nat i)%Z) →
    generated backend cfg prompt (posts w + k) = inr out →
    validate_preserved_tokens text out = (true, None) →
    loop_of prompt n a last_err w
    = (inr (inl (key, out, None, false)),
       w ++ retry_log cfg backoff_s prompt k a
         ++ [EPost (request_of cfg prompt)]).
Proof.
  induction k as [|k IH]; intros n a last_err w out Hn Hk Hfail Hgen Hok.
  - destruct n as [|n]; [lia|]. simpl. unfold mbind, M_bind.
    rewrite attempt_body_run. rewrite Nat.add_0_r in Hgen.
    assert (attempt_error text (generated backend cfg prompt (posts w))
            = None) as ->.
    { apply attempt_error_None. eauto. }
    by rewrite Hgen.
  - destruct n as [|n]; [lia|]. simpl. unfold mbind, M_bind.
    rewrite attempt_body_run.
    destruct (Hfail 0) as [[err Herr] [secs Hsleep]]; [lia|].
    rewrite Nat.add_0_r in Herr. rewrite Z.add_0_r in Hsleep.
    rewrite Herr, Hsleep. destruct (Z.ltb_spec a retries); [|lia].
    erewrite IH; [|lia|lia| | |done].
    + by rewrite <-!app_assoc.
    + intros i Hi. rewrite posts_app. simpl.
      replace (posts w + 1 + i) with (posts w + S i) by lia.
      replace (a + 1 + Z.of_nat i)%Z with (a + Z.of_nat (S i))%Z by lia.
      apply Hfail. lia.
    + rewrite posts_app. simpl.
      by replace (posts w + 1 + k) with (posts w + S k) by lia.
Qed.

(** The loop raises what the sleep after the first attempt whose sleep
    is refused raises. *)
Lemma attempts_raise prompt k :
  ∀ n a last_err w e,
    k < n → (a + Z.of_nat k < retries)%Z →
    (∀ i, i ≤ k → failed_at prompt (posts w + i)) →
    (∀ i, i < k → slept_after (a + Z.of_nat i)%Z) →
    sleep_outcome backoff_s (a + Z.of_nat k) = inl e →
    loop_of prompt n a last_err w
    = (inl e, w ++ retry_log cfg backoff_s prompt k a
                ++ [EPost (request_of cfg prompt)]).
Proof.
  induction k as [|k IH]; intros n a last_err w e Hn Hk Hfail Hslept Hsleep.
  - destruct n as [|n]; [lia|]. simpl. unfold mbind, M_bind.
    rewrite attempt_body_run. rewrite Z.add_0_r in Hsleep, Hk.
    destruct (Hfail 0) as [err Herr]; [lia|].
    rewrite Nat.add_0_r in Herr. rewrite Herr, Hsleep.
    by destruct (Z.ltb_spec a retries); [|lia].
  - destruct n as [|n]; [lia|]. simpl. unfold mbind, M_bind.
    rewrite attempt_body_run.
    destruct (Hfail 0) as [err Herr]; [lia|].
    destruct (Hslept 0) as [secs Hs]; [lia|].
    rewrite Nat.add_0_r in Herr. rewrite Z.add_0_r in Hs.
    rewrite Herr, Hs. destruct (Z.ltb_spec a retries); [|lia].
    erewrite (IH _ _ _ _ e); [|lia|lia| | |].
    + by rewrite <-!app_assoc.
    + intros i Hi. rewrite posts_app. simpl.
      replace (posts w + 1 + i) with (posts w + S i) by lia.
      apply Hfail. lia.
    + intros i Hi.
      replace (a + 1 + Z.of_nat i)%Z with (a + Z.of_nat (S i))%Z by lia.
      apply Hslept. lia.
    + by replace (a + 1 + Z.of_nat k)%Z with (a + Z.of_nat (S k))%Z by lia.
Qed.

(** What the loop yields when it ends without an exception. *)
Lemma attempts_result prompt n a last_err w r w' :
  loop_of prompt n a last_err w = (inr r, w') →
  match r with
  | inl o => accepted key text false o
  | inr last_err' => (n = 0 ∧ last_err' = last_err) ∨ is_Some last_err'
  end.
Proof.
  revert a last_err w. induction n as [|n IH]; intros a last_err w.
  - simpl. intros [= <- <-]. by left.
  - simpl. unfold mbind, M_bind. rewrite attempt_body_run.
    destruct (attempt_error _ _) as [err|] eqn:Herr.
    + assert (Hnext : ∀ w1,
                loop_of prompt n (a + 1)%Z (Some err) w1 = (inr r, w') →
                match r with
                | inl o => accepted key text false o
                | inr last_err' =>
                    (S n = 0 ∧ last_err' = last_err) ∨ is_Some last_err'
                end).
      { intros w1 Hrun%IH. destruct r as [o|last_err']; [done|].
        right. destruct Hrun as [[_ ->]|?]; eauto. }
      destruct (a <? retries)%Z; [|by apply Hnext].
      destruct (sleep_outcome backoff_s a); [done|by apply Hnext].
    + apply attempt_error_None in Herr as (out & -> & Hok).
      intros [= <- <-]. by exists out.
Qed.

Lemma translate_one_first_success_run k out :
  let prompt :=
    build_prompt text target_lang target_code
                 (extract_placeholder_names text) (has_icu_block text) in
  (Z.of_nat k ≤ retries)%Z →
  (∀ i, i < k → failed_at prompt i ∧ slept_after (Z.of_nat i)) →
  generated backend cfg prompt k = inr out →
  validate_preserved_tokens text out = (true, None) →
  job_of []
  = (inr (key, out, None, false),
     retry_log cfg backoff_s prompt k 0 ++ [EPost (request_of cfg prompt)]).
Proof.
  intros prompt Hk Hfail Hgen Hok.
  unfold translate_one, mbind, M_bind. fold prompt.
  by rewrite (attempts_first_success prompt k _ 0%Z None [] out)
    by (done || lia).
Qed.

(** When and how the job raises. *)
Lemma translate_one_raises e w' :
  let prompt :=
    build_prompt text target_lang target_code
                 (extract_placeholder_names text) (has_icu_block text) in
  job_of [] = (inl e, w')
  ↔ ∃ k : nat,
      (Z.of_nat k < retries)%Z
      ∧ (∀ i, i ≤ k → failed_at prompt i)
      ∧ (∀ i, i < k → slept_after (Z.of_nat i))
      ∧ sleep_outcome backoff_s (Z.of_nat k) = inl e
      ∧ w' = retry_log cfg backoff_s prompt k 0
               ++ [EPost (request_of cfg prompt)].
Proof.
  intros prompt. unfold translate_one, mbind, M_bind. fold prompt. split.
  - destruct (loop_of prompt _ 0%Z None []) as [r w1] eqn:Hloop.
    destruct r as [e'|[o|last_err]].
    + intros [= -> ->].
      apply attempts_shape in Hloop
        as (k & tail & -> & Hk & _ & -> & Hf & Hlt & Hsleep); [|lia].
      exists k. split_and!; [lia| |by intros i Hi; apply Hk|done|done].
      intros i Hi. destruct (decide (i = k)) as [->|]; [done|].
      apply Hk. lia.
    + done.
    + rewrite try_fallback_run. destruct fallback_cfg as [fcfg|]; [|done].
      cbv zeta. by destruct (match generated backend fcfg _ _ with
                             | inl _ => None
                             | inr out => _
                             end).
  - intros (k & Hk & Hfail & Hslept & Hsleep & ->).
    by rewrite (attempts_raise prompt k _ 0%Z None [] e) by (done || lia).
Qed.

Lemma translate_one_shape w k out err fb w' :
  job_of w = (inr (k, out, err, fb), w') →
  k = key
  ∧ (fb = true →
     is_Some fallback_cfg ∧ err = None
     ∧ validate_preserved_tokens text out = (true, None))
  ∧ (is_Some err → out = text ∧ fb = false)
  ∧ (err = None →
     validate_preserved_tokens text out = (true, None)
     ∨ (out = text ∧ fb = false ∧ retries < 0)%Z).
Proof.
  unfold translate_one, mbind, M_bind.
  destruct (loop_of _ _ 0%Z None w) as [[e|r] w1] eqn:Hloop; [done|].
  apply attempts_result in Hloop. destruct r as [o|last_err].
  - destruct Hloop as (out' & -> & Hok). intros [= <- <- <- <- <-].
    split_and!; [done|done|by intros []|auto].
  - rewrite try_fallback_run. destruct fallback_cfg as [fcfg|]; simpl.
    + destruct (generated backend fcfg _ (posts w1)) as [e|out'].
      { intros [= <- <- <- <- <-]. split_and!; [done|done|done|].
        intros ->. right. destruct Hloop as [[? _]|[]]; [|done].
        split_and!; [done|done|lia]. }
      destruct (validate_cases text out') as [E|[why E]]; rewrite E; simpl.
      * intros [= <- <- <- <- <-].
        split_and!; [done|eauto|by intros []|auto].
      * intros [= <- <- <- <- <-]. split_and!; [done|done|done|].
        intros ->. right. destruct Hloop as [[? _]|[]]; [|done].
        split_and!; [done|done|lia].
    + intros [= <- <- <- <- <-]. split_and!; [done|done|done|].
      intros ->. right. destruct Hloop as [[? _]|[]]; [|done].
      split_and!; [done|done|lia].
Qed.
End JobLog.

(** X5: whatever the backend answers and whatever the arguments, the log
    of one job is what was logged before it, then [k ≤ retries] rounds of
    a request to the primary backend and a sleep, then at most one more
    request to the primary backend and at most one request to the
    fallback backend, if one is configured.  Each of the [k] rounds is a
    failed attempt followed by its sleep: attempt [i] failed, and the
    sleep after it lasted the float product [backoff_s * (i + 1)], which
    [time.sleep] accepted.  All requests carry the prompt built from the
    source text, and there are at most [retries + 1] of them, and one
    more when a fallback backend is configured. *)
Theorem translate_one_request_bound `{Unicode} `{Clock}
    (backend : nat → request → exn + json)
    (key text target_lang target_code : str) (cfg : OllamaConfig)
    (retries : Z) (backoff_s : float) (fallback_cfg : option OllamaConfig)
    (w : World) :
  let prompt :=
    build_prompt text target_lang target_code
                 (extract_placeholder_names text) (has_icu_block text) in
  ∃ (k : nat) (tail : World),
    (translate_one backend key text target_lang target_code cfg retries
                   backoff_s fallback_cfg w).2
    = w ++ retry_log cfg backoff_s prompt k 0 ++ tail
    ∧ k ≤ Z.to_nat retries
    ∧ (∀ i, i < k →
            is_Some (attempt_error text
                       (generated backend cfg prompt (posts w + i)))
            ∧ ∃ secs, sleep_outcome backoff_s (Z.of_nat i) = inr secs)
    ∧ log_end cfg fallback_cfg prompt tail
    ∧ posts (retry_log cfg backoff_s prompt k 0 ++ tail)
      ≤ Z.to_nat (retries + 1) + (if fallback_cfg is Some _ then 1 else 0).
Proof. apply translate_one_log. Qed.

(** X6: when the attempts before attempt [k] fail, [time.sleep] accepts
    the sleep after each of them, and attempt [k], within the budget,
    generates a text that passes validation, the job returns that text
    with no error and [used_fallback = False]; it has sent [k + 1]
    requests, all to the primary backend, has slept the float product
    [backoff_s * (a + 1)] after each failed attempt [a], and has not
    consulted the fallback backend. *)
Theorem translate_one_first_success `{Unicode} `{Clock}
    (backend : nat → request → exn + json)
    (key text target_lang target_code : str) (cfg : OllamaConfig)
    (retries : Z) (backoff_s : float) (fallback_cfg : option OllamaConfig)
    (k : nat) (out : str) :
  let prompt :=
    build_prompt text target_lang target_code
                 (extract_placeholder_names text) (has_icu_block text) in
  (Z.of_nat k ≤ retries)%Z →
  (∀ i, i < k →
        is_Some (attempt_error text (generated backend cfg prompt i))
        ∧ ∃ secs, sleep_outcome backoff_s (Z.of_nat i) = inr secs) →
  generated backend cfg prompt k = inr out →
  validate_preserved_tokens text out = (true, None) →
  translate_one backend key text target_lang target_code cfg retries
                backoff_s fallback_cfg []
  = (inr (key, out, None, false),
     retry_log cfg backoff_s prompt k 0 ++ [EPost (request_of cfg prompt)]).
Proof. apply translate_one_first_success_run. Qed.

(** X7: the shapes of an outcome.  The key returned is the key of the
    job.  [used_fallback] is set only when a fallback backend is
    configured, and then the text passed validation and no error is
    recorded.  An error is recorded only beside the source text.  With no
    error recorded the text passed validation, unless the retry budget is
    negative: then no primary attempt is made, and the source text comes
    back with no error. *)
Theorem translate_one_outcome_shape `{Unicode} `{Clock}
    (backend : nat → request → exn + json)
    (key text target_lang target_code : str) (cfg : OllamaConfig)
    (retries : Z) (backoff_s : float) (fallback_cfg : option OllamaConfig)
    (w w' : World) (k out : str) (err : option str) (fb : bool) :
  translate_one backend key text target_lang target_code cfg retries
                backoff_s fallback_cfg w
  = (inr (k, out, err, fb), w') →
  k = key
  ∧ (fb = true →
     is_Some fallback_cfg ∧ err = None
     ∧ validate_preserved_tokens text out = (true, None))
  ∧ (is_Some err → out = text ∧ fb = false)
  ∧ (err = None →
     validate_preserved_tokens text out = (true, None)
     ∨ (out = text ∧ fb = false ∧ retries < 0)%Z).
Proof. apply translate_one_shape. Qed.

(** X8: an exception leaves [translate_one] exactly when the sleep after
    a failed attempt is refused: some attempt [k < retries] fails, as do
    the attempts before it, whose sleeps [time.sleep] accepted, and the
    sleep after attempt [k] raises, in the product
    [backoff_s * (k + 1)] or in [time.sleep].  The exception is the one
    the sleep raises; the job has then sent [k + 1] requests to the
    primary backend, and neither a further attempt nor the fallback is
    made. *)
Theorem translate_one_raises_iff `{Unicode} `{Clock}
    (backend : nat → request → exn + json)
    (key text target_lang target_code : str) (cfg : OllamaConfig)
    (retries : Z) (backoff_s : float) (fallback_cfg : option OllamaConfig)
    (e : exn) (w' : World) :
  let prompt :=
    build_prompt text target_lang target_code
                 (extract_placeholder_names text) (has_icu_block text) in
  translate_one backend key text target_lang target_code cfg retries
                backoff_s fallback_cfg []
  = (inl e, w')
  ↔ ∃ k : nat,
      (Z.of_nat k < retries)%Z
      ∧ (∀ i, i ≤ k →
              is_Some (attempt_error text (generated backend cfg prompt i)))
      ∧ (∀ i, i < k →
              ∃ secs, sleep_outcome backoff_s (Z.of_nat i) = inr secs)
      ∧ sleep_outcome backoff_s (Z.of_nat k) = inl e
      ∧ w' = retry_log cfg backoff_s prompt k 0
               ++ [EPost (request_of cfg prompt)].
Proof. apply translate_one_raises. Qed.

Section JobExamples.
#[local] Existing Instance ascii_tables.
#[local] Existing Instance cpython_clock.

(** The product of the backoff and the number of the attempt is a
    product of floats: [0.1 * 3] is [0.30000000000000004], not the float
    [0.3]. *)
Example sleep_length_rounds :
  sleep_length (1 # 10) 2 = inr (S754_finite false 5404319552844596 (-54))
  ∧ float_of_Q (3 # 10) = S754_finite false 5404319552844595 (-54).
Proof. split; by vm_compute. Qed.

(** A backoff of [1e30] seconds is not negative, and [time.sleep]
    refuses it: the exception leaves [translate_one] after one
    request. *)
Example translate_one_huge_backoff :
  translate_one dropping_backend (py "greeting") (py "Hello {name}!")
                (py "French") (py "fr") example_cfg 1 (10 ^ 30 # 1) None []
  = (inl (Raise (py "OverflowError")
                (py "timestamp too large to convert to C _PyTime_t")),
     [EPost (request_of example_cfg
               (build_prompt (py "Hello {name}!") (py "French") (py "fr")
                  [py "name"] false))]).
Proof. by vm_compute. Qed.

(** The backend times out once and then keeps the placeholder: one
    retry, after a sleep of [0.6] seconds. *)
Lemma translate_one_first_success_witness :
  translate_one flaky_backend (py "greeting") (py "Hello {name}!")
                (py "French") (py "fr") example_cfg 2 (6 # 10) None []
  = (inr (py "greeting", py "Bonjour {name} !", None, false),
     retry_log example_cfg (6 # 10)
       (build_prompt (py "Hello {name}!") (py "French") (py "fr")
          (extract_placeholder_names (py "Hello {name}!"))
          (has_icu_block (py "Hello {name}!"))) 1 0
     ++ [EPost (request_of example_cfg
                  (build_prompt (py "Hello {name}!") (py "French") (py "fr")
                     (extract_placeholder_names (py "Hello {name}!"))
                     (has_icu_block (py "Hello {name}!"))))]).
Proof.
  apply (translate_one_first_success flaky_backend (py "greeting")
           (py "Hello {name}!") (py "French") (py "fr") example_cfg 2
           (6 # 10) None 1 (py "Bonjour {name} !")).
  - lia.
  - intros i Hi. replace i with 0 by lia. split; vm_compute; eauto.
  - vm_compute. reflexivity.
  - vm_compute. reflexivity.
Defined.

(** The outcome of a job whose every attempt fails: the error stands
    beside the source text. *)
Lemma translate_one_outcome_shape_witness :
  py "greeting" = py "greeting"
  ∧ (false = true →
     is_Some (Some example_fallback_cfg)
     ∧ Some (py "Validation failed: Missing placeholder: {name}") = None
     ∧ validate_preserved_tokens (py "Hello {name}!") (py "Hello {name}!")
       = (true, None))
  ∧ (is_Some (Some (py "Validation failed: Missing placeholder: {name}")) →
     py "Hello {name}!" = py "Hello {name}!" ∧ false = false)
  ∧ (Some (py "Validation failed: Missing placeholder: {name}") = None →
     validate_preserved_tokens (py "Hello {name}!") (py "Hello {name}!")
     = (true, None)
     ∨ (py "Hello {name}!" = py "Hello {name}!" ∧ false = false ∧ 2 < 0)%Z).
Proof.
  apply (translate_one_outcome_shape dropping_backend (py "greeting")
           (py "Hello {name}!") (py "French") (py "fr") example_cfg 2
           (6 # 10) (Some example_fallback_cfg) []
           (translate_one dropping_backend (py "greeting")
              (py "Hello {name}!") (py "French") (py "fr") example_cfg 2
              (6 # 10) (Some example_fallback_cfg) []).2).
  vm_compute. reflexivity.
Defined.
End JobExamples.

(** * The backend client and the prompt builder *)

Section ClientFacts.
Context `{Unicode}.

Lemma lstrip_head t c : head (lstrip t) = Some c → u_isspace c = false.
Proof.
  induction t as [|x t IH]; simpl; [done|].
  destruct (u_isspace x) eqn:Hx; [done|]. simpl. by intros [= <-].
Qed.

Lemma rstrip_split t : ∃ ws, blank ws ∧ t = rstrip t ++ ws.
Proof.
  unfold rstrip. destruct (lstrip_split (reverse t)) as (ws & Hws & E).
  exists (reverse ws). split; [by apply Forall_reverse|].
  by rewrite <-reverse_app, <-E, reverse_involutive.
Qed.

Lemma rstrip_last t c : last (rstrip t) = Some c → u_isspace c = false.
Proof.
  unfold rstrip. rewrite last_reverse. apply lstrip_head.
Qed.

(** [t.strip()] is [t] without the white space at its two ends. *)
Lemma strip_split t :
  ∃ ws1 ws2,
    blank ws1 ∧ blank ws2 ∧ t = ws1 ++ strip t ++ ws2
    ∧ ∀ c, head (strip t) = Some c ∨ last (strip t) = Some c →
           u_isspace c = false.
Proof.
  destruct (lstrip_split t) as (ws1 & Hws1 & E1).
  destruct (rstrip_split (lstrip t)) as (ws2 & Hws2 & E2).
  exists ws1, ws2. split_and!; [done|done|..].
  - unfold strip. by rewrite <-E2.
  - intros c [Hc|Hc]; [|by eapply rstrip_last].
    apply (lstrip_head t). rewrite E2. fold (strip t).
    destruct (strip t); by simplify_eq/=.
Qed.

Lemma ollama_generate_reply (backend : nat → request → exn + json)
    cfg prompt w out w' :
  ollama_generate backend cfg prompt w = (inr out, w') →
  w' = w ++ [EPost (request_of cfg prompt)]
  ∧ ∃ d t,
      backend (posts w) (request_of cfg prompt) = inr (JDict d)
      ∧ t = match dict_lookup d (py "response") with
            | Some (JStr t) => t
            | _ => []
            end
      ∧ out = strip t.
Proof.
  rewrite ollama_generate_run. unfold generated. intros [= Hgen <-].
  split; [done|].
  destruct (backend (posts w) _) as [e|resp]; [done|].
  destruct resp as [| | | | | |d]; try done. exists d. eexists.
  split_and!; [done|done|]. unfold response_text in Hgen.
  destruct (dict_lookup d _) as [[| | | |t| |]|]; by simplify_eq.
Qed.

Lemma lstrip_char_split c s :
  ∃ k, s = replicate k c ++ lstrip_char c s
       ∧ head (lstrip_char c s) ≠ Some c.
Proof.
  induction s as [|x s (k & IH & Hhead)]; simpl.
  - by exists 0.
  - destruct (N.eqb_spec x c) as [->|Hne].
    + exists (S k). simpl. by rewrite <-IH.
    + exists 0. split; [done|]. simpl. by intros [= ?].
Qed.

Lemma rstrip_char_split c s :
  ∃ k, s = rstrip_char c s ++ replicate k c
       ∧ last (rstrip_char c s) ≠ Some c.
Proof.
  unfold rstrip_char.
  destruct (lstrip_char_split c (reverse s)) as (k & E & Hhead).
  exists k. split; [|by rewrite last_reverse].
  apply (f_equal reverse) in E.
  by rewrite reverse_involutive, reverse_app, reverse_replicate in E.
Qed.

Lemma join_elem (sep x : str) (l : list str) :
  x ∈ l → ∃ a b, join sep l = a ++ x ++ b.
Proof.
  induction l as [|y l IH]; [by intros ?%elem_of_nil|].
  intros [->|Hx]%elem_of_cons.
  - destruct l as [|z l]; [exists [], []|exists [], (sep ++ join sep (z :: l))];
      simpl; by rewrite ?app_nil_r.
  - destruct (IH Hx) as (a & b & E). destruct l as [|z l].
    { by apply elem_of_nil in Hx. }
    exists (y ++ sep ++ a), b. cbn [join] in *. rewrite E.
    by rewrite <-!app_assoc.
Qed.

Lemma occurs_app_l (x y l m r t : str) :
  (∃ a b, y = a ++ l ++ m ++ r ++ b ++ t) →
  ∃ a b, x ++ y = a ++ l ++ m ++ r ++ b ++ t.
Proof. intros (a & b & ->). exists (x ++ a), b. by rewrite <-app_assoc. Qed.

Lemma occurs_cons (c : N) (y l m r t : str) :
  (∃ a b, y = a ++ l ++ m ++ r ++ b ++ t) →
  ∃ a b, c :: y = a ++ l ++ m ++ r ++ b ++ t.
Proof. intros (a & b & ->). by exists (c :: a), b. Qed.
End ClientFacts.

(** X14: what [ollama_generate] returns.  It sends one request, built
    from the configuration and the prompt.  When it returns, the reply
    was a JSON object, and the text returned is the string under
    [response] (the empty string when the reply has no such key) without
    the white space at its two ends: it neither starts nor ends with a
    white space character. *)
Theorem ollama_generate_text `{Unicode} (backend : nat → request → exn + json)
    (cfg : OllamaConfig) (prompt : str) (w w' : World) (out : str) :
  ollama_generate backend cfg prompt w = (inr out, w') →
  w' = w ++ [EPost (request_of cfg prompt)]
  ∧ ∃ d t ws1 ws2,
      backend (posts w) (request_of cfg prompt) = inr (JDict d)
      ∧ t = match dict_lookup d (py "response") with
            | Some (JStr t) => t
            | _ => []
            end
      ∧ blank ws1 ∧ blank ws2 ∧ t = ws1 ++ out ++ ws2
      ∧ ∀ c, head out = Some c ∨ last out = Some c → u_isspace c = false.
Proof.
  intros (-> & d & t & Hd & Ht & ->)%ollama_generate_reply.
  split; [done|].
  destruct (strip_split t) as (ws1 & ws2 & ? & ? & ? & ?).
  by exists d, t, ws1, ws2.
Qed.

(** X15: the URL of a request is the host without its trailing slashes,
    followed by [/api/generate]: trailing slashes of [--host] make no
    difference, and the path never starts with two slashes. *)
Theorem request_url_slashes (cfg : OllamaConfig) (prompt : str) :
  ∃ h k,
    host cfg = h ++ replicate k (chr "/")
    ∧ last h ≠ Some (chr "/")
    ∧ rq_url (request_of cfg prompt) = h ++ py "/api/generate".
Proof.
  destruct (rstrip_char_split (chr "/") (host cfg)) as (k & E & Hlast).
  by exists (rstrip_char (chr "/") (host cfg)), k.
Qed.

(** X16: the prompt names what to protect.  Every name of the list
    handed to [build_prompt] stands in braces in the instructions of the
    prompt, before the line that introduces the text; the text to
    translate is the end of the prompt. *)
Theorem build_prompt_names (text target_lang target_code : str)
    (names : list str) (has_icu : bool) (n : str) :
  n ∈ names →
  ∃ a b,
    build_prompt text target_lang target_code names has_icu
    = a ++ py "{" ++ n ++ py "}" ++ b ++ [NL]
        ++ py "Please translate the following English text into "
        ++ target_lang ++ py ":" ++ [NL; NL; NL] ++ text.
Proof.
  intros Hn. unfold build_prompt.
  destruct names as [|n0 names]; [by apply elem_of_nil in Hn|].
  destruct (join_elem (py ", ") (py "{" ++ n ++ py "}")
              (map (λ t, py "{" ++ t ++ py "}") (n0 :: names)))
    as (a & b & E).
  { apply list_elem_of_fmap. by exists n. }
  cbv zeta. rewrite E. clear E.
  destruct has_icu; cbn [join app];
    match goal with
    | |- context [match ?c with [] => [] | _ :: _ => [NL] end] =>
        generalize (match c with [] => @nil N | _ :: _ => [NL] end)
    end; intros sep;
    repeat match goal with
           | |- ∃ _ _, ?x ++ _ = _ =>
               tryif constr_eq x sep then fail else apply occurs_app_l
           | |- ∃ _ _, _ :: _ = _ => apply occurs_cons
           end;
    apply occurs_app_l.
  - exists (py "CRITICAL: Keep these placeholders EXACTLY as they appear: "
              ++ a),
           (b ++ NL :: py "CRITICAL: Preserve ICU message format structure (plural, select, =0, =1, other, etc.). Only translate the text inside the forms.").
    by rewrite <-!app_assoc.
  - exists (py "CRITICAL: Keep these placeholders EXACTLY as they appear: "
              ++ a), b.
    by rewrite <-!app_assoc.
Qed.

Section ClientExamples.
#[local] Existing Instance ascii_tables.

(** A reply padded with blanks comes back bare. *)
Lemma ollama_generate_text_witness :
  (ollama_generate padded_backend example_cfg (py "Hello {name}!") []).2
  = [] ++ [EPost (request_of example_cfg (py "Hello {name}!"))].
Proof.
  eapply proj1,
    (ollama_generate_text padded_backend example_cfg (py "Hello {name}!") []
       _ (py "Bonjour {name} !")).
  vm_compute. reflexivity.
Defined.

(** The prompt for [Hello {name}!] holds [{name}] in its instructions. *)
Lemma build_prompt_names_witness :
  ∃ a b,
    build_prompt (py "Hello {name}!") (py "French") (py "fr") [py "name"]
                 false
    = a ++ py "{" ++ py "name" ++ py "}" ++ b ++ [NL]
        ++ py "Please translate the following English text into "
        ++ py "French" ++ py ":" ++ [NL; NL; NL] ++ py "Hello {name}!".
Proof.
  apply (build_prompt_names (py "Hello {name}!") (py "French") (py "fr")
           [py "name"] false (py "name")).
  by left.
Defined.
End ClientExamples.

(** * The validator and the extractor: what they accept and report *)

Section TokenShapes.
Context `{Unicode}.

Lemma validate_pass s c :
  validate_preserved_tokens s c = (true, None) ↔
  (∀ n, n ∈ extract_placeholder_names s → token_occurs n c)
  ∧ (has_icu_block s = true → has_icu_block c = true).
Proof.
  unfold validate_preserved_tokens.
  destruct (first_missing _ c) as [why|] eqn:Hc.
  - split; [done|]. intros [Hall _].
    apply first_missing_None in Hall. by rewrite Hall in Hc.
  - pose proof (proj1 (first_missing_None _ _) Hc) as Hall.
    destruct (has_icu_block s), (has_icu_block c); simpl;
      split; try done; try (by intros [_ E]; discriminate (E eq_refl)).
Qed.

Lemma matches_ilits_inv kw :
  ∀ s g s' g',
    matches (seq (map LitI kw)) s g s' g' →
    ∃ lab, caseless_word kw lab ∧ s = lab ++ s' ∧ g' = g.
Proof.
  induction kw as [|p kw IH]; intros s g s' g'.
  - inversion 1; subst. exists []. by split; [constructor|].
  - destruct kw as [|p' kw].
    + inversion 1; subst. exists [x].
      split; [by repeat constructor|done].
    + change (seq (map LitI (p :: p' :: kw)))
        with (Seq (LitI p) (seq (map LitI (p' :: kw)))).
      intros (s1 & g1 & Hp & (lab & Hlab & -> & ->)%IH)%matches_Seq.
      inversion Hp; subst. exists (x :: lab).
      split; [by constructor|done].
Qed.

Lemma ICU_TAIL_shape :
  ICU_TAIL =
  Seq (Star s_)
    (Seq (Alt (seq (map LitI (py "plural")))
           (Alt (seq (map LitI (py "select")))
                (seq (map LitI (py "selectordinal")))))
       (Seq (Star s_) (Lit (chr ",")))).
Proof. reflexivity. Qed.

Lemma matches_ICU_TAIL t g t' g' :
  matches ICU_TAIL t g t' g' ↔
  ∃ ws2 kw lab ws3,
    blank ws2 ∧ blank ws3
    ∧ kw ∈ [py "plural"; py "select"; py "selectordinal"]
    ∧ caseless_word kw lab
    ∧ t = ws2 ++ lab ++ ws3 ++ [chr ","] ++ t' ∧ g' = g.
Proof.
  rewrite ICU_TAIL_shape. split.
  - intros (s1 & g1 & (ws2 & Hws2 & -> & ->)%matches_Star_Cls
               & (s2 & g2 & Hkw
                  & (s3 & g3 & (ws3 & Hws3 & -> & ->)%matches_Star_Cls
                     & [-> ->]%matches_Lit)%matches_Seq
                 )%matches_Seq)%matches_Seq.
    apply matches_Alt in Hkw as [Hkw|[Hkw|Hkw]%matches_Alt];
      apply matches_ilits_inv in Hkw as (lab & Hlab & -> & ->);
      eexists ws2, _, lab, ws3; (split_and!; [done|done| |done|done|done]).
    + by left.
    + right. by left.
    + right. right. by left.
  - intros (ws2 & kw & lab & ws3 & Hws2 & Hws3 & Hkw & Hlab & -> & ->).
    apply matches_Seq. eexists _, _.
    split; [apply matches_Star_Cls; eauto|].
    apply matches_Seq. eexists _, _. split.
    + apply (matches_ilits _ _ (ws3 ++ [chr ","] ++ t') g) in Hlab.
      repeat (apply elem_of_cons in Hkw as [->|Hkw];
              [by repeat (first [exact Hlab|apply m_alt_l; exact Hlab
                                |apply m_alt_r])|]).
      by apply elem_of_nil in Hkw.
    + apply matches_Seq. eexists _, _.
      split; [apply matches_Star_Cls; eauto|by apply matches_Lit].
Qed.

(** What [ICU_VAR_RE] matches, and what it captures. *)
Lemma matches_ICU_VAR_iff t t' g :
  matches ICU_VAR_RE t None t' g ↔
  ∃ n ws1 ws2 kw lab ws3,
    word n ∧ blank ws1 ∧ blank ws2 ∧ blank ws3
    ∧ kw ∈ [py "plural"; py "select"; py "selectordinal"]
    ∧ caseless_word kw lab
    ∧ t = [chr "{"] ++ n ++ ws1 ++ [chr ","] ++ ws2 ++ lab ++ ws3
            ++ [chr ","] ++ t'
    ∧ g = Some n.
Proof.
  rewrite ICU_VAR_RE_shape. split.
  - intros (s1 & g1 & [-> ->]%matches_Lit
               & (s2 & g2 & (n & g0 & Hn & -> & ->)%matches_Group
                  & (s3 & g3 & (ws1 & Hws1 & -> & ->)%matches_Star_Cls
                     & (s4 & g4 & [-> ->]%matches_Lit & Htail)%matches_Seq
                    )%matches_Seq)%matches_Seq)%matches_Seq.
    apply matches_Plus_Cls in Hn as (n' & Hne & Hword & Hn' & _).
    apply app_inv_tail in Hn' as <-.
    apply matches_ICU_TAIL in Htail
      as (ws2 & kw & lab & ws3 & Hws2 & Hws3 & Hkw & Hlab & -> & ->).
    exists n, ws1, ws2, kw, lab, ws3. split_and!; try done.
  - intros (n & ws1 & ws2 & kw & lab & ws3 & [Hne Hword] & Hws1 & Hws2
               & Hws3 & Hkw & Hlab & -> & ->).
    apply matches_Seq. eexists _, _. split; [by apply matches_Lit|].
    apply matches_Seq. eexists _, _. split.
    { apply matches_Group. exists n, None. split_and!; [|done..].
      apply matches_Plus_Cls. exists n. split_and!; done. }
    apply matches_Seq. eexists _, _.
    split; [apply matches_Star_Cls; eauto|].
    apply matches_Seq. eexists _, _. split; [by apply matches_Lit|].
    apply matches_ICU_TAIL. exists ws2, kw, lab, ws3.
    split_and!; try done.
Qed.

Lemma icu_head_match_at n s :
  (∃ pre t, s = pre ++ t ∧ icu_head n t) ↔
  ∃ i, match_at ICU_VAR_RE s i (Some n).
Proof.
  split.
  - intros (pre & t & -> & ws1 & ws2 & kw & lab & ws3 & rest & Hn & Hws1
               & Hws2 & Hws3 & Hkw & Hlab & ->).
    exists (length pre). split; [rewrite length_app; lia|].
    exists rest. rewrite drop_app_length. apply matches_ICU_VAR_iff.
    exists n, ws1, ws2, kw, lab, ws3. split_and!; done.
  - intros (i & Hi & rest
               & (n' & ws1 & ws2 & kw & lab & ws3 & Hn & Hws1 & Hws2 & Hws3
                  & Hkw & Hlab & Hs & [= <-])%matches_ICU_VAR_iff).
    exists (take i s), (drop i s). split; [by rewrite take_drop|].
    exists ws1, ws2, kw, lab, ws3, rest. split_and!; done.
Qed.

Lemma has_icu_block_shape c :
  has_icu_block c = true ↔ ∃ pre n t, c = pre ++ t ∧ icu_head n t.
Proof.
  unfold has_icu_block. rewrite bool_decide_eq_true, re_search_is_Some.
  split.
  - intros (i & g & Hm). pose proof Hm as (_ & rest & Hg).
    apply matches_ICU_VAR_iff in Hg
      as (n & ? & ? & ? & ? & ? & _ & _ & _ & _ & _ & _ & _ & ->).
    destruct (proj2 (icu_head_match_at n c)) as (pre & t & ? & ?); eauto.
  - intros (pre & n & t & Hc & Ht).
    destruct (proj1 (icu_head_match_at n c)) as [i Hi]; eauto.
Qed.

(** The leftmost match is the first that [finditer] yields. *)
Lemma finditer_from_head r pos s :
  is_Some (search_from r pos s) →
  ∃ m ms, finditer_from r pos 0 s = m :: ms.
Proof.
  revert pos. induction s as [|c s IH]; intros pos; simpl.
  - destruct (re_match r []) as [[rest g]|]; [eauto|by intros []].
  - destruct (re_match r (c :: s)) as [[rest g]|]; [eauto|]. apply IH.
Qed.

Lemma icu_loop_mono (ms : list Match) (init : gset str) (n : str) :
  n ∈ init → n ∈ foldl (λ names m, names_add (m_group1 m) names) init ms.
Proof.
  revert init. induction ms as [|m ms IH]; intros init Hn; simpl; [done|].
  apply IH, names_add_elem. auto.
Qed.

Lemma icu_loop_complete (ms : list Match) (init : gset str) m (n : str) :
  m ∈ ms → m_group1 m = Some n →
  n ∈ foldl (λ names m, names_add (m_group1 m) names) init ms.
Proof.
  revert init. induction ms as [|m' ms IH]; intros init Hm Hg; simpl.
  - by apply elem_of_nil in Hm.
  - apply elem_of_cons in Hm as [<-|Hm]; [|by apply IH].
    apply icu_loop_mono, names_add_elem. auto.
Qed.

Lemma simple_loop_mono (s : str) (ms : list Match) (init : gset str) n :
  n ∈ init → n ∈ foldl (simple_step s) init ms.
Proof.
  revert init. induction ms as [|m ms IH]; intros init Hn; simpl; [done|].
  apply IH. unfold simple_step.
  destruct (re_match ICU_HEAD_RE _); [done|].
  destruct (re_search CASE_LABEL_RE _); [done|].
  apply names_add_elem. auto.
Qed.

Lemma has_icu_block_name s :
  has_icu_block s = true → ∃ n, n ∈ extract_placeholder_names s.
Proof.
  unfold has_icu_block. rewrite bool_decide_eq_true.
  intros (m & ms & Hms)%finditer_from_head.
  assert (Hm : m ∈ finditer ICU_VAR_RE s).
  { unfold finditer. rewrite Hms. by left. }
  destruct (finditer_group1 s m) as [n Hn]; [by left|].
  exists n. unfold extract_placeholder_names. rewrite sorted_elem.
  apply simple_loop_mono. by eapply icu_loop_complete.
Qed.
End TokenShapes.

(** X9: the validator accepts a candidate exactly when every protected
    name of the source occurs in it as a token ([{name}], or [{name],
    optional white space and a comma) and, if the source has an ICU
    block, the candidate has one too.  Nothing else of the candidate is
    looked at. *)
Theorem validate_pass_iff `{Unicode} (s c : str) :
  validate_preserved_tokens s c = (true, None) ↔
  (∀ n, n ∈ extract_placeholder_names s → token_occurs n c)
  ∧ (has_icu_block s = true → has_icu_block c = true).
Proof. apply validate_pass. Qed.

(** X10: [has_icu_block] holds exactly of the strings that contain the
    head of an ICU block: an opening brace, a variable of one or more
    word characters, a comma, one of the keywords [plural], [select],
    [selectordinal] in any case, and a comma, with optional white space
    around the first comma and before the second.  The forms of the
    block and its closing brace are not looked at. *)
Theorem has_icu_block_iff `{Unicode} (c : str) :
  has_icu_block c = true ↔ ∃ pre n t, c = pre ++ t ∧ icu_head n t.
Proof. apply has_icu_block_shape. Qed.

(** X11: a source with an ICU block has a protected name: its first
    block's variable is reported by the extractor, so the list of names
    is not empty. *)
Theorem has_icu_block_names `{Unicode} (s : str) :
  has_icu_block s = true → extract_placeholder_names s ≠ [].
Proof.
  intros [n Hn]%has_icu_block_name E. rewrite E in Hn.
  by apply elem_of_nil in Hn.
Qed.

(** ** Completeness of the extractor *)

Section ExtractorComplete.
Context `{Unicode}.
Hypothesis sane : sane_tables.

Lemma matches_SIMPLE_iff t t' g :
  matches SIMPLE_PLACEHOLDER_RE t None t' g ↔
  ∃ n, word n ∧ t = [chr "{"] ++ n ++ [chr "}"] ++ t' ∧ g = Some n.
Proof.
  change SIMPLE_PLACEHOLDER_RE
    with (Seq (Lit (chr "{")) (Seq (Group (Plus w_)) (Lit (chr "}")))).
  split.
  - intros (s1 & g1 & [-> ->]%matches_Lit
               & (s2 & g2 & (n & g0 & Hn & -> & ->)%matches_Group
                          & [-> ->]%matches_Lit)%matches_Seq)%matches_Seq.
    apply matches_Plus_Cls in Hn as (n' & Hne & Hword & Hn' & _).
    apply app_inv_tail in Hn' as <-. by exists n.
  - intros (n & [Hne Hword] & -> & ->).
    apply matches_Seq. eexists _, _. split; [by apply matches_Lit|].
    apply matches_Seq. eexists _, _. split; [|by apply matches_Lit].
    apply matches_Group. exists n, None. split_and!; [|done..].
    apply matches_Plus_Cls. exists n. split_and!; done.
Qed.

(** Where a run of word characters ends is determined by the string. *)
Lemma word_run_unique (n n' : str) x y a b :
  Forall (λ c, u_isword c = true) n → Forall (λ c, u_isword c = true) n' →
  u_isword x = false → u_isword y = false →
  n ++ x :: a = n' ++ y :: b → n = n' ∧ x = y ∧ a = b.
Proof.
  intros Hn. revert n'. induction Hn as [|c n Hc Hn IH]; intros n' Hn' Hx Hy.
  - destruct Hn' as [|c' n' Hc' Hn']; simpl; intros E; simplify_eq; [done|].
    by rewrite Hx in Hc'.
  - destruct Hn' as [|c' n' Hc' Hn']; simpl; intros E; simplify_eq.
    + by rewrite Hy in Hc.
    + destruct (IH n' Hn' Hx Hy) as (-> & -> & ->); done.
Qed.

Lemma brace_not_in_word (n : str) :
  Forall (λ c, u_isword c = true) n → chr "{" ∉ n.
Proof.
  intros Hn Hin. eapply Forall_forall in Hn; [|done].
  by rewrite (brace_not_word sane) in Hn.
Qed.

Lemma brace_not_in_blank (ws : str) : blank ws → chr "{" ∉ ws.
Proof.
  intros Hws Hin. eapply Forall_forall in Hws; [|done].
  by rewrite (brace_not_space sane) in Hws.
Qed.

Lemma brace_not_in_keyword kw lab :
  kw ∈ [py "plural"; py "select"; py "selectordinal"] →
  caseless_word kw lab → chr "{" ∉ lab.
Proof.
  intros Hkw Hlab.
  assert (Hcased : Forall (λ p, ascii_iscased p = true) kw).
  { repeat (apply elem_of_cons in Hkw as [->|Hkw];
            [by repeat constructor|]).
    by apply elem_of_nil in Hkw. }
  clear Hkw. induction Hlab as [|p c kw lab Hpc _ IH].
  - by intros ?%elem_of_nil.
  - apply Forall_cons in Hcased as [Hp Hcased].
    intros [<-|?]%elem_of_cons; [|by apply IH].
    by rewrite (brace_not_letter sane) in Hpc.
Qed.

Lemma SIMPLE_brace_led : brace_led SIMPLE_PLACEHOLDER_RE.
Proof.
  intros t rest g (n & [_ Hn] & -> & _)%matches_SIMPLE_iff.
  exists (n ++ [chr "}"]). split; [by rewrite <-app_assoc|].
  rewrite elem_of_app, list_elem_of_singleton.
  intros [?%brace_not_in_word|?]; done.
Qed.

Lemma ICU_VAR_brace_led : brace_led ICU_VAR_RE.
Proof.
  intros t rest g
    (n & ws1 & ws2 & kw & lab & ws3 & [_ Hn] & Hws1 & Hws2 & Hws3 & Hkw
       & Hlab & -> & _)%matches_ICU_VAR_iff.
  exists (n ++ ws1 ++ [chr ","] ++ ws2 ++ lab ++ ws3 ++ [chr ","]).
  split; [by rewrite <-!app_assoc|].
  rewrite !elem_of_app, !list_elem_of_singleton.
  intros [?%brace_not_in_word|[?%brace_not_in_blank|[?|[?%brace_not_in_blank
         |[?|[?%brace_not_in_blank|?]]]]]]; try done.
  by eapply brace_not_in_keyword.
Qed.

(** [finditer] misses no match of a pattern whose matches cannot
    overlap. *)
Lemma finditer_from_complete r s :
  brace_led r →
  ∀ pos skip i g,
    chr "{" ∉ take skip s → match_at r s i g →
    ∃ m, m ∈ finditer_from r pos skip s ∧ m_start m = pos + i.
Proof.
  intros Hled. induction s as [|c s IH]; intros pos skip i g Hskip [Hi [rest Hm]].
  - rewrite drop_nil in Hm. by apply Hled in Hm as (u & ? & _).
  - assert (Htail : ∀ k j, chr "{" ∉ take k s → i = S j →
              ∃ m, m ∈ finditer_from r (S pos) k s ∧ m_start m = pos + i).
    { intros k j Hk ->.
      destruct (IH (S pos) k j g Hk) as (m & Hin & Hstart).
      - split; [simpl in Hi; lia|]. eauto.
      - exists m. split; [done|lia]. }
    destruct skip as [|skip]; simpl.
    + destruct (re_match r (c :: s)) as [[rest0 g0]|] eqn:E.
      * destruct i as [|j].
        { eexists. split; [by left|]. simpl. lia. }
        apply re_match_sound, Hled in E as (u & [= -> ->] & Hu).
        assert (Hlen : S (length (u ++ rest0)) - length rest0 - 1
                       = length u) by (rewrite length_app; lia).
        rewrite Hlen.
        destruct (Htail (length u) j) as (m & Hin & Hstart);
          [by rewrite take_app_length|done|].
        exists m. split; [by right|done].
      * destruct i as [|j].
        { simpl in Hm. apply re_match_complete in Hm. rewrite E in Hm.
          by destruct Hm. }
        apply (Htail 0 j); [|done]. rewrite take_0. by intros ?%elem_of_nil.
    + simpl in Hskip. apply not_elem_of_cons in Hskip as [Hc Hskip].
      destruct i as [|j].
      { simpl in Hm. apply Hled in Hm as (u & [= -> _] & _). done. }
      by apply (Htail skip j).
Qed.

Lemma finditer_complete r s i g :
  brace_led r → match_at r s i g →
  ∃ m g', m ∈ finditer r s ∧ m_start m = i ∧ m_group1 m = g'
          ∧ match_at r s i g'.
Proof.
  intros Hled Hm.
  destruct (finditer_from_complete r s Hled 0 0 i g) as (m & Hin & Hstart);
    [rewrite take_0; by intros ?%elem_of_nil|done|].
  exists m, (m_group1 m). split_and!; [done|done|done|].
  apply finditer_sound in Hin. by rewrite Hstart in Hin.
Qed.

(** The test for the head of an ICU block never fires on a bare
    placeholder: what follows its name is a closing brace. *)
Lemma ICU_HEAD_bare n post :
  word n → re_match ICU_HEAD_RE ([chr "{"] ++ n ++ [chr "}"] ++ post) = None.
Proof.
  intros [_ Hn].
  destruct (re_match _ _) as [[rest g]|] eqn:E; [|done].
  apply re_match_sound in E. revert E.
  change ICU_HEAD_RE
    with (Seq (Lit (chr "{"))
            (Seq (Plus w_)
               (Seq (Star s_)
                  (Seq (Lit (chr ","))
                       (ignorecase (Seq (Star s_) icu_keyword)))))).
  intros (s1 & g1 & [[= <-] ->]%matches_Lit
             & (s2 & g2 & (n' & _ & Hn' & Hs & ->)%matches_Plus_Cls
                & (s3 & g3 & (ws & Hws & -> & ->)%matches_Star_Cls
                   & (s4 & g4 & [-> ->]%matches_Lit & _)%matches_Seq
                  )%matches_Seq)%matches_Seq)%matches_Seq.
  symmetry in Hs. destruct Hws as [|x ws Hx Hws]; simpl in Hs;
    cbn [in_class] in *.
  - apply word_run_unique in Hs as (_ & ? & _);
      [done|done|done|apply (comma_not_word sane)|apply (close_not_word sane)].
  - apply word_run_unique in Hs as (_ & -> & _);
      [|done|done| |apply (close_not_word sane)].
    + by rewrite (close_not_space sane) in Hx.
    + destruct (u_isword x) eqn:Hw; [|done].
      apply (word_not_space sane) in Hw. by rewrite Hw in Hx.
Qed.

Lemma matches_Eol s g s' g' :
  matches Eol s g s' g' → s' = s ∧ (s = [] ∨ s = [NL]).
Proof. inversion 1; subst; auto. Qed.

Lemma matches_CASE_LABELS_inv t g rest g' :
  matches CASE_LABELS t g rest g' → ∃ lab, case_label lab ∧ t = lab ++ rest.
Proof.
  rewrite CASE_LABELS_shape.
  intros [(s1 & g1 & [-> ->]%matches_Lit
              & (ds & Hne & Hds & -> & _)%matches_Plus_Cls)%matches_Seq
         |Hkw]%matches_Alt.
  { exists (chr "=" :: ds). split; [|done]. left. by exists ds. }
  repeat (apply matches_Alt in Hkw as [Hkw|Hkw]);
    apply matches_ilits_inv in Hkw as (lab & Hlab & -> & _);
    exists lab; (split; [|done]); right; eexists; (split; [|exact Hlab]);
    rewrite !elem_of_cons; tauto.
Qed.

(** The search for a case label finds one exactly when the text ends
    with one. *)
Lemma case_label_search_iff before :
  is_Some (re_search CASE_LABEL_RE before) ↔ ends_with_label before.
Proof.
  split; [|apply case_label_search].
  rewrite re_search_is_Some, CASE_LABEL_RE_shape.
  intros (i & g & Hi & rest
             & (s1 & g1 & (lab & Hlab & Hs)%matches_CASE_LABELS_inv
                & (s2 & g2 & (ws & Hws & -> & ->)%matches_Star_Cls
                   & [-> Htail]%matches_Eol)%matches_Seq)%matches_Seq).
  exists (take i before), lab, ws, s2. split_and!; [|done..].
  by rewrite <-Hs, take_drop.
Qed.

Lemma simple_loop_complete (s : str) (ms : list Match) (init : gset str)
    m n :
  m ∈ ms → m_group1 m = Some n →
  re_match ICU_HEAD_RE (drop (m_start m) s) = None →
  re_search CASE_LABEL_RE (take (m_start m) s) = None →
  n ∈ foldl (simple_step s) init ms.
Proof.
  revert init. induction ms as [|m' ms IH]; intros init Hm Hg Hhead Hlab;
    simpl.
  - by apply elem_of_nil in Hm.
  - apply elem_of_cons in Hm as [<-|Hm]; [|by apply IH].
    apply simple_loop_mono. unfold simple_step. rewrite Hhead, Hlab.
    apply names_add_elem. auto.
Qed.

Lemma extract_protected s n :
  n ∈ extract_placeholder_names s ↔ protected n s.
Proof.
  split.
  - intros (i & [Hicu|[[Hi (rest & Hm)] Hlab]])%extract_elem.
    + left. apply icu_head_match_at. eauto.
    + right. apply matches_SIMPLE_iff in Hm as (n' & Hn & Hs & [= <-]).
      exists (take i s), rest. split_and!; [|done|].
      * by rewrite <-Hs, take_drop.
      * intros [? E]%case_label_search. by rewrite Hlab in E.
  - unfold extract_placeholder_names. rewrite sorted_elem.
    unfold extract_names_set.
    intros [[i Hicu]%icu_head_match_at
           |(pre & post & -> & Hn & Hlab)].
    + apply simple_loop_mono.
      destruct (finditer_complete ICU_VAR_RE s i (Some n) ICU_VAR_brace_led
                  Hicu) as (m & g' & Hin & _ & Hg & _ & rest' & Hm').
      destruct Hicu as (_ & rest & Hm).
      apply matches_ICU_VAR_iff in Hm
        as (n1 & ws1 & ? & ? & ? & ? & [_ Hn1] & Hws1 & _ & _ & _ & _
               & Hs & [= <-]).
      apply matches_ICU_VAR_iff in Hm'
        as (n2 & ws2 & ? & ? & ? & ? & [_ Hn2] & Hws2 & _ & _ & _ & _
               & Hs' & ->).
      rewrite Hs in Hs'. simplify_list_eq.
      assert (Hsep : ∀ (ws : str) (a : str),
                blank ws → ∃ x b, ws ++ chr "," :: a = x :: b
                                  ∧ u_isword x = false).
      { intros ws a [|c0 ws' Hc0 _]; simpl.
        - eexists _, _. split; [done|apply (comma_not_word sane)].
        - eexists _, _. split; [done|].
          destruct (u_isword c0) eqn:Hw; [|done].
          apply (word_not_space sane) in Hw. by rewrite Hw in Hc0. }
      edestruct (Hsep ws1) as (c1 & b1 & E1 & Hc1); [done|].
      edestruct (Hsep ws2) as (c2 & b2 & E2 & Hc2); [done|].
      rewrite E1, E2 in Hs'.
      apply word_run_unique in Hs' as (-> & _); [|done..].
      by eapply icu_loop_complete.
    + assert (Hat : match_at SIMPLE_PLACEHOLDER_RE
                      (pre ++ [chr "{"] ++ n ++ [chr "}"] ++ post)
                      (length pre) (Some n)).
      { split; [rewrite length_app; lia|]. exists post.
        rewrite drop_app_length. apply matches_SIMPLE_iff. by exists n. }
      destruct (finditer_complete _ _ _ _ SIMPLE_brace_led Hat)
        as (m & g' & Hin & Hstart & Hg & _ & rest' & Hm').
      rewrite drop_app_length in Hm'.
      apply matches_SIMPLE_iff in Hm' as (n' & [_ Hn'] & Hs' & ->).
      simplify_list_eq.
      apply word_run_unique in Hs' as (<- & _);
        [|by destruct Hn|done|apply (close_not_word sane)..].
      eapply simple_loop_complete; [done|done|..]; rewrite Hstart.
      * rewrite drop_app_length. by apply ICU_HEAD_bare.
      * rewrite take_app_length. apply eq_None_not_Some.
        by rewrite case_label_search_iff.
Qed.
End ExtractorComplete.

(** X12: the extractor is exact.  With tables in which the braces and
    the comma are neither word characters nor white space, it reports
    [n] exactly when [n] is the variable of an ICU block of the source,
    or the source holds a bare placeholder [{n}] of word characters that
    does not follow a case label ([=N] or a plural category, then
    optional white space).  In particular no placeholder of the source
    is missed because matches overlap, and the test for the head of an
    ICU block in the second loop excludes nothing. *)
Theorem extract_placeholder_names_iff `{Unicode} (s n : str) :
  sane_tables →
  n ∈ extract_placeholder_names s ↔ protected n s.
Proof. intros sane. by apply extract_protected. Qed.

(** X13: what acceptance guarantees.  When the validator accepts [c]
    against [s], every name [s] asks to protect, be it the variable of
    an ICU block or a bare placeholder that does not follow a case
    label, occurs in [c] as [{n}] or as [{n], optional white space and a
    comma. *)
Theorem validate_keeps_protected `{Unicode} (s c n : str) :
  sane_tables →
  validate_preserved_tokens s c = (true, None) →
  protected n s →
  token_occurs n c.
Proof.
  intros sane [Hall _]%validate_pass Hn. by apply Hall, extract_protected.
Qed.

(** The tables for code points below 128 are of this kind. *)
Lemma ascii_sane : @sane_tables ascii_tables.
Proof.
  split; try reflexivity.
  - intros c. cbn [u_isword u_isspace ascii_tables].
    unfold ascii_isword, ascii_isspace, ascii_isdigit, ascii_isupper,
      ascii_islower.
    intros Hw.
    repeat match goal with
           | |- context [(?a <=? ?b)%N] => destruct (N.leb_spec a b)
           | H : context [(?a <=? ?b)%N] |- _ => destruct (N.leb_spec a b)
           | H : context [(?a =? ?b)%N] |- _ => destruct (N.eqb_spec a b)
           end; simpl in *; try done; lia.
  - intros p. cbn [u_caseless ascii_tables].
    unfold ascii_iscased, ascii_caseless, ascii_lower, ascii_isupper,
      ascii_islower.
    change (chr "{") with 123%N. intros Hp.
    repeat match goal with
           | |- context [(?a <=? ?b)%N] => destruct (N.leb_spec a b)
           | H : context [(?a <=? ?b)%N] |- _ => destruct (N.leb_spec a b)
           end; simpl in *; try done;
      apply N.eqb_neq; lia.
Qed.

Section TokenExamples.
#[local] Existing Instance ascii_tables.

(** The probe string has an ICU block, and a name. *)
Lemma has_icu_block_names_witness : extract_placeholder_names probe ≠ [].
Proof. apply has_icu_block_names. vm_compute. reflexivity. Defined.

(** The bare placeholder of [Hello {name}!]. *)
Lemma extract_placeholder_names_iff_witness :
  py "name" ∈ extract_placeholder_names (py "Hello {name}!")
  ↔ protected (py "name") (py "Hello {name}!").
Proof.
  apply (extract_placeholder_names_iff (py "Hello {name}!") (py "name")).
  apply ascii_sane.
Defined.

(** An accepted translation of [Hello {name}!] holds [{name}]. *)
Lemma validate_keeps_protected_witness :
  token_occurs (py "name") (py "Bonjour {name} !").
Proof.
  apply (validate_keeps_protected (py "Hello {name}!")
           (py "Bonjour {name} !") (py "name")).
  - apply ascii_sane.
  - vm_compute. reflexivity.
  - right. exists (py "Hello "), (py "!"). split_and!.
    + vm_compute. reflexivity.
    + split; [done|]. by repeat constructor.
    + intros [m Hm]%case_label_search_iff. vm_compute in Hm.
      discriminate.
Defined.

(** A placeholder that follows a word ending in [one] is taken for the
    form of a plural category, and is not reported. *)
Example extract_skips_after_word :
  extract_placeholder_names (py "Call someone{name} now") = []
  ∧ validate_preserved_tokens (py "Call someone{name} now")
                              (py "Appelez quelqu'un maintenant")
    = (true, None).
Proof. split; vm_compute; reflexivity. Qed.
End TokenExamples.

(** * The merge engine, phase by phase *)

Section MergeRun.
Context `{Unicode} `{Clock}.
Variable backend : str → nat → request → exn + json.
Variable as_completed : list (str * str) → list (str * str).
Variable writable : str → bool.
Variables (h0 : list dict) (fs : list (str * dict)) (ops : list str).

Abbreviation at_doc d := {| heap := h0 ++ [d]; files := fs; opened := ops |}.

Lemma setitem_out d k v :
  setitem (length h0) k v (at_doc d) = (inr (), at_doc (dict_set d k v)).
Proof.
  unfold setitem. simpl. rewrite alter_app_r_alt by done.
  by rewrite Nat.sub_diag.
Qed.

Lemma load_old d r :
  r < length h0 → load r (at_doc d) = (inr (default [] (h0 !! r)), at_doc d).
Proof. intros Hr. unfold load. simpl. by rewrite lookup_app_l. Qed.

Lemma copy_metadata_run source_data ks d :
  source_data < length h0 →
  for_each ks (λ key,
    let meta_key := py "@" ++ key in
    src ← load source_data;
    if dict_has src meta_key
    then setitem (length h0) meta_key (dict_get src meta_key)
    else mret ()) (at_doc d)
  = (inr (), at_doc (copy_metadata (default [] (h0 !! source_data)) ks d)).
Proof.
  intros Hsrc. revert d. induction ks as [|k ks IH]; intros d; [done|].
  cbn [for_each]. unfold mbind at 1, M_bind at 1. cbv zeta.
  rewrite load_bind. cbn [heap]. rewrite lookup_app_l by done.
  unfold copy_metadata. cbn [foldl].
  destruct (dict_has _ _).
  - rewrite setitem_out. apply IH.
  - unfold mret, M_ret. apply IH.
Qed.

Lemma manual_run target_locale items :
  ∀ (mc : Z) (its : list (str * str)) d,
    for_fold items (mc, its) (λ acc kv,
      let '(manual_count, items_to_translate) := acc in
      match manual_translation kv.1 target_locale with
      | Some t =>
          setitem (length h0) kv.1 (JStr t);;
          mret ((manual_count + 1)%Z, items_to_translate)
      | None => mret (manual_count, items_to_translate ++ [kv])
      end) (at_doc d)
    = (inr ((mc + Z.of_nat
                    (length (filter (λ kv, has_manual target_locale kv = true)
                                    items)))%Z,
            its ++ filter (λ kv, has_manual target_locale kv = false) items),
       at_doc (apply_manual target_locale items d)).
Proof.
  induction items as [|kv items IH]; intros mc its d.
  - cbn. by rewrite Z.add_0_r, app_nil_r.
  - cbn [for_fold]. unfold mbind at 1, M_bind at 1.
    unfold apply_manual. cbn [foldl].
    assert (Hm : has_manual target_locale kv
                 = bool_decide (is_Some (manual_translation kv.1
                                           target_locale))) by done.
    destruct (manual_translation kv.1 target_locale) as [t|] eqn:E.
    + rewrite bool_decide_eq_true_2 in Hm by eauto.
      unfold mbind, M_bind. rewrite setitem_out. unfold mret, M_ret.
      rewrite IH, !filter_cons, decide_True, decide_False
        by (by rewrite Hm).
      cbn [length]. do 3 f_equal. lia.
    + rewrite bool_decide_eq_false_2 in Hm by (by intros []).
      unfold mret, M_ret.
      rewrite IH, !filter_cons, decide_False, decide_True
        by (by rewrite Hm).
      by rewrite <-app_assoc.
Qed.

Lemma jobs_run target_lang target_code args jobs :
  ∀ c d,
    for_fold jobs c (λ c job,
      o ← fut_result backend (cfg_of args) (fallback_cfg_of args)
             target_lang target_code args job;
      let '(k, translated, err, used_fallback) := (o : outcome) in
      setitem (length h0) k (JStr translated);;
      let completed := (completed c + 1)%Z in
      let c :=
        if truthy err
        then {| translated_ok := translated_ok c;
                fallback_used := fallback_used c;
                completed := completed;
                failures := failures c ++ [(k, fmt_opt err)] |}
        else {| translated_ok := (translated_ok c + 1)%Z;
                fallback_used :=
                  if used_fallback then (fallback_used c + 1)%Z
                  else fallback_used c;
                completed := completed;
                failures := failures c |} in
      if (args_progress_every args =? 0)%Z
      then raise (Raise (py "ZeroDivisionError")
                        (py "integer modulo by zero"))
      else mret c) (at_doc d)
    = ((run_jobs backend target_lang target_code args jobs c d).1,
       at_doc (run_jobs backend target_lang target_code args jobs c d).2).
Proof.
  induction jobs as [|job jobs IH]; intros c d; [done|].
  cbn [for_fold run_jobs]. unfold mbind at 1, M_bind at 1.
  unfold mbind at 1, M_bind at 1. unfold fut_result at 1.
  fold (job_result backend target_lang target_code args job).
  destruct (job_result _ _ _ _ job) as [e|[[[k translated] err] fb]];
    [done|].
  unfold mbind, M_bind. rewrite setitem_out. cbv zeta.
  destruct (args_progress_every args =? 0)%Z; [done|].
  unfold mret, M_ret. rewrite IH. done.
Qed.
End MergeRun.

(** The merge engine computes the phases: for references to objects of
    the heap, the call allocates one object, the output document, and
    leaves in it the prepared document changed by the completion loop;
    it writes that document, once, when the loop has run to its end,
    the run is not a dry run and the file can be written. *)
Lemma translate_locale_run `{Unicode} `{Clock}
    (backend : str → nat → request → exn + json)
    (as_completed : list (str * str) → list (str * str))
    (writable : str → bool)
    (source_data target_data : ref)
    (target_locale target_lang target_code out_path : str)
    (args : Args) (missing_keys : option (list str)) (env : Env) :
  source_data < length (heap env) → target_data < length (heap env) →
  let src := default [] (heap env !! source_data) in
  let tgt := default [] (heap env !! target_data) in
  let d := prepared src tgt target_locale missing_keys in
  let jobs := submitted src target_locale missing_keys in
  let mc := manual_count_of src target_locale missing_keys in
  translate_locale backend as_completed writable source_data target_data
    target_locale target_lang target_code out_path args missing_keys env
  = if jobs is [] then
      (inr mc, {| heap := heap env ++ [d]; files := files env;
                  opened := opened env |})
    else
      let run :=
        run_jobs backend target_lang target_code args (as_completed jobs)
          {| translated_ok := mc; fallback_used := 0; completed := 0;
             failures := [] |} d in
      match run.1 with
      | inl e => (inl e, {| heap := heap env ++ [run.2]; files := files env;
                            opened := opened env |})
      | inr c =>
          if args_dry_run args
          then (inr (translated_ok c),
                {| heap := heap env ++ [run.2]; files := files env;
                   opened := opened env |})
          else if writable out_path
          then (inr (translated_ok c),
                {| heap := heap env ++ [run.2];
                   files := files env ++ [(out_path, run.2)];
                   opened := opened env ++ [out_path] |})
          else (inr (-1)%Z,
                {| heap := heap env ++ [run.2]; files := files env;
                   opened := opened env ++ [out_path] |})
      end.
Proof.
  destruct env as [h0 fs ops]. intros Hsrc Htgt src tgt d jobs mc.
  cbn [heap files opened] in *.
  unfold translate_locale. cbv zeta. rewrite load_bind. cbn [heap].
  fold tgt.
  assert (Halloc :
    (if tgt is _ :: _ then new_dict tgt
     else src ← load source_data; new_dict src)
      {| heap := h0; files := fs; opened := ops |}
    = (inr (length h0),
       {| heap := h0 ++ [if tgt is _ :: _ then tgt else src];
          files := fs; opened := ops |})).
  { destruct tgt; [|done]. by rewrite load_bind. }
  unfold mbind at 1, M_bind at 1. rewrite Halloc. clear Halloc.
  unfold mbind at 1, M_bind at 1. rewrite setitem_out.
  match goal with |- (_ ≫= ?k) _ = _ => set (rest := k) end.
  set (base := if tgt is _ :: _ then tgt else src).
  set (d0 := dict_set base (py "@@locale") (JStr target_locale)).
  assert (Hrest :
    rest (items_of src missing_keys)
         {| heap := h0 ++ [if missing_keys is Some ks
                           then copy_metadata src ks d0 else d0];
            files := fs; opened := ops |}
    = if jobs is [] then
        (inr mc, {| heap := h0 ++ [d]; files := fs; opened := ops |})
      else
        let run :=
          run_jobs backend target_lang target_code args (as_completed jobs)
            {| translated_ok := mc; fallback_used := 0; completed := 0;
               failures := [] |} d in
        match run.1 with
        | inl e =>
            (inl e, {| heap := h0 ++ [run.2]; files := fs; opened := ops |})
        | inr c =>
            if args_dry_run args
            then (inr (translated_ok c),
                  {| heap := h0 ++ [run.2]; files := fs; opened := ops |})
            else if writable out_path
            then (inr (translated_ok c),
                  {| heap := h0 ++ [run.2];
                     files := fs ++ [(out_path, run.2)];
                     opened := ops ++ [out_path] |})
            else (inr (-1)%Z,
                  {| heap := h0 ++ [run.2]; files := fs;
                     opened := ops ++ [out_path] |})
        end).
  { subst rest. cbv beta. unfold mbind at 1, M_bind at 1.
    rewrite manual_run. rewrite Z.add_0_l, app_nil_l.
    fold (submitted src target_locale missing_keys).
    fold (manual_count_of src target_locale missing_keys).
    fold jobs. fold mc.
    change (apply_manual target_locale (items_of src missing_keys)
              (if missing_keys is Some ks then copy_metadata src ks d0
               else d0)) with d.
    destruct jobs as [|job jobs']; [done|].
    set (jobs := job :: jobs').
    assert ((Z.of_nat (length jobs) =? 0)%Z = false) as ->.
    { apply Z.eqb_neq. subst jobs. simpl. lia. }
    unfold mbind at 1, M_bind at 1.
    pose proof (jobs_run backend h0 fs ops target_lang target_code args)
      as Hj.
    unfold cfg_of, fallback_cfg_of in Hj. rewrite Hj. clear Hj.
    fold (cfg_of args). fold (fallback_cfg_of args). cbv zeta.
    destruct (run_jobs _ _ _ _ _ _ _) as [[e|c] d']; cbn [fst snd]; [done|].
    destruct (args_dry_run args); [done|].
    unfold try_except. rewrite load_bind. cbn [heap].
    rewrite list_lookup_middle by done. cbn [default].
    unfold mbind, M_bind, write_json. by destruct (writable out_path). }
  etrans; [|exact Hrest]. clear Hrest. unfold mbind at 1, M_bind at 1.
  destruct missing_keys as [ks|].
  - rewrite load_bind. cbn [heap]. rewrite lookup_app_l by done.
    unfold mbind at 1, M_bind at 1. rewrite copy_metadata_run by done.
    done.
  - rewrite load_bind. cbn [heap]. rewrite lookup_app_l by done. done.
Qed.

Section PhaseFacts.
Context `{Unicode} `{Clock}.
Variable backend : str → nat → request → exn + json.

Lemma dict_lookup_set d k v k' :
  dict_lookup (dict_set d k v) k'
  = if decide (k = k') then Some v else dict_lookup d k'.
Proof.
  induction d as [|[k0 v0] d IH]; simpl.
  - unfold str_eqb. case_bool_decide; by case_decide.
  - unfold str_eqb in *. case_bool_decide as E0; simpl.
    + subst k0. unfold str_eqb. case_bool_decide; by case_decide.
    + unfold str_eqb. case_bool_decide as E1; [|done].
      subst k0. by rewrite decide_False.
Qed.

Lemma dict_lookup_set_ne d k v k' :
  k ≠ k' → dict_lookup (dict_set d k v) k' = dict_lookup d k'.
Proof. intros. by rewrite dict_lookup_set, decide_False. Qed.

Lemma dict_lookup_set_eq d k v :
  dict_lookup (dict_set d k v) k = Some v.
Proof. by rewrite dict_lookup_set, decide_True. Qed.

End PhaseFacts.


(** X20: when every item to translate has a manual translation for the
    target locale, [translate_locale] returns their number and writes
    nothing, dry run or not: the manual translations are stored in the
    output document in memory, and the call returns before the file is
    opened. *)
Theorem translate_locale_manual_only `{Unicode} `{Clock}
    (backend : str → nat → request → exn + json)
    (as_completed : list (str * str) → list (str * str))
    (writable : str → bool)
    (source_data target_data : ref)
    (target_locale target_lang target_code out_path : str)
    (args : Args) (missing_keys : option (list str)) (env : Env) :
  source_data < length (heap env) → target_data < length (heap env) →
  let src := default [] (heap env !! source_data) in
  let run :=
    translate_locale backend as_completed writable source_data target_data
      target_locale target_lang target_code out_path args missing_keys env in
  (∀ kv, kv ∈ items_of src missing_keys →
         is_Some (manual_translation kv.1 target_locale)) →
  run.1 = inr (Z.of_nat (length (items_of src missing_keys)))
  ∧ files run.2 = files env
  ∧ opened run.2 = opened env
  ∧ (∀ kv t, kv ∈ items_of src missing_keys →
             manual_translation kv.1 target_locale = Some t →
             ∃ out, heap run.2 = heap env ++ [out]
                    ∧ dict_lookup out kv.1 = Some (JStr t)).
Proof.
  intros Hsrc Htgt src run Hall. subst run.
  rewrite translate_locale_run by done. cbv zeta. fold src.
  assert (Hfilter : ∀ b,
    filter (λ kv, has_manual target_locale kv = b) (items_of src missing_keys)
    = if b then items_of src missing_keys else []).
  { intros b. induction (items_of src missing_keys) as [|kv l IH]; simpl.
    - by destruct b.
    - rewrite filter_cons.
      assert (has_manual target_locale kv = true) as Hkv.
      { apply bool_decide_eq_true. apply Hall. by left. }
      rewrite Hkv, IH by (intros; apply Hall; by right).
      destruct b; [by rewrite decide_True|by rewrite decide_False]. }
  unfold submitted, manual_count_of. rewrite !Hfilter.
  cbn [fst snd files heap opened].
  split_and!; [done|done|done|].
  intros kv t Hkv Ht. eexists. split; [done|].
  unfold prepared. cbv zeta. unfold apply_manual.
  generalize (if missing_keys is Some ks
              then copy_metadata src ks
                     (dict_set (if default [] (heap env !! target_data)
                                is _ :: _
                                then default [] (heap env !! target_data)
                                else src)
                               (py "@@locale") (JStr target_locale))
              else dict_set (if default [] (heap env !! target_data)
                             is _ :: _
                             then default [] (heap env !! target_data)
                             else src)
                            (py "@@locale") (JStr target_locale)).
  clear Hfilter. revert Hkv Hall.
  induction (items_of src missing_keys) as [|kv' l IH];
    intros Hkv Hall d0; [by apply elem_of_nil in Hkv|].
  cbn [foldl].
  assert (Hkeep : ∀ l' d1,
    dict_lookup d1 kv.1 = Some (JStr t) →
    dict_lookup
      (foldl (λ d (kv0 : str * str),
                match manual_translation kv0.1 target_locale with
                | Some t0 => dict_set d kv0.1 (JStr t0)
                | None => d
                end) d1 l') kv.1 = Some (JStr t)).
  { clear -Ht. induction l' as [|x l' IHl]; intros d1 Hd1; [done|].
    cbn [foldl]. apply IHl.
    destruct (manual_translation x.1 _) as [t0|] eqn:E; [|done].
    rewrite dict_lookup_set. case_decide as Hx; [|done].
    rewrite Hx, Ht in E. by simplify_eq. }
  apply elem_of_cons in Hkv as [<-|Hkv].
  - apply Hkeep. rewrite Ht. by rewrite dict_lookup_set_eq.
  - apply IH; [done|]. intros; apply Hall. by right.
Qed.

Section DocumentFacts.
Context `{Unicode} `{Clock}.
Variable backend : str → nat → request → exn + json.

Lemma translatable_key k v :
  is_translatable_entry k v = true →
  k ≠ py "@@locale" ∧ startswith_at k = false ∧ (k ∉ SKIP_KEYS)
  ∧ ∃ t, v = JStr t ∧ ¬ blank t.
Proof.
  unfold is_translatable_entry, str_eqb.
  case_bool_decide as E1; [done|].
  destruct (startswith_at k); [done|].
  case_bool_decide as E2; [done|]. simpl.
  destruct v as [| | | |t| |]; try done.
  intros Ht%negb_true_iff. split_and!; [done..|].
  exists t. split; [done|]. intros Hb%strip_nil_iff.
  apply bool_decide_eq_false in Ht. done.
Qed.

(** An item is a translatable entry of the source, under one of the
    keys the items are read from. *)
Lemma items_of_elem src missing_keys k v :
  (k, v) ∈ items_of src missing_keys →
  k ∈ item_keys src missing_keys
  ∧ is_translatable_entry k (JStr v) = true
  ∧ (k, JStr v) ∈ src.
Proof.
  unfold items_of, item_keys. destruct missing_keys as [ks|].
  - intros (k' & Hk' & E)%list_elem_of_omap.
    destruct (is_translatable_entry k' (dict_get src k')) eqn:Htr; [|done].
    destruct (dict_get src k') as [| | | |t| |] eqn:Hget; try done.
    simplify_eq. split_and!; [done..|].
    unfold dict_get in Hget.
    destruct (dict_lookup src k) as [x|] eqn:Hl; [|done].
    simpl in Hget. subst x. by apply dict_lookup_elem.
  - intros ([k' v'] & Hkv & E)%list_elem_of_omap. simpl in E.
    destruct (is_translatable_entry k' v') eqn:Htr; [|done].
    destruct v' as [| | | |t| |]; try done. simplify_eq.
    split_and!; [|done..]. unfold dict_keys.
    by apply (list_elem_of_fmap_2 fst) in Hkv.
Qed.

Lemma items_of_keys src missing_keys :
  (items_of src missing_keys).*1 `sublist_of` item_keys src missing_keys.
Proof.
  unfold items_of, item_keys. destruct missing_keys as [ks|].
  - induction ks as [|k ks IH]; simpl; [done|].
    destruct (is_translatable_entry _ _); [|by apply sublist_cons].
    destruct (dict_get src k); try (by apply sublist_cons).
    simpl. by apply sublist_skip.
  - unfold dict_keys. induction src as [|[k v] src IH]; simpl; [done|].
    destruct (is_translatable_entry _ _); [|by apply sublist_cons].
    destruct v; try (by apply sublist_cons).
    simpl. by apply sublist_skip.
Qed.

Lemma copy_metadata_lookup src ks d k' :
  (∀ key, key ∈ ks → k' ≠ py "@" ++ key) →
  dict_lookup (copy_metadata src ks d) k' = dict_lookup d k'.
Proof.
  unfold copy_metadata. revert d.
  induction ks as [|k ks IH]; intros d Hks; [done|]. cbn [foldl].
  rewrite IH by (intros; apply Hks; by right).
  destruct (dict_has _ _); [|done].
  rewrite dict_lookup_set_ne; [done|]. intros E.
  apply (Hks k); [by left|done].
Qed.

Lemma apply_manual_lookup target_locale items d k' :
  k' ∉ items.*1 →
  dict_lookup (apply_manual target_locale items d) k' = dict_lookup d k'.
Proof.
  unfold apply_manual. revert d.
  induction items as [|kv items IH]; intros d Hk'; [done|]. cbn [foldl].
  apply not_elem_of_cons in Hk' as [Hne Hk'].
  rewrite IH by done. destruct (manual_translation _ _); [|done].
  by rewrite dict_lookup_set_ne.
Qed.


(** The key a job returns is its own. *)
Lemma job_result_key target_lang target_code args job k t err fb :
  job_result backend target_lang target_code args job = inr (k, t, err, fb) →
  k = job.1.
Proof.
  unfold job_result.
  destruct (translate_one _ _ _ _ _ _ _ _ _ _) as [r w] eqn:E.
  simpl. intros ->. by apply translate_one_shape in E as [? _].
Qed.

Lemma run_jobs_lookup_other target_lang target_code args jobs :
  ∀ c d k',
    k' ∉ jobs.*1 →
    dict_lookup (run_jobs backend target_lang target_code args jobs c d).2 k'
    = dict_lookup d k'.
Proof.
  induction jobs as [|job jobs IH]; intros c d k' Hk'; [done|].
  cbn [run_jobs].
  apply not_elem_of_cons in Hk' as [Hne Hk'].
  destruct (job_result _ _ _ _ job) as [e|[[[k t] err] fb]] eqn:E; [done|].
  apply job_result_key in E as ->.
  destruct (args_progress_every args =? 0)%Z; simpl.
  - by rewrite dict_lookup_set_ne.
  - rewrite IH by done. by rewrite dict_lookup_set_ne.
Qed.

End DocumentFacts.

Section FinalDocument.
Context `{Unicode} `{Clock}.
Variable backend : str → nat → request → exn + json.
Variable writable : str → bool.
Variables (source_data target_data : ref).
Variables (target_locale target_lang target_code out_path : str).
Variables (args : Args) (missing_keys : option (list str)) (env : Env).
Hypothesis source_ok : source_data < length (heap env).
Hypothesis target_ok : target_data < length (heap env).

Abbreviation src_doc := (default [] (heap env !! source_data)).
Abbreviation tgt_doc := (default [] (heap env !! target_data)).
Abbreviation run_with as_completed :=
  (translate_locale backend as_completed writable source_data target_data
     target_locale target_lang target_code out_path args missing_keys env).

(** The output document at the end of a call, and what is written. *)
Lemma final_document as_completed :
  let jobs := submitted src_doc target_locale missing_keys in
  let d := prepared src_doc tgt_doc target_locale missing_keys in
  let out :=
    if jobs is [] then d
    else (run_jobs backend target_lang target_code args (as_completed jobs)
            {| translated_ok :=
                 manual_count_of src_doc target_locale missing_keys;
               fallback_used := 0; completed := 0; failures := [] |} d).2 in
  heap (run_with as_completed).2 = heap env ++ [out]
  ∧ (files (run_with as_completed).2 = files env
     ∨ files (run_with as_completed).2 = files env ++ [(out_path, out)]).
Proof.
  intros jobs d out. subst out.
  rewrite translate_locale_run by done. cbv zeta. fold jobs. fold d.
  destruct jobs as [|job jobs']; [by split; [|left]|].
  destruct (run_jobs _ _ _ _ _ _ _) as [[e|c] d']; cbn [fst snd];
    [by split; [|left]|].
  destruct (args_dry_run args); [by split; [|left]|].
  destruct (writable out_path); by split; [|auto].
Qed.

(** A key that is not [@@locale], not the metadata key of a missing
    key and not the key of an item keeps the value of the document the
    output starts from. *)
Lemma prepared_lookup k :
  (∀ ks key, missing_keys = Some ks → key ∈ ks → k ≠ py "@" ++ key) →
  k ∉ (items_of src_doc missing_keys).*1 →
  dict_lookup (prepared src_doc tgt_doc target_locale missing_keys) k
  = dict_lookup (dict_set (if tgt_doc is _ :: _ then tgt_doc else src_doc)
                          (py "@@locale") (JStr target_locale)) k.
Proof.
  intros Hmeta Hitems. unfold prepared. cbv zeta.
  rewrite apply_manual_lookup by done.
  destruct missing_keys as [ks|]; [|done].
  apply copy_metadata_lookup. intros key Hkey. by eapply Hmeta.
Qed.


Lemma final_lookup_other as_completed k :
  (∀ l x, x ∈ as_completed l → x ∈ l) →
  (∀ ks key, missing_keys = Some ks → key ∈ ks → k ≠ py "@" ++ key) →
  k ∉ (items_of src_doc missing_keys).*1 →
  ∃ out,
    heap (run_with as_completed).2 = heap env ++ [out]
    ∧ (files (run_with as_completed).2 = files env
       ∨ files (run_with as_completed).2 = files env ++ [(out_path, out)])
    ∧ dict_lookup out k
      = dict_lookup (dict_set (if tgt_doc is _ :: _ then tgt_doc
                               else src_doc)
                              (py "@@locale") (JStr target_locale)) k.
Proof.
  intros Hsub Hmeta Hitems.
  destruct (final_document as_completed) as [Hheap Hfiles].
  eexists. split_and!; [exact Hheap|exact Hfiles|].
  rewrite <-prepared_lookup by done.
  destruct (submitted _ _ _) as [|job jobs'] eqn:Hjobs; [done|].
  rewrite <-Hjobs. apply run_jobs_lookup_other.
  intros (x & -> & Hx%Hsub)%list_elem_of_fmap. apply Hitems.
  apply list_elem_of_fmap. exists x. split; [done|].
  unfold submitted in Hx. by apply list_elem_of_filter in Hx as [_ ?].
Qed.
End FinalDocument.

Lemma meta_key_at (key : str) : startswith_at (py "@" ++ key) = true.
Proof. reflexivity. Qed.

(** X21: the locale tag.  When [@locale] is not among the missing keys
    (the diff engine never reports it) and the executor completes only
    jobs that were submitted, the output document maps [@@locale] to the
    target locale at the end of the call, whatever the source and the
    target held there and however the call ends; a document that is
    written carries the tag. *)
Theorem translate_locale_locale_tag `{Unicode} `{Clock}
    (backend : str → nat → request → exn + json)
    (as_completed : list (str * str) → list (str * str))
    (writable : str → bool)
    (source_data target_data : ref)
    (target_locale target_lang target_code out_path : str)
    (args : Args) (missing_keys : option (list str)) (env : Env) :
  source_data < length (heap env) → target_data < length (heap env) →
  (∀ l x, x ∈ as_completed l → x ∈ l) →
  (∀ ks, missing_keys = Some ks → py "@locale" ∉ ks) →
  let run :=
    translate_locale backend as_completed writable source_data target_data
      target_locale target_lang target_code out_path args missing_keys env in
  ∃ out,
    heap run.2 = heap env ++ [out]
    ∧ (files run.2 = files env ∨ files run.2 = files env ++ [(out_path, out)])
    ∧ dict_lookup out (py "@@locale") = Some (JStr target_locale).
Proof.
  intros Hsrc Htgt Hsub Hks run. subst run.
  destruct (final_lookup_other backend writable source_data target_data
              target_locale target_lang target_code out_path args
              missing_keys env Hsrc Htgt as_completed (py "@@locale"))
    as (out & Hheap & Hfiles & Hout); [done| |..].
  - intros ks key -> Hkey E.
    change (py "@@locale") with (py "@" ++ py "@locale") in E.
    apply app_inv_head in E as <-. by apply (Hks ks).
  - intros ([k v] & Hk & [_ [Htr _]]%items_of_elem)%list_elem_of_fmap.
    simpl in Hk. subst k. by apply translatable_key in Htr as [? _].
  - exists out. split_and!; [done..|]. by rewrite Hout, dict_lookup_set_eq.
Qed.

(** X22: translating the missing keys keeps what is there.  When the
    missing keys are those the diff engine finds between the source and
    the target, every entry of the target whose key does not start with
    [@] and whose value is not an empty or white-space-only text stands
    unchanged in the output document, and so in the file written:
    translations that exist are never replaced, whatever the backend
    answers. *)
Theorem translate_missing_keeps_existing `{Unicode} `{Clock}
    (backend : str → nat → request → exn + json)
    (as_completed : list (str * str) → list (str * str))
    (writable : str → bool)
    (source_data target_data : ref)
    (target_locale target_lang target_code out_path : str)
    (args : Args) (env : Env) (k : str) (v : json) :
  source_data < length (heap env) → target_data < length (heap env) →
  (∀ l x, x ∈ as_completed l → x ∈ l) →
  let src := default [] (heap env !! source_data) in
  let tgt := default [] (heap env !! target_data) in
  let run :=
    translate_locale backend as_completed writable source_data target_data
      target_locale target_lang target_code out_path args
      (Some (find_missing_keys src tgt)) env in
  startswith_at k = false →
  dict_lookup tgt k = Some v →
  is_blank_str v = false →
  ∃ out,
    heap run.2 = heap env ++ [out]
    ∧ (files run.2 = files env ∨ files run.2 = files env ++ [(out_path, out)])
    ∧ dict_lookup out k = Some v.
Proof.
  intros Hsrc Htgt Hsub src tgt run Hat Hk Hv. subst run.
  destruct (final_lookup_other backend writable source_data target_data
              target_locale target_lang target_code out_path args
              (Some (find_missing_keys src tgt)) env Hsrc Htgt as_completed k)
    as (out & Hheap & Hfiles & Hout); [done| |..].
  - intros ks key _ _ ->. by rewrite meta_key_at in Hat.
  - intros Hmiss.
    eapply elem_of_sublist in Hmiss; [|apply items_of_keys].
    cbn [item_keys] in Hmiss. rewrite find_missing_keys_filter in Hmiss.
    apply list_elem_of_filter in Hmiss as [Hmiss _].
    apply is_missing_iff in Hmiss as (_ & _ & [E|(t & E & Hb)]).
    + fold tgt in Hk. by rewrite Hk in E.
    + fold tgt in Hk. rewrite Hk in E. simplify_eq.
      assert (is_blank_str (JStr t) = true) as Hblank
        by (apply is_blank_str_iff; eauto).
      by rewrite Hblank in Hv.
  - exists out. split_and!; [done..|]. rewrite Hout. fold tgt.
    rewrite dict_lookup_set_ne.
    + by destruct tgt.
    + intros <-. done.
Qed.

(** X25: what is not translatable is not touched.  An entry of the
    source that is no translatable text (its key is [appTitle], or its
    value is not a text, or an empty one) is never handed to a job: at
    the end the output document holds under its key what the document
    it starts from held, that is the target when the target is not
    empty, and the source otherwise.  A key such as [appTitle] that the
    target lacks is therefore never added to it, missing keys or not. *)
Theorem translate_locale_untranslatable `{Unicode} `{Clock}
    (backend : str → nat → request → exn + json)
    (as_completed : list (str * str) → list (str * str))
    (writable : str → bool)
    (source_data target_data : ref)
    (target_locale target_lang target_code out_path : str)
    (args : Args) (missing_keys : option (list str)) (env : Env) (k : str) :
  source_data < length (heap env) → target_data < length (heap env) →
  (∀ l x, x ∈ as_completed l → x ∈ l) →
  let src := default [] (heap env !! source_data) in
  let tgt := default [] (heap env !! target_data) in
  let run :=
    translate_locale backend as_completed writable source_data target_data
      target_locale target_lang target_code out_path args missing_keys env in
  startswith_at k = false →
  (∀ v, (k, JStr v) ∈ src → is_translatable_entry k (JStr v) = false) →
  ∃ out,
    heap run.2 = heap env ++ [out]
    ∧ (files run.2 = files env ∨ files run.2 = files env ++ [(out_path, out)])
    ∧ dict_lookup out k = dict_lookup (if tgt is _ :: _ then tgt else src) k.
Proof.
  intros Hsrc Htgt Hsub src tgt run Hat Hk. subst run.
  destruct (final_lookup_other backend writable source_data target_data
              target_locale target_lang target_code out_path args
              missing_keys env Hsrc Htgt as_completed k)
    as (out & Hheap & Hfiles & Hout); [done| |..].
  - intros ks key _ _ ->. by rewrite meta_key_at in Hat.
  - intros ([k' v] & Hk' & (_ & Htr & Hin)%items_of_elem)%list_elem_of_fmap.
    simpl in Hk'. subst k'. by rewrite (Hk v Hin) in Htr.
  - exists out. split_and!; [done..|]. rewrite Hout.
    apply dict_lookup_set_ne. intros <-. done.
Qed.

Section CompletionOrder.
Context `{Unicode} `{Clock}.
Variable backend : str → nat → request → exn + json.
Variable writable : str → bool.
Variables (source_data target_data : ref).
Variables (target_locale target_lang target_code out_path : str).
Variables (args : Args) (missing_keys : option (list str)) (env : Env).
Hypothesis source_ok : source_data < length (heap env).
Hypothesis target_ok : target_data < length (heap env).
Hypothesis backoff_ok : valid_backoff (args_backoff args) (args_retries args).
Hypothesis progress_ok : args_progress_every args ≠ 0%Z.
Hypothesis keys_ok :
  NoDup (item_keys (default [] (heap env !! source_data)) missing_keys).

Abbreviation the_src := (default [] (heap env !! source_data)).
Abbreviation the_tgt := (default [] (heap env !! target_data)).
Abbreviation the_jobs := (submitted the_src target_locale missing_keys).

End CompletionOrder.





Section MergeExamples.
#[local] Existing Instance ascii_tables.
#[local] Existing Instance cpython_clock.

Lemma env_two_refs : 0 < length (heap env_two) ∧ 1 < length (heap env_two).
Proof. simpl. lia. Qed.


(** The only text of [doc_manual] has a manual translation into
    Spanish: the call reports one string and writes no file. *)
Lemma translate_locale_manual_only_witness :
  let run :=
    translate_locale (λ _, faithful_backend) id (λ _, true) 0 1
      (py "es") (py "Spanish") (py "es") (py "lib/l10n/app_es.arb")
      example_args None env_manual in
  run.1 = inr 1%Z ∧ files run.2 = [].
Proof.
  intros run.
  destruct (translate_locale_manual_only (λ _, faithful_backend) id
              (λ _, true) 0 1 (py "es") (py "Spanish") (py "es")
              (py "lib/l10n/app_es.arb") example_args None env_manual)
    as (Hret & Hfiles & _).
  - simpl. lia.
  - simpl. lia.
  - intros kv Hkv.
    assert (Hall : Forall (λ kv : str * str,
                             is_Some (manual_translation kv.1 (py "es")))
                     (items_of doc_manual None)).
    { apply (bool_decide_unpack _). vm_compute. exact I. }
    by eapply Forall_forall in Hall.
  - split; [exact Hret|exact Hfiles].
Defined.

(** The French run tags its document [fr]. *)
Lemma translate_locale_locale_tag_witness :
  let run :=
    translate_locale (λ _, faithful_backend) id (λ _, true) 0 1
      (py "fr") (py "French") (py "fr") (py "lib/l10n/app_fr.arb")
      example_args None env_two in
  ∃ out,
    heap run.2 = heap env_two ++ [out]
    ∧ (files run.2 = files env_two
       ∨ files run.2 = files env_two ++ [(py "lib/l10n/app_fr.arb", out)])
    ∧ dict_lookup out (py "@@locale") = Some (JStr (py "fr")).
Proof.
  apply (translate_locale_locale_tag (λ _, faithful_backend) id (λ _, true)
           0 1 (py "fr") (py "French") (py "fr") (py "lib/l10n/app_fr.arb")
           example_args None env_two (proj1 env_two_refs)
           (proj2 env_two_refs)).
  - by intros l x.
  - by intros ks.
Defined.

(** The greeting the French target has stays. *)
Lemma translate_missing_keeps_existing_witness :
  let run :=
    translate_locale (λ _, faithful_backend) id (λ _, true) 0 1
      (py "fr") (py "French") (py "fr") (py "lib/l10n/app_fr.arb")
      example_args (Some (find_missing_keys doc_two doc_fr_partial))
      env_two in
  ∃ out,
    heap run.2 = heap env_two ++ [out]
    ∧ (files run.2 = files env_two
       ∨ files run.2 = files env_two ++ [(py "lib/l10n/app_fr.arb", out)])
    ∧ dict_lookup out (py "greeting") = Some (JStr (py "Salut {name} !")).
Proof.
  apply (translate_missing_keeps_existing (λ _, faithful_backend) id
           (λ _, true) 0 1 (py "fr") (py "French") (py "fr")
           (py "lib/l10n/app_fr.arb") example_args env_two (py "greeting")
           (JStr (py "Salut {name} !")) (proj1 env_two_refs)
           (proj2 env_two_refs)).
  - by intros l x.
  - reflexivity.
  - vm_compute. reflexivity.
  - vm_compute. reflexivity.
Defined.





(** The French target has no [appTitle], and gets none. *)
Lemma translate_locale_untranslatable_witness :
  let run :=
    translate_locale (λ _, faithful_backend) id (λ _, true) 0 1
      (py "fr") (py "French") (py "fr") (py "lib/l10n/app_fr.arb")
      example_args (Some (find_missing_keys doc_titled doc_fr_partial))
      env_titled in
  ∃ out,
    heap run.2 = heap env_titled ++ [out]
    ∧ (files run.2 = files env_titled
       ∨ files run.2 = files env_titled ++ [(py "lib/l10n/app_fr.arb", out)])
    ∧ dict_lookup out (py "appTitle") = None.
Proof.
  intros run.
  destruct (translate_locale_untranslatable (λ _, faithful_backend) id
              (λ _, true) 0 1 (py "fr") (py "French") (py "fr")
              (py "lib/l10n/app_fr.arb") example_args
              (Some (find_missing_keys doc_titled doc_fr_partial))
              env_titled (py "appTitle"))
    as (out & Hheap & Hfiles & Hout).
  - simpl. lia.
  - simpl. lia.
  - by intros l x.
  - reflexivity.
  - intros v _. vm_compute. reflexivity.
  - exists out. split_and!; [exact Hheap|exact Hfiles|].
    rewrite Hout. vm_compute. reflexivity.
Defined.

(** The run over the missing keys, computed: the greeting stays, the
    farewell is translated, and the document is written. *)
Example translate_locale_missing_example :
  translate_locale (λ _, faithful_backend) id (λ _, true) 0 1
    (py "fr") (py "French") (py "fr") (py "lib/l10n/app_fr.arb")
    example_args (Some (find_missing_keys doc_two doc_fr_partial)) env_two
  = (inr 1%Z,
     {| heap := [doc_two; doc_fr_partial;
                 [(py "@@locale", JStr (py "fr"));
                  (py "greeting", JStr (py "Salut {name} !"));
                  (py "farewell", JStr (py "Au revoir {name}"))]];
        files := [(py "lib/l10n/app_fr.arb",
                   [(py "@@locale", JStr (py "fr"));
                    (py "greeting", JStr (py "Salut {name} !"));
                    (py "farewell", JStr (py "Au revoir {name}"))])];
        opened := [py "lib/l10n/app_fr.arb"] |}).
Proof. vm_compute. reflexivity. Qed.

(** The same run when the block that writes the file raises: the call
    returns [-1], no document is written, and the file was opened for
    writing. *)
Example translate_locale_failed_write_example :
  translate_locale (λ _, faithful_backend) id (λ _, false) 0 1
    (py "fr") (py "French") (py "fr") (py "lib/l10n/app_fr.arb")
    example_args (Some (find_missing_keys doc_two doc_fr_partial)) env_two
  = (inr (-1)%Z,
     {| heap := [doc_two; doc_fr_partial;
                 [(py "@@locale", JStr (py "fr"));
                  (py "greeting", JStr (py "Salut {name} !"));
                  (py "farewell", JStr (py "Au revoir {name}"))]];
        files := [];
        opened := [py "lib/l10n/app_fr.arb"] |}).
Proof. vm_compute. reflexivity. Qed.
End MergeExamples.

(** * The locale files *)

#[global] Instance str_le_antisymm : AntiSymm (=) str_le.
Proof.
  unfold str_le. intros a. induction a as [|x a IH]; intros [|y b]; simpl;
    try done.
  destruct (N.ltb_spec x y), (N.ltb_spec y x); try done; try lia.
  intros Hab Hba. assert (x = y) as -> by lia. f_equal. by apply IH.
Qed.

#[global] Instance pair_le_total : Total pair_le.
Proof.
  intros [a1 a2] [b1 b2]. unfold pair_le, str_lt. simpl.
  destruct (decide (a1 = b1)) as [->|Hne].
  - destruct (total str_le a2 b2); auto.
  - destruct (total str_le a1 b1); [left; left|right; left]; split; auto.
Qed.

#[global] Instance pair_le_trans : Transitive pair_le.
Proof.
  intros [a1 a2] [b1 b2] [c1 c2]. unfold pair_le, str_lt. simpl.
  intros [[Hab Hne]|[-> Hab]] [[Hbc Hne']|[-> Hbc]].
  - left. split; [by etrans|]. intros ->. apply Hne. by apply (anti_symm str_le).
  - left. done.
  - left. done.
  - right. split; [done|by etrans].
Qed.

#[global] Instance pair_le_antisymm : AntiSymm (=) pair_le.
Proof.
  intros [a1 a2] [b1 b2]. unfold pair_le, str_lt. simpl.
  intros [[Hab Hne]|[-> Hab]] [[Hba Hne']|[E Hba]].
  - destruct Hne. by apply (anti_symm str_le).
  - by destruct Hne.
  - by destruct Hne'.
  - f_equal. by apply (anti_symm str_le).
Qed.

Lemma endswith_iff (s w : str) : endswith s w = true ↔ ∃ pre, s = pre ++ w.
Proof.
  unfold endswith. rewrite startswith_iff. split.
  - intros [post E]. exists (reverse post).
    apply (f_equal reverse) in E.
    by rewrite reverse_involutive, reverse_app, reverse_involutive in E.
  - intros [pre ->]. exists (reverse pre). by rewrite reverse_app.
Qed.

(** A name that starts with [app_] and ends with [.arb] has both, one
    after the other: the locale code is what stands between them. *)
Lemma locale_file_name filename :
  startswith filename (py "app_") = true ∧ endswith filename (py ".arb") = true
  ↔ ∃ locale, filename = py "app_" ++ locale ++ py ".arb".
Proof.
  rewrite startswith_iff, endswith_iff. split.
  - intros [[post ->] [pre E]].
    change (py "app_") with [97; 112; 112; 95]%N in *.
    change (py ".arb") with [46; 97; 114; 98]%N in *.
    destruct pre as [|? [|? [|? [|? pre]]]]; simplify_eq/=.
    by exists pre.
  - intros [locale ->]. split; [eauto|].
    exists (py "app_" ++ locale). by rewrite <-app_assoc.
Qed.

Lemma slice_locale locale :
  slice_4_4 (py "app_" ++ locale ++ py ".arb") = locale.
Proof.
  unfold slice_4_4. rewrite (drop_app_length' (py "app_")) by done.
  rewrite !length_app.
  change (length (py "app_")) with 4. change (length (py ".arb")) with 4.
  rewrite take_app_length' by lia. done.
Qed.

Lemma locale_entry_Some l10n_dir template_basename filename locale path :
  locale_entry l10n_dir template_basename filename = Some (locale, path) ↔
  filename = py "app_" ++ locale ++ py ".arb"
  ∧ filename ≠ template_basename
  ∧ path = path_join l10n_dir filename.
Proof.
  unfold locale_entry.
  destruct (endswith filename _) eqn:Hend,
    (startswith filename _) eqn:Hstart; cbn [andb].
  - destruct (proj1 (locale_file_name filename)) as [loc ->]; [done|].
    rewrite slice_locale. unfold str_eqb.
    case_bool_decide as Hne; cbn [negb].
    + split; [done|]. by intros (_ & ? & _).
    + split.
      * intros [= -> <-]. done.
      * intros (E & _ & ->). apply app_inv_head, app_inv_tail in E.
        by subst.
  - split; [by destruct (negb _)|]. intros (-> & _ & _).
    destruct (proj2 (locale_file_name (py "app_" ++ locale ++ py ".arb")))
      as [E _]; [eauto|]. by rewrite E in Hstart.
  - split; [done|]. intros (-> & _ & _).
    destruct (proj2 (locale_file_name (py "app_" ++ locale ++ py ".arb")))
      as [_ E]; [eauto|]. by rewrite E in Hend.
  - split; [done|]. intros (-> & _ & _).
    destruct (proj2 (locale_file_name (py "app_" ++ locale ++ py ".arb")))
      as [_ E]; [eauto|]. by rewrite E in Hend.
Qed.

Lemma locale_loop l10n_dir template_basename filenames acc :
  foldl (λ locales filename,
           if endswith filename (py ".arb")
              && negb (str_eqb filename template_basename)
           then
             if startswith filename (py "app_")
             then locales ++ [(slice_4_4 filename,
                               path_join l10n_dir filename)]
             else locales
           else locales)
        acc filenames
  = acc ++ omap (locale_entry l10n_dir template_basename) filenames.
Proof.
  revert acc. induction filenames as [|f fs IH]; intros acc; simpl.
  - by rewrite app_nil_r.
  - rewrite IH. unfold locale_entry.
    destruct (endswith f _ && _); [|done].
    destruct (startswith f _); [|done]. by rewrite <-app_assoc.
Qed.

Lemma get_all_locale_files_run listdir l10n_dir template_file :
  get_all_locale_files listdir l10n_dir template_file
  = match listdir l10n_dir with
    | inl e => inl e
    | inr filenames =>
        inr (merge_sort pair_le
               (omap (locale_entry l10n_dir (basename template_file))
                     filenames))
    end.
Proof.
  unfold get_all_locale_files. destruct (listdir l10n_dir); [done|].
  by rewrite locale_loop.
Qed.

(** X17: the locale files found.  [get_all_locale_files] returns the
    pair [(locale, path)] exactly for the names [app_<locale>.arb] of
    the directory listing other than the base name of the template, with
    [path] the name joined to the directory: the file name is recovered
    from the locale code, and nothing else of the directory is
    returned. *)
Theorem get_all_locale_files_elem (listdir : str → exn + list str)
    (l10n_dir template_file : str) (filenames : list str)
    (locale path : str) :
  listdir l10n_dir = inr filenames →
  ∃ locales,
    get_all_locale_files listdir l10n_dir template_file = inr locales
    ∧ ((locale, path) ∈ locales ↔
       ∃ filename,
         filename ∈ filenames
         ∧ filename = py "app_" ++ locale ++ py ".arb"
         ∧ filename ≠ basename template_file
         ∧ path = path_join l10n_dir filename).
Proof.
  intros Hls. rewrite get_all_locale_files_run, Hls. eexists. split; [done|].
  rewrite merge_sort_Permutation, list_elem_of_omap.
  by setoid_rewrite locale_entry_Some.
Qed.

(** X18: the list of locale files is in ascending order of the locale
    codes, and does not depend on the order in which the file system
    lists the directory. *)
Theorem get_all_locale_files_sorted (listdir listdir' : str → exn + list str)
    (l10n_dir template_file : str) (filenames filenames' : list str) :
  listdir l10n_dir = inr filenames →
  listdir' l10n_dir = inr filenames' →
  filenames ≡ₚ filenames' →
  ∃ locales,
    get_all_locale_files listdir l10n_dir template_file = inr locales
    ∧ get_all_locale_files listdir' l10n_dir template_file = inr locales
    ∧ StronglySorted pair_le locales
    ∧ StronglySorted str_le locales.*1.
Proof.
  intros Hls Hls' Hperm. rewrite !get_all_locale_files_run, Hls, Hls'.
  eexists. split_and!; [done| |..].
  - f_equal. apply (Sorted_unique pair_le).
    + apply Sorted_merge_sort, _.
    + apply Sorted_merge_sort, _.
    + rewrite !merge_sort_Permutation. by rewrite Hperm.
  - apply StronglySorted_merge_sort; apply _.
  - generalize (StronglySorted_merge_sort pair_le
                  (omap (locale_entry l10n_dir (basename template_file))
                        filenames)).
    generalize (merge_sort pair_le
                  (omap (locale_entry l10n_dir (basename template_file))
                        filenames)).
    intros l Hl. induction Hl as [|x l _ IH Hx]; simpl; constructor; [done|].
    apply Forall_fmap. eapply Forall_impl; [done|].
    intros y [[? _]|[-> _]]; [done|apply str_le_refl].
Qed.

Section FilesExamples.

(** The listing of a directory with the template [app_en.arb]. *)
Lemma get_all_locale_files_elem_witness :
  ∃ locales,
    get_all_locale_files example_listing (py "lib/l10n")
                         (py "lib/l10n/app_en.arb") = inr locales
    ∧ ((py "fr", py "lib/l10n/app_fr.arb") ∈ locales ↔
       ∃ filename,
         filename ∈ [py "app_fr.arb"; py "app_en.arb"; py "intl_de.arb";
                     py "app_de.arb"; py "app_es.json"]
         ∧ filename = py "app_" ++ py "fr" ++ py ".arb"
         ∧ filename ≠ basename (py "lib/l10n/app_en.arb")
         ∧ py "lib/l10n/app_fr.arb" = path_join (py "lib/l10n") filename).
Proof.
  apply (get_all_locale_files_elem example_listing (py "lib/l10n")
           (py "lib/l10n/app_en.arb")).
  reflexivity.
Defined.

Lemma get_all_locale_files_sorted_witness :
  ∃ locales,
    get_all_locale_files example_listing (py "lib/l10n")
                         (py "lib/l10n/app_en.arb") = inr locales
    ∧ get_all_locale_files
        (λ _, inr [py "app_de.arb"; py "app_es.json"; py "app_en.arb";
                   py "app_fr.arb"; py "intl_de.arb"])
        (py "lib/l10n") (py "lib/l10n/app_en.arb") = inr locales
    ∧ StronglySorted pair_le locales
    ∧ StronglySorted str_le locales.*1.
Proof.
  eapply (get_all_locale_files_sorted example_listing _ (py "lib/l10n")
            (py "lib/l10n/app_en.arb")); [reflexivity|reflexivity|].
  apply (bool_decide_unpack _). vm_compute. exact I.
Defined.

(** The locale files of the example directory. *)
Example get_all_locale_files_example :
  get_all_locale_files example_listing (py "lib/l10n")
                       (py "lib/l10n/app_en.arb")
  = inr [(py "de", py "lib/l10n/app_de.arb");
         (py "fr", py "lib/l10n/app_fr.arb")].
Proof. vm_compute. reflexivity. Qed.
End FilesExamples.
